(** * read-cache: a set-associative cache simulator (cache.c, cache.h)

    Shallow embedding of the simulator and proofs about it.

    Conventions of the embedding.
    - C integers are [Z]; every conversion between C types that the source
      performs is written out ([to_uint], [to_int], [to_u64], [to_long]).
    - Arrays are lists; an access outside an array, a division by zero and a
      shift by at least the width of the type are undefined in C and make the
      embedded function return [None].
    - [cache_t *] is the single cache held in the [world]; [cache_set_t *] is
      an index into [sets]; [cache_line_t *] is an index into [lines] and
      [NULL] is [None]; [uint8_t *block] is an offset into the arena [memory].
    - The memory the simulated addresses point to is [ram], kept apart from
      the arena; 32-bit words are read little-endian and unaligned reads are
      allowed, as on x86-64.
    - [func_t] is the sequence of the values the generator returns; the world
      counts the calls made so far.
    - Loop counters of type [int] are taken not to overflow; allocation is
      taken to succeed, and [malloc]ed storage to be zero-filled. *)

From stdpp Require Import base numbers option list strings.
From Stdlib Require Import Strings.Byte Strings.Ascii.

Local Open Scope Z_scope.

(** ** C integer types *)

Definition to_uint (z : Z) : Z := z mod 2 ^ 32.
Definition to_int (z : Z) : Z := (z + 2 ^ 31) mod 2 ^ 32 - 2 ^ 31.
Definition to_u64 (z : Z) : Z := z mod 2 ^ 64.
Definition to_long (z : Z) : Z := (z + 2 ^ 63) mod 2 ^ 64 - 2 ^ 63.

(** ** cache.h: policy flags *)

Definition CACHE_REPLACEMENTPOLICY_MASK : Z := 12.
Definition CACHE_REPLACEMENTPOLICY_RANDOM : Z := 0.
Definition CACHE_REPLACEMENTPOLICY_LRU : Z := 4.
Definition CACHE_REPLACEMENTPOLICY_MRU : Z := 8.
Definition CACHE_WRITEPOLICY_MASK : Z := 3.
Definition CACHE_WRITEPOLICY_WRITETHROUGH : Z := 0.
Definition CACHE_WRITEPOLICY_WRITEBACK : Z := 1.
Definition CACHE_WRITEPOLICY_WRITEALLOCATE : Z := 0.
Definition CACHE_WRITEPOLICY_WRITENOALLOCATE : Z := 2.
Definition CACHE_TRACE_MASK : Z := 16.
Definition CACHE_TRACEPOLICY : Z := 16.

(** ** cache.h: structures *)

Record cache_line_t := Line {
  is_valid : Z;
  tag : Z;
  block : Z
}.

(** The [lines] pointer of a set is always the line array of its cache, so
    only [first_index] is kept. *)
Record cache_set_t := CSet {
  size : Z;
  first_index : Z;
  mru_list : list Z
}.

Record cache_t := Cache {
  num_sets : Z;
  num_lines : Z;
  line_size : Z;
  associativity : Z;
  block_offset_mask : Z;
  cache_index_mask : Z;
  cache_index_shift : Z;
  tag_mask : Z;
  tag_shift : Z;
  policies : Z;
  memory : list byte;
  lines : list cache_line_t;
  sets : list cache_set_t;
  access_count : Z;
  miss_count : Z
}.

Definition func_t : Type := nat → Z.

Record world := World {
  heap : cache_t;
  ram : Z → byte;
  stderr : list string;
  rand_calls : nat
}.

Definition set_sets (c : cache_t) (ss : list cache_set_t) : cache_t :=
  Cache (num_sets c) (num_lines c) (line_size c) (associativity c)
    (block_offset_mask c) (cache_index_mask c) (cache_index_shift c)
    (tag_mask c) (tag_shift c) (policies c) (memory c) (lines c) ss
    (access_count c) (miss_count c).

Definition set_lines (c : cache_t) (ls : list cache_line_t) : cache_t :=
  Cache (num_sets c) (num_lines c) (line_size c) (associativity c)
    (block_offset_mask c) (cache_index_mask c) (cache_index_shift c)
    (tag_mask c) (tag_shift c) (policies c) (memory c) ls (sets c)
    (access_count c) (miss_count c).

Definition set_memory (c : cache_t) (m : list byte) : cache_t :=
  Cache (num_sets c) (num_lines c) (line_size c) (associativity c)
    (block_offset_mask c) (cache_index_mask c) (cache_index_shift c)
    (tag_mask c) (tag_shift c) (policies c) m (lines c) (sets c)
    (access_count c) (miss_count c).

Definition set_access_count (c : cache_t) (n : Z) : cache_t :=
  Cache (num_sets c) (num_lines c) (line_size c) (associativity c)
    (block_offset_mask c) (cache_index_mask c) (cache_index_shift c)
    (tag_mask c) (tag_shift c) (policies c) (memory c) (lines c) (sets c)
    n (miss_count c).

Definition set_miss_count (c : cache_t) (n : Z) : cache_t :=
  Cache (num_sets c) (num_lines c) (line_size c) (associativity c)
    (block_offset_mask c) (cache_index_mask c) (cache_index_shift c)
    (tag_mask c) (tag_shift c) (policies c) (memory c) (lines c) (sets c)
    (access_count c) n.

(** ** Arrays *)

Definition arr_load {A} (l : list A) (i : Z) : option A :=
  if decide (0 ≤ i) then l !! Z.to_nat i else None.

Definition arr_store {A} (l : list A) (i : Z) (x : A) : option (list A) :=
  if decide (0 ≤ i < Z.of_nat (length l)) then Some (<[Z.to_nat i := x]> l)
  else None.

(** ** Operators that C leaves undefined on some operands *)

(** [a % b] on [int]. *)
Definition c_rem (a b : Z) : option Z :=
  if decide (b = 0) then None else Some (a `rem` b).

(** [a >> n] on a 64-bit unsigned operand. *)
Definition c_shr (a n : Z) : option Z :=
  if decide (0 ≤ n < 64) then Some (Z.shiftr a n) else None.

(** ** The monad of the simulator: state and undefined behaviour *)

Definition M (A : Type) : Type := world → option (A * world).

Global Instance M_ret : MRet M := λ A a w, Some (a, w).
Global Instance M_bind : MBind M := λ A B k m w,
  match m w with
  | Some (a, w') => k a w'
  | None => None
  end.

Definition lift {A} (o : option A) : M A := λ w,
  match o with
  | Some a => Some (a, w)
  | None => None
  end.

Definition get_cache : M cache_t := λ w, Some (heap w, w).

Definition put_cache (c : cache_t) : M unit := λ w,
  Some (tt, World c (ram w) (stderr w) (rand_calls w)).

Definition get_ram : M (Z → byte) := λ w, Some (ram w, w).

Definition fprintf_stderr (s : string) : M unit := λ w,
  Some (tt, World (heap w) (ram w) (stderr w ++ [s]) (rand_calls w)).

Definition call (generate_random_number : func_t) : M Z := λ w,
  Some (generate_random_number (rand_calls w),
        World (heap w) (ram w) (stderr w) (S (rand_calls w))).

Definition load_set (cache_set : Z) : M cache_set_t :=
  c ← get_cache; lift (arr_load (sets c) cache_set).

Definition load_line (line : Z) : M cache_line_t :=
  c ← get_cache; lift (arr_load (lines c) line).

(** ** cache.c *)

(** [cache_set_init]: the loop of lines 16-19; [n] iterations remain, the
    counter is [i]. *)
Fixpoint cache_set_init_loop (n : nat) (i first_index : Z)
    (ls : list cache_line_t) (mru : list Z)
    : option (list cache_line_t * list Z) :=
  match n with
  | O => Some (ls, mru)
  | S n' =>
    l ← arr_load ls (first_index + i);
    ls' ← arr_store ls (first_index + i) (Line 0 (tag l) (block l));
    mru' ← arr_store mru i i;
    cache_set_init_loop n' (i + 1) first_index ls' mru'
  end.

Definition cache_set_init (associativity : Z) (ls : list cache_line_t)
    (first_index : Z) : option (cache_set_t * list cache_line_t) :=
  '(ls', mru) ← cache_set_init_loop (Z.to_nat associativity) 0 first_index ls
                  (replicate (Z.to_nat associativity) 0);
  Some (CSet (to_int associativity) first_index mru, ls').

(** [logbase2]: the [while] loop; an [int] above 1 is halved at most 30
    times, so 31 rounds always reach the exit (see [logbase2_loop_exits]). *)
Fixpoint logbase2_loop (fuel : nat) (value ans : Z) : Z :=
  match fuel with
  | O => ans
  | S fuel' =>
    if decide (value > 1) then logbase2_loop fuel' (Z.shiftr value 1) (ans + 1)
    else ans
  end.

Definition logbase2 (value : Z) : Z := logbase2_loop 31 value 0.

(** [maskbits]: [(1L << nbits) - 1] in [long], returned as [unsigned long]. *)
Definition maskbits (nbits : Z) : option Z :=
  if decide (0 ≤ nbits < 64) then
    Some (to_u64 (to_long (to_long (Z.shiftl 1 nbits) - 1)))
  else None.

(** Lines 88-91: every line is given its block of the arena. *)
Definition init_lines (num_lines line_size : Z) : list cache_line_t :=
  (λ i, Line 0 0 (i * line_size)) <$> seqZ 0 num_lines.

(** Lines 95-99: the sets are initialised one after the other. *)
Fixpoint init_sets (n : nat) (associativity first_index : Z)
    (ls : list cache_line_t) : option (list cache_set_t * list cache_line_t) :=
  match n with
  | O => Some ([], ls)
  | S n' =>
    '(s, ls') ← cache_set_init associativity ls first_index;
    '(ss, ls'') ← init_sets n' associativity
                    (to_int (first_index + associativity)) ls';
    Some (s :: ss, ls'')
  end.

Definition cache_new (num_bytes block_size associativity policies : Z)
    : option cache_t :=
  if decide (block_size = 0) then None else
  let num_lines := to_uint (num_bytes / block_size) in
  if decide (associativity = 0) then None else
  let num_sets := to_uint (num_lines / associativity) in
  let offset_bits := to_uint (logbase2 (to_int block_size)) in
  offset_mask ← maskbits (to_int offset_bits);
  let index_bits := to_uint (logbase2 (to_int num_sets)) in
  index_mask ← maskbits (to_int index_bits);
  let tag_shift := to_uint (offset_bits + index_bits) in
  tag_bits ← maskbits (to_int (to_uint (64 - tag_shift)));
  '(ss, ls) ← init_sets (Z.to_nat num_sets) associativity 0
                (init_lines num_lines block_size);
  Some (Cache num_sets num_lines block_size associativity
          offset_mask (to_u64 (Z.shiftl index_mask offset_bits)) offset_bits
          (to_u64 (Z.shiftl tag_bits tag_shift)) tag_shift
          (to_uint policies)
          (replicate (Z.to_nat num_bytes) "000"%byte) ls ss 0 0).

Definition cache_line_check_validity_and_tag (cache_line : cache_line_t)
    (t : Z) : Z :=
  if decide (is_valid cache_line ≠ 0) then
    if decide (tag cache_line = t) then 1 else 0
  else 0.

(** The 32-bit word at [block + offset] of the arena, returned as [long]. *)
Definition cache_line_retrieve_data (cache_line : Z) (offset : Z) : M Z :=
  c ← get_cache;
  l ← lift (arr_load (lines c) cache_line);
  b0 ← lift (arr_load (memory c) (block l + offset));
  b1 ← lift (arr_load (memory c) (block l + offset + 1));
  b2 ← lift (arr_load (memory c) (block l + offset + 2));
  b3 ← lift (arr_load (memory c) (block l + offset + 3));
  mret (Z.of_N (Byte.to_N b0) + 2 ^ 8 * Z.of_N (Byte.to_N b1)
        + 2 ^ 16 * Z.of_N (Byte.to_N b2) + 2 ^ 24 * Z.of_N (Byte.to_N b3)).

(** [cache_line_make_mru], first loop: the position of [line_index] in the
    first [associativity] entries, or -1. *)
Fixpoint mru_search (n : nat) (i : Z) (mru : list Z) (line_index : Z)
    : option Z :=
  match n with
  | O => Some (-1)
  | S n' =>
    v ← arr_load mru i;
    if decide (to_u64 v = line_index) then Some i
    else mru_search n' (i + 1) mru line_index
  end.

(** Second loop: [i] runs from [n - 1] down to 0. *)
Fixpoint mru_shift (n : nat) (mru : list Z) : option (list Z) :=
  match n with
  | O => Some mru
  | S i =>
    v ← arr_load mru (Z.of_nat i);
    mru' ← arr_store mru (Z.of_nat i + 1) v;
    mru_shift i mru'
  end.

Definition cache_line_make_mru (cache_set : Z) (line_index : Z) : M unit :=
  c ← get_cache;
  s ← lift (arr_load (sets c) cache_set);
  index_of_line_index ←
    lift (mru_search (Z.to_nat (associativity c)) 0 (mru_list s) line_index);
  mru1 ← lift (mru_shift (Z.to_nat index_of_line_index) (mru_list s));
  mru2 ← lift (arr_store mru1 0 (to_int line_index));
  ss ← lift (arr_store (sets c) cache_set
               (CSet (size s) (first_index s) mru2));
  put_cache (set_sets c ss).

Definition is_lru_or_mru (c : cache_t) : bool :=
  bool_decide (policies c = CACHE_REPLACEMENTPOLICY_LRU)
  || bool_decide (policies c = CACHE_REPLACEMENTPOLICY_MRU).

Fixpoint find_matching_loop (n : nat) (i : Z) (cache_set : Z) (t : Z)
    : M (option Z) :=
  match n with
  | O => mret None
  | S n' =>
    c ← get_cache;
    s ← load_set cache_set;
    currline ← load_line (first_index s + i);
    if decide (cache_line_check_validity_and_tag currline t ≠ 0) then
      (if is_lru_or_mru c then cache_line_make_mru cache_set (to_u64 i)
       else mret tt);;
      mret (Some (first_index s + i))
    else find_matching_loop n' (i + 1) cache_set t
  end.

Definition cache_set_find_matching_line (cache_set : Z) (t : Z)
    : M (option Z) :=
  s ← load_set cache_set;
  find_matching_loop (Z.to_nat (size s)) 0 cache_set t.

Fixpoint find_unused_loop (n : nat) (i : Z) (cache_set : Z) : M (option Z) :=
  match n with
  | O => mret None
  | S n' =>
    c ← get_cache;
    s ← load_set cache_set;
    l ← load_line (first_index s + i);
    if decide (is_valid l = 0) then
      (if bool_decide (policies c = CACHE_REPLACEMENTPOLICY_MRU)
          || bool_decide (policies c = CACHE_REPLACEMENTPOLICY_LRU)
       then cache_line_make_mru cache_set (to_u64 i)
       else mret tt);;
      mret (Some (first_index s + i))
    else find_unused_loop n' (i + 1) cache_set
  end.

Definition find_available_cache_line (cache_set : Z)
    (generate_random_number : func_t) : M Z :=
  s ← load_set cache_set;
  unused ← find_unused_loop (Z.to_nat (size s)) 0 cache_set;
  match unused with
  | Some line => mret line
  | None =>
    c ← get_cache;
    if decide (policies c = CACHE_REPLACEMENTPOLICY_MRU) then
      s ← load_set cache_set;
      m0 ← lift (arr_load (mru_list s) 0);
      cache_line_make_mru cache_set (to_u64 m0);;
      s ← load_set cache_set;
      m0 ← lift (arr_load (mru_list s) 0);
      mret (first_index s + m0)
    else if decide (policies c = CACHE_REPLACEMENTPOLICY_LRU) then
      s ← load_set cache_set;
      lru_index ← lift (arr_load (mru_list s) (size s - 1));
      cache_line_make_mru cache_set (to_u64 lru_index);;
      s ← load_set cache_set;
      mret (first_index s + lru_index)
    else
      r ← call generate_random_number;
      s ← load_set cache_set;
      random_line ← lift (c_rem r (size s));
      mret (first_index s + random_line)
  end.

Fixpoint memcpy (n : nat) (dst src : Z) (mem : Z → byte) (arena : list byte)
    : option (list byte) :=
  match n with
  | O => Some arena
  | S n' =>
    arena' ← arr_store arena dst (mem src);
    memcpy n' (dst + 1) (src + 1) mem arena'
  end.

Definition cache_set_add (cache_set : Z) (address t : Z)
    (generate_random_number : func_t) : M Z :=
  line ← find_available_cache_line cache_set generate_random_number;
  c ← get_cache;
  l ← lift (arr_load (lines c) line);
  ls ← lift (arr_store (lines c) line (Line 1 t (block l)));
  mem ← get_ram;
  arena ← lift (memcpy (Z.to_nat (line_size c)) (block l)
                  (Z.land address (to_u64 (Z.lnot (block_offset_mask c))))
                  mem (memory c));
  put_cache (set_memory (set_lines c ls) arena);;
  mret line.

(** ** Trace records *)

Definition digit_char (d : Z) : ascii :=
  match d with
  | 0 => "0" | 1 => "1" | 2 => "2" | 3 => "3" | 4 => "4" | 5 => "5"
  | 6 => "6" | 7 => "7" | 8 => "8" | 9 => "9" | 10 => "a" | 11 => "b"
  | 12 => "c" | 13 => "d" | 14 => "e" | _ => "f"
  end%char.

(** The digits of [n] in [base], most significant first; 64 rounds are
    enough for every 64-bit value in every base. *)
Fixpoint print_digits (fuel : nat) (base n : Z) (acc : string) : string :=
  match fuel with
  | O => acc
  | S fuel' =>
    let acc' := String (digit_char (n `mod` base)) acc in
    if decide (n `div` base = 0) then acc'
    else print_digits fuel' base (n `div` base) acc'
  end.

Fixpoint spaces (n : nat) : string :=
  match n with
  | O => EmptyString
  | S n' => String " " (spaces n')
  end.

(** [%3u] *)
Definition fmt_3u (n : Z) : string :=
  let d := print_digits 64 10 n "" in
  spaces (3 - String.length d) +:+ d.

(** [%lx], which is what [PRIxPTR] expands to. *)
Definition fmt_lx (n : Z) : string := print_digits 64 16 n "".

Definition newline : string := String "010" EmptyString.

(** The record printed at line 275, in the branch where the lookup found
    no line. *)
Definition trace_record_miss (index address : Z) : string :=
  "Cache hit in set " +:+ fmt_3u index +:+ " for address 0x"
    +:+ fmt_lx address +:+ newline.

(** The record printed at line 282, in the branch where the lookup found
    a line. *)
Definition trace_record_hit (index address : Z) : string :=
  "Cache  hit in set " +:+ fmt_3u index +:+ " for address 0x"
    +:+ fmt_lx address +:+ newline.

Definition trace (record : string) : M unit :=
  c ← get_cache;
  if decide (Z.land (policies c) CACHE_TRACE_MASK = CACHE_TRACEPOLICY) then
    fprintf_stderr record
  else mret tt.

(** ** The public operations *)

(** Lines 263-265 of [cache_read]: offset, index and tag of an address. *)
Definition decode (c : cache_t) (address : Z) : option (Z * Z * Z) :=
  let offset := to_uint (Z.land address (block_offset_mask c)) in
  index ← c_shr (Z.land address (cache_index_mask c)) (cache_index_shift c);
  t ← c_shr (Z.land address (tag_mask c)) (tag_shift c);
  Some (offset, to_uint index, t).

Definition cache_read (address : Z) (generate_random_number : func_t) : M Z :=
  c ← get_cache;
  '(offset, index, t) ← lift (decode c address);
  let cache_set := index in
  resulting_line ← cache_set_find_matching_line cache_set t;
  c ← get_cache;
  put_cache (set_access_count c (to_uint (access_count c + 1)));;
  match resulting_line with
  | None =>
    c ← get_cache;
    put_cache (set_miss_count c (to_uint (miss_count c + 1)));;
    trace (trace_record_miss index address);;
    line ← cache_set_add cache_set address t generate_random_number;
    cache_line_retrieve_data line offset
  | Some line =>
    trace (trace_record_hit index address);;
    cache_line_retrieve_data line offset
  end.

Definition cache_write (address value : Z) (generate_random_number : func_t)
    : M unit :=
  mret tt.

Definition cache_miss_count : M Z :=
  c ← get_cache; mret (to_int (miss_count c)).

Definition cache_access_count : M Z :=
  c ← get_cache; mret (to_int (access_count c)).

(** ** Running the simulator *)

Definition boot (c : cache_t) (mem : Z → byte) : world := World c mem [] O.

(** A trace of reads, one after the other; the words read are returned. *)
Fixpoint read_all (addresses : list Z) (generate_random_number : func_t)
    : M (list Z) :=
  match addresses with
  | [] => mret []
  | a :: rest =>
    v ← cache_read a generate_random_number;
    vs ← read_all rest generate_random_number;
    mret (v :: vs)
  end.

Definition zero_ram : Z → byte := λ _, "000"%byte.
Definition zero_rng : func_t := λ _, 0.

(** ** Example configurations *)

Definition zero_bytes (n : nat) : list byte := replicate n "000"%byte.

(** [cache_new(16, 4, 4, CACHE_REPLACEMENTPOLICY_LRU)]: one set of four
    lines of four bytes (see [lru_cache_new]). *)
Definition lru_cache : cache_t :=
  Cache 1 4 4 4 3 0 2 18446744073709551612 2 CACHE_REPLACEMENTPOLICY_LRU
    (zero_bytes 16)
    [Line 0 0 0; Line 0 0 4; Line 0 0 8; Line 0 0 12]
    [CSet 4 0 [0; 1; 2; 3]] 0 0.

(** The same geometry under other policy flags. *)
Definition with_policies (c : cache_t) (p : Z) : cache_t :=
  Cache (num_sets c) (num_lines c) (line_size c) (associativity c)
    (block_offset_mask c) (cache_index_mask c) (cache_index_shift c)
    (tag_mask c) (tag_shift c) p (memory c) (lines c) (sets c)
    (access_count c) (miss_count c).

(** [cache_new(16, 4, 4, CACHE_REPLACEMENTPOLICY_LRU | CACHE_TRACEPOLICY)] *)
Definition lru_trace_cache : cache_t :=
  with_policies lru_cache (CACHE_REPLACEMENTPOLICY_LRU + CACHE_TRACEPOLICY).

(** [cache_new(16, 4, 4, CACHE_REPLACEMENTPOLICY_MRU)] *)
Definition mru_cache : cache_t :=
  with_policies lru_cache CACHE_REPLACEMENTPOLICY_MRU.

(** [cache_new(16, 4, 4, CACHE_REPLACEMENTPOLICY_RANDOM | CACHE_TRACEPOLICY)] *)
Definition random_trace_cache : cache_t :=
  with_policies lru_cache (CACHE_REPLACEMENTPOLICY_RANDOM + CACHE_TRACEPOLICY).

(** [cache_new(64, 4, 2, CACHE_REPLACEMENTPOLICY_MRU)]: eight sets of two
    lines of four bytes. *)
Definition two_way_cache : cache_t :=
  Cache 8 16 4 2 3 28 2 18446744073709551584 5 CACHE_REPLACEMENTPOLICY_MRU
    (zero_bytes 64)
    ((λ i, Line 0 0 (4 * i)) <$> seqZ 0 16)
    ((λ i, CSet 2 (2 * i) [0; 1]) <$> seqZ 0 8) 0 0.

(** [lru_cache] after [cache_read] of address 16. *)
Definition lru_cache_after_16 : cache_t :=
  Cache 1 4 4 4 3 0 2 18446744073709551612 2 CACHE_REPLACEMENTPOLICY_LRU
    (zero_bytes 16)
    [Line 1 4 0; Line 0 0 4; Line 0 0 8; Line 0 0 12]
    [CSet 4 0 [0; 1; 2; 3]] 1 1.

(** ** Vocabulary of the statements *)

(** What the functions working on one set may change: the array [sets],
    and the number of calls made to the random source. *)
Definition only_sets (w w' : world) : Prop :=
  w' = World (set_sets (heap w) (sets (heap w'))) (ram w) (stderr w)
         (rand_calls w').

(** The three updates of the world that [cache_read] makes itself. *)
Definition count_access (w : world) : world :=
  World (set_access_count (heap w) (to_uint (access_count (heap w) + 1)))
    (ram w) (stderr w) (rand_calls w).

Definition count_miss (w : world) : world :=
  World (set_miss_count (heap w) (to_uint (miss_count (heap w) + 1)))
    (ram w) (stderr w) (rand_calls w).

Definition emit (record : string) (w : world) : world :=
  if decide (Z.land (policies (heap w)) CACHE_TRACE_MASK = CACHE_TRACEPOLICY)
  then World (heap w) (ram w) (stderr w ++ [record]) (rand_calls w)
  else w.

(** The lookup that [cache_read] performs for [address] finds a line. *)
Definition lookup_hits (w : world) (address : Z) : Prop :=
  ∃ offset index t line w1,
    decode (heap w) address = Some (offset, index, t) ∧
    cache_set_find_matching_line index t w = Some (Some line, w1).

(** The lookup that [cache_read] performs for [address] finds no line. *)
Definition lookup_misses (w : world) (address : Z) : Prop :=
  ∃ offset index t w1,
    decode (heap w) address = Some (offset, index, t) ∧
    cache_set_find_matching_line index t w = Some (None, w1).

(** The line in slot [i] of a set. *)
Definition slot (c : cache_t) (s : cache_set_t) (i : Z)
    : option cache_line_t :=
  arr_load (lines c) (first_index s + i).

(** The shape in which [cache_new] builds a cache and every operation
    keeps it: the sets tile the line array, the lines tile the arena, each
    recency list is a permutation of the slots of its set, and the index
    bits of an address select an existing set. *)
Record wf_cache (c : cache_t) : Prop := WfCache {
  wf_associativity : 0 < associativity c < 2 ^ 31;
  wf_line_size : 0 ≤ line_size c;
  wf_sets : ∀ (p : nat) s, sets c !! p = Some s →
    size s = associativity c ∧
    first_index s = Z.of_nat p * associativity c ∧
    mru_list s ≡ₚ seqZ 0 (associativity c);
  wf_lines :
    Z.of_nat (length (sets c)) * associativity c
      ≤ Z.of_nat (length (lines c));
  wf_blocks : ∀ (j : nat) l, lines c !! j = Some l →
    block l = Z.of_nat j * line_size c;
  wf_memory :
    Z.of_nat (length (lines c)) * line_size c
      ≤ Z.of_nat (length (memory c));
  wf_index_shift : 0 ≤ cache_index_shift c < 64;
  wf_tag_shift : 0 ≤ tag_shift c < 64;
  wf_index_mask :
    0 ≤ cache_index_mask c ∧
    Z.shiftr (cache_index_mask c) (cache_index_shift c)
      < Z.of_nat (length (sets c)) ∧
    Z.of_nat (length (sets c)) ≤ 2 ^ 32
}.

Definition wf_world (w : world) : Prop := wf_cache (heap w).

(** The word that [cache_read] fetches for [address] lies inside the block
    of its line. *)
Definition word_in_block (c : cache_t) (address : Z) : Prop :=
  to_uint (Z.land address (block_offset_mask c)) + 4 ≤ line_size c.

(** The random source returns what [rand] does: no negative number. *)
Definition nonneg_source (g : func_t) : Prop := ∀ n, 0 ≤ g n < 2 ^ 31.

(** [mru_list := mru] in set [p]. *)
Definition with_mru (w : world) (p : Z) (mru : list Z) : world :=
  World (set_sets (heap w)
           (alter (λ s, CSet (size s) (first_index s) mru) (Z.to_nat p)
              (sets (heap w))))
    (ram w) (stderr w) (rand_calls w).

(** ** The simulator as a function on well-formed caches

    What follows restates the set operations as plain functions; the proofs
    show that the embedded code computes them on a well-formed cache. *)

(** The lines of a set, in slot order. *)
Definition set_slots (c : cache_t) (s : cache_set_t) : list cache_line_t :=
  take (Z.to_nat (size s)) (drop (Z.to_nat (first_index s)) (lines c)).

Fixpoint remove_first (x : Z) (l : list Z) : list Z :=
  match l with
  | [] => []
  | y :: l' => if decide (y = x) then l' else y :: remove_first x l'
  end.

(** Make-most-recent on a recency list. *)
Definition promote (x : Z) (mru : list Z) : list Z := x :: remove_first x mru.

Definition matches (t : Z) (l : cache_line_t) : Prop :=
  cache_line_check_validity_and_tag l t ≠ 0.

Global Instance matches_dec t l : Decision (matches t l).
Proof. unfold matches. apply _. Defined.

Definition unused (l : cache_line_t) : Prop := is_valid l = 0.

Global Instance unused_dec l : Decision (unused l).
Proof. unfold unused. apply _. Defined.

(** The recency update that lookup and selection make under LRU and MRU. *)
Definition touch (w : world) (p : Z) (s : cache_set_t) (j : Z) : world :=
  if is_lru_or_mru (heap w) then with_mru w p (promote j (mru_list s)) else w.

(** One more call of the random source has been made. *)
Definition drawn (w : world) : world :=
  World (heap w) (ram w) (stderr w) (S (rand_calls w)).

(** The slot [find_available_cache_line] selects in set [s], and the world
    it leaves. *)
Definition selected (g : func_t) (w : world) (p : Z) (s : cache_set_t)
    : Z * world :=
  match list_find unused (set_slots (heap w) s) with
  | Some (j, _) => (Z.of_nat j, touch w p s (Z.of_nat j))
  | None =>
    if decide (policies (heap w) = CACHE_REPLACEMENTPOLICY_MRU) then
      let j := default 0 (head (mru_list s)) in
      (j, with_mru w p (promote j (mru_list s)))
    else if decide (policies (heap w) = CACHE_REPLACEMENTPOLICY_LRU) then
      let j := default 0 (last (mru_list s)) in
      (j, with_mru w p (promote j (mru_list s)))
    else (g (rand_calls w) `rem` size s, drawn w)
  end.

(** [memcpy] of [n] bytes from [src] in the backing memory to [dst] in the
    arena. *)
Fixpoint blit (n : nat) (dst : nat) (src : Z) (mem : Z → byte)
    (arena : list byte) : list byte :=
  match n with
  | O => arena
  | S n' => blit n' (S dst) (src + 1) mem (<[dst := mem src]> arena)
  end.

(** The world after [cache_set_add] has filled line [line] with the block
    of [address] under tag [t]. *)
Definition filled (w : world) (line : Z) (t address : Z) : world :=
  let c := heap w in
  match arr_load (lines c) line with
  | Some l =>
    World
      (set_memory
         (set_lines c (<[Z.to_nat line := Line 1 t (block l)]> (lines c)))
         (blit (Z.to_nat (line_size c)) (Z.to_nat (block l))
            (Z.land address (to_u64 (Z.lnot (block_offset_mask c))))
            (ram w) (memory c)))
      (ram w) (stderr w) (rand_calls w)
  | None => w
  end.

(** The world in which [cache_set_add] runs when the lookup has found no
    line. *)
Definition missed (w : world) (index address : Z) : world :=
  emit (trace_record_miss index address) (count_miss (count_access w)).

(** [address] is in the cache and reads as [v]: the set its index selects
    has a first line that is valid and carries its tag, and the word at its
    offset in that line is [v]. *)
Definition cached (w : world) (address v : Z) : Prop :=
  ∃ offset index t s j l,
    decode (heap w) address = Some (offset, index, t) ∧
    arr_load (sets (heap w)) index = Some s ∧
    list_find (matches t) (set_slots (heap w) s) = Some (j, l) ∧
    cache_line_retrieve_data (first_index s + Z.of_nat j) offset w
    = Some (v, w).

(** What [cache_new] fixes for the life of a cache. *)
Definition geometry (c : cache_t) : Z * Z * Z * Z * Z * Z * Z * Z * Z * Z :=
  (num_sets c, num_lines c, line_size c, associativity c,
   block_offset_mask c, cache_index_mask c, cache_index_shift c,
   tag_mask c, tag_shift c, policies c).

(** Set [p] holds the tags [ts] in its first slots, in slot order, its
    other slots are invalid, and its recency list is [mru]. *)
Definition set_holds (w : world) (p : Z) (ts : list Z) (mru : list Z)
    : Prop :=
  ∃ s, arr_load (sets (heap w)) p = Some s ∧ mru_list s = mru ∧
    ∀ (i : nat) l, set_slots (heap w) s !! i = Some l →
      match ts !! i with
      | Some t => is_valid l ≠ 0 ∧ tag l = t
      | None => is_valid l = 0
      end.

(** The recency list of a set of [k] lines whose first [n] slots have been
    filled one after the other: the slot filled last comes first. *)
Definition filled_order (n : nat) (k : Z) : list Z :=
  reverse (seqZ 0 (Z.of_nat n)) ++ seqZ (Z.of_nat n) (k - Z.of_nat n).

(** [address] has tag [t] in set [index], and its word lies inside the
    block. *)
Definition maps_to (c : cache_t) (index address t : Z) : Prop :=
  ∃ offset,
    decode c address = Some (offset, index, t) ∧ word_in_block c address.

(** ** Vocabulary of the further properties *)

(** The fields that split an address are those [cache_new] computes for
    [a] offset bits and [b] index bits. *)
Definition split_at (c : cache_t) (a b : Z) : Prop :=
  0 ≤ a ≤ 31 ∧ 0 ≤ b ≤ 31 ∧ 1 ≤ a + b ∧
  block_offset_mask c = Z.ones a ∧
  cache_index_mask c = Z.shiftl (Z.ones b) a ∧
  cache_index_shift c = a ∧
  tag_mask c = Z.shiftl (Z.ones (64 - (a + b))) (a + b) ∧
  tag_shift c = a + b.

(** The 32-bit word at [address] of the backing memory, little-endian. *)
Definition ram_word (mem : Z → byte) (address : Z) : Z :=
  Z.of_N (Byte.to_N (mem address))
  + 2 ^ 8 * Z.of_N (Byte.to_N (mem (address + 1)))
  + 2 ^ 16 * Z.of_N (Byte.to_N (mem (address + 2)))
  + 2 ^ 24 * Z.of_N (Byte.to_N (mem (address + 3))).

(** Every valid line holds the bytes of the block of backing memory that
    its tag and the number of its set name: with [a] offset bits and [b]
    index bits that block starts at [(tag * 2^b + set) * 2^a]. *)
Definition coherent (w : world) (a b : Z) : Prop :=
  ∀ p s j l i,
    arr_load (sets (heap w)) p = Some s → 0 ≤ j < size s →
    slot (heap w) s j = Some l → is_valid l ≠ 0 →
    0 ≤ i < line_size (heap w) →
    arr_load (memory (heap w)) (block l + i)
    = Some (ram w ((tag l * 2 ^ b + p) * 2 ^ a + i)).

(** No two valid lines of one set carry the same tag. *)
Definition distinct_tags (c : cache_t) : Prop :=
  ∀ p s i j li lj,
    arr_load (sets c) p = Some s → 0 ≤ i < size s → 0 ≤ j < size s →
    slot c s i = Some li → slot c s j = Some lj →
    is_valid li ≠ 0 → is_valid lj ≠ 0 → tag li = tag lj → i = j.

(** [cache_new(16, 4, 1, CACHE_REPLACEMENTPOLICY_LRU)]: a direct-mapped
    cache of four sets of one line of four bytes. *)
Definition direct_mapped_cache : cache_t :=
  Cache 4 4 4 1 3 12 2 18446744073709551600 4 CACHE_REPLACEMENTPOLICY_LRU
    (zero_bytes 16)
    ((λ i, Line 0 0 (4 * i)) <$> seqZ 0 4)
    ((λ i, CSet 1 i [0]) <$> seqZ 0 4) 0 0.

(** Every valid line stands for the block of one of [addresses]: its set
    and its tag are the index and the tag that [c0] gives that address. *)
Definition holds_only (c0 : cache_t) (w : world) (addresses : list Z)
    : Prop :=
  ∀ p s j l,
    arr_load (sets (heap w)) p = Some s → 0 ≤ j < size s →
    slot (heap w) s j = Some l → is_valid l ≠ 0 →
    ∃ a offset, a ∈ addresses ∧ decode c0 a = Some (offset, p, tag l).

(** A generator that returns 6 at every call. *)
Definition six_rng : func_t := λ _, 6.

(** [cache_new(16, 4, 4, CACHE_REPLACEMENTPOLICY_MRU | CACHE_TRACEPOLICY)] *)
Definition mru_trace_cache : cache_t :=
  with_policies lru_cache (CACHE_REPLACEMENTPOLICY_MRU + CACHE_TRACEPOLICY).

(** * Proofs *)

(** ** The monad *)

Lemma bind_Some {A B} (m : M A) (k : A → M B) w b w' :
  (m ≫= k) w = Some (b, w') ↔
  ∃ a w1, m w = Some (a, w1) ∧ k a w1 = Some (b, w').
Proof.
  unfold mbind, M_bind. split.
  - destruct (m w) as [[a w1]|]; [eauto | discriminate].
  - intros (a & w1 & Hm & Hk). by rewrite Hm.
Qed.

Lemma bind_run {A B} (m : M A) (k : A → M B) w a w1 :
  m w = Some (a, w1) → (m ≫= k) w = k a w1.
Proof. unfold mbind, M_bind. by intros ->. Qed.

Lemma lift_Some {A} (o : option A) w a w' :
  lift o w = Some (a, w') ↔ o = Some a ∧ w' = w.
Proof.
  unfold lift. destruct o; split.
  - intros [= -> ->]. done.
  - intros [[= ->] ->]. done.
  - discriminate.
  - intros [[=] _].
Qed.

Lemma lift_run {A} (o : option A) w a : o = Some a → lift o w = Some (a, w).
Proof. by intros ->. Qed.

Lemma world_eta w : World (heap w) (ram w) (stderr w) (rand_calls w) = w.
Proof. by destruct w. Qed.

(** ** C10: [cache_write] *)

(** C10. [cache_write] returns and leaves the whole world as it was: the
    counters, every line (valid bit, tag, block), the arena holding the
    block contents, every recency list and the backing memory, whatever the
    address, the value and the random source. *)
Theorem cache_write_changes_nothing (w : world) (address value : Z)
    (g : func_t) :
  ∃ w', cache_write address value g w = Some (tt, w') ∧
    w' = w ∧
    access_count (heap w') = access_count (heap w) ∧
    miss_count (heap w') = miss_count (heap w) ∧
    lines (heap w') = lines (heap w) ∧
    memory (heap w') = memory (heap w) ∧
    mru_list <$> sets (heap w') = mru_list <$> sets (heap w) ∧
    ram w' = ram w.
Proof. exists w. by repeat split. Qed.

(** ** What each function leaves alone *)

Lemma only_sets_refl w : only_sets w w.
Proof. unfold only_sets. by destruct w as [[] ? ? ?]. Qed.

Lemma only_sets_trans w1 w2 w3 :
  only_sets w1 w2 → only_sets w2 w3 → only_sets w1 w3.
Proof.
  unfold only_sets. intros H12 H23. rewrite H23, H12. done.
Qed.

Ltac inv_bind H :=
  let a := fresh "a" in
  let w1 := fresh "w" in
  let H1 := fresh "H" in
  apply bind_Some in H as (a & w1 & H1 & H).

Ltac inv_lift H :=
  let a := fresh "a" in
  let w1 := fresh "w" in
  let H1 := fresh "H" in
  apply bind_Some in H as (a & w1 & H1 & H);
  apply lift_Some in H1 as [H1 ->].

Lemma get_cache_Some w c w' :
  get_cache w = Some (c, w') ↔ c = heap w ∧ w' = w.
Proof.
  unfold get_cache. split.
  - intros [= -> ->]. done.
  - intros [-> ->]. done.
Qed.

Lemma load_set_Some p w s w' :
  load_set p w = Some (s, w') ↔ arr_load (sets (heap w)) p = Some s ∧ w' = w.
Proof.
  unfold load_set. rewrite bind_Some. split.
  - intros (c & w1 & [-> ->]%get_cache_Some & H%lift_Some). done.
  - intros [H ->]. exists (heap w), w. split; [done|]. by apply lift_Some.
Qed.

Lemma load_line_Some p w l w' :
  load_line p w = Some (l, w') ↔ arr_load (lines (heap w)) p = Some l ∧ w' = w.
Proof.
  unfold load_line. rewrite bind_Some. split.
  - intros (c & w1 & [-> ->]%get_cache_Some & H%lift_Some). done.
  - intros [H ->]. exists (heap w), w. split; [done|]. by apply lift_Some.
Qed.

(** [cache_line_make_mru] replaces the recency list of its set and nothing
    else. *)
Lemma cache_line_make_mru_Some p x w u w' :
  cache_line_make_mru p x w = Some (u, w') ↔
  ∃ s idx mru1 mru2 ss,
    arr_load (sets (heap w)) p = Some s ∧
    mru_search (Z.to_nat (associativity (heap w))) 0 (mru_list s) x
      = Some idx ∧
    mru_shift (Z.to_nat idx) (mru_list s) = Some mru1 ∧
    arr_store mru1 0 (to_int x) = Some mru2 ∧
    arr_store (sets (heap w)) p (CSet (size s) (first_index s) mru2)
      = Some ss ∧
    w' = World (set_sets (heap w) ss) (ram w) (stderr w) (rand_calls w).
Proof.
  unfold cache_line_make_mru. split.
  - intros H. inv_bind H. apply get_cache_Some in H0 as [-> ->].
    inv_bind H. apply lift_Some in H0 as [Hs ->].
    inv_bind H. apply lift_Some in H0 as [Hidx ->].
    inv_bind H. apply lift_Some in H0 as [H1 ->].
    inv_bind H. apply lift_Some in H0 as [H2 ->].
    inv_bind H. apply lift_Some in H0 as [H3 ->].
    unfold put_cache in H. simplify_eq. by eexists _, _, _, _, _.
  - intros (s & idx & mru1 & mru2 & ss & Hs & Hidx & H1 & H2 & H3 & ->).
    destruct u.
    rewrite (bind_run _ _ w (heap w) w) by done.
    rewrite (bind_run _ _ w s w) by by apply lift_run.
    rewrite (bind_run _ _ w idx w) by by apply lift_run.
    rewrite (bind_run _ _ w mru1 w) by by apply lift_run.
    rewrite (bind_run _ _ w mru2 w) by by apply lift_run.
    rewrite (bind_run _ _ w ss w) by by apply lift_run.
    done.
Qed.

Lemma cache_line_make_mru_only_sets p x w u w' :
  cache_line_make_mru p x w = Some (u, w') → only_sets w w'.
Proof.
  intros (s & idx & mru1 & mru2 & ss & _ & _ & _ & _ & _ & ->)
    %cache_line_make_mru_Some.
  done.
Qed.

Lemma find_matching_loop_only_sets n i p t w r w' :
  find_matching_loop n i p t w = Some (r, w') → only_sets w w'.
Proof.
  revert i w. induction n as [|n IH]; intros i w H; simpl in H.
  - injection H as <- <-. apply only_sets_refl.
  - inv_bind H. apply get_cache_Some in H0 as [-> ->].
    inv_bind H. apply load_set_Some in H0 as [Hs ->].
    inv_bind H. apply load_line_Some in H0 as [Hl ->].
    destruct (decide _); [|by eauto].
    inv_bind H. injection H as <- <-.
    destruct (is_lru_or_mru _).
    + by eapply cache_line_make_mru_only_sets.
    + injection H0 as <- <-. apply only_sets_refl.
Qed.

Lemma cache_set_find_matching_line_only_sets p t w r w' :
  cache_set_find_matching_line p t w = Some (r, w') → only_sets w w'.
Proof.
  unfold cache_set_find_matching_line. intros H.
  inv_bind H. apply load_set_Some in H0 as [Hs ->].
  by eapply find_matching_loop_only_sets.
Qed.

Lemma find_unused_loop_only_sets n i p w r w' :
  find_unused_loop n i p w = Some (r, w') → only_sets w w'.
Proof.
  revert i w. induction n as [|n IH]; intros i w H; simpl in H.
  - injection H as <- <-. apply only_sets_refl.
  - inv_bind H. apply get_cache_Some in H0 as [-> ->].
    inv_bind H. apply load_set_Some in H0 as [Hs ->].
    inv_bind H. apply load_line_Some in H0 as [Hl ->].
    destruct (decide _); [|by eauto].
    inv_bind H. injection H as <- <-.
    destruct (_ || _).
    + by eapply cache_line_make_mru_only_sets.
    + injection H0 as <- <-. apply only_sets_refl.
Qed.

Lemma call_only_sets g w r w' : call g w = Some (r, w') → only_sets w w'.
Proof. unfold call. intros [= <- <-]. unfold only_sets. simpl. by destruct w as [[] ? ? ?]. Qed.

Lemma find_available_cache_line_only_sets p g w r w' :
  find_available_cache_line p g w = Some (r, w') → only_sets w w'.
Proof.
  unfold find_available_cache_line. intros H.
  inv_bind H. apply load_set_Some in H0 as [Hs ->].
  inv_bind H. apply find_unused_loop_only_sets in H0.
  eapply only_sets_trans; [done|]. clear H0.
  destruct a0 as [line|].
  { injection H as <- <-. apply only_sets_refl. }
  inv_bind H. apply get_cache_Some in H0 as [-> ->].
  destruct (decide _).
  - inv_bind H. apply load_set_Some in H0 as [Hs1 ->].
    inv_bind H. apply lift_Some in H0 as [Hm0 ->].
    inv_bind H. apply cache_line_make_mru_only_sets in H0.
    inv_bind H. apply load_set_Some in H1 as [Hs2 ->].
    inv_bind H. apply lift_Some in H1 as [Hm1 ->].
    by injection H as <- <-.
  - destruct (decide _).
    + inv_bind H. apply load_set_Some in H0 as [Hs1 ->].
      inv_bind H. apply lift_Some in H0 as [Hm0 ->].
      inv_bind H. apply cache_line_make_mru_only_sets in H0.
      inv_bind H. apply load_set_Some in H1 as [Hs2 ->].
      by injection H as <- <-.
    + inv_bind H. apply call_only_sets in H0.
      inv_bind H. apply load_set_Some in H1 as [Hs2 ->].
      inv_bind H. apply lift_Some in H1 as [Hm1 ->].
      by injection H as <- <-.
Qed.

Lemma cache_line_retrieve_data_Some line off w v w' :
  cache_line_retrieve_data line off w = Some (v, w') → w' = w.
Proof.
  unfold cache_line_retrieve_data. intros H.
  inv_bind H. apply get_cache_Some in H0 as [-> ->].
  do 5 inv_lift H.
  by injection H as <- <-.
Qed.

Lemma put_cache_run c w :
  put_cache c w = Some (tt, World c (ram w) (stderr w) (rand_calls w)).
Proof. done. Qed.

Lemma trace_run record w : trace record w = Some (tt, emit record w).
Proof.
  unfold trace, emit. rewrite (bind_run _ _ w (heap w) w) by done.
  destruct (decide _); [done|]. done.
Qed.

(** [cache_read], one step at a time. *)
Lemma cache_read_unfold address g w :
  cache_read address g w =
  match decode (heap w) address with
  | None => None
  | Some (offset, index, t) =>
    match cache_set_find_matching_line index t w with
    | None => None
    | Some (None, w1) =>
      (line ← cache_set_add index address t g;
       cache_line_retrieve_data line offset)
        (emit (trace_record_miss index address) (count_miss (count_access w1)))
    | Some (Some line, w1) =>
      cache_line_retrieve_data line offset
        (emit (trace_record_hit index address) (count_access w1))
    end
  end.
Proof.
  unfold cache_read.
  rewrite (bind_run _ _ w (heap w) w) by done.
  destruct (decode (heap w) address) as [[[offset index] t]|] eqn:Hd; simpl.
  2:{ unfold mbind, M_bind. simpl. done. }
  rewrite (bind_run _ _ w (offset, index, t) w) by done.
  destruct (cache_set_find_matching_line index t w) as [[r w1]|] eqn:Hf.
  2:{ unfold mbind, M_bind. by rewrite Hf. }
  rewrite (bind_run _ _ w r w1) by done.
  rewrite (bind_run _ _ w1 (heap w1) w1) by done.
  rewrite (bind_run _ _ w1 tt (count_access w1)) by done.
  destruct r as [line|].
  - rewrite (bind_run _ _ _ tt _ (trace_run _ _)). done.
  - rewrite (bind_run _ _ (count_access w1) (heap (count_access w1))
               (count_access w1)) by done.
    rewrite (bind_run _ _ (count_access w1) tt (count_miss (count_access w1)))
      by done.
    rewrite (bind_run _ _ _ tt _ (trace_run _ _)). done.
Qed.

Lemma lru_cache_new :
  cache_new 16 4 4 CACHE_REPLACEMENTPOLICY_LRU = Some lru_cache.
Proof. vm_compute. reflexivity. Qed.

Lemma cache_set_add_Some p address t g w line w' :
  cache_set_add p address t g w = Some (line, w') →
  ∃ w1 l ls arena,
    find_available_cache_line p g w = Some (line, w1) ∧
    arr_load (lines (heap w1)) line = Some l ∧
    arr_store (lines (heap w1)) line (Line 1 t (block l)) = Some ls ∧
    memcpy (Z.to_nat (line_size (heap w1))) (block l)
      (Z.land address (to_u64 (Z.lnot (block_offset_mask (heap w1)))))
      (ram w1) (memory (heap w1)) = Some arena ∧
    w' = World (set_memory (set_lines (heap w1) ls) arena) (ram w1)
           (stderr w1) (rand_calls w1).
Proof.
  unfold cache_set_add. intros H.
  inv_bind H. inv_bind H. apply get_cache_Some in H1 as [-> ->].
  do 2 inv_lift H. inv_bind H. injection H3 as <- <-.
  inv_lift H. inv_bind H. injection H4 as <- <-. injection H as <- <-.
  by eexists _, _, _, _.
Qed.

Lemma only_sets_counters w w' :
  only_sets w w' →
  access_count (heap w') = access_count (heap w) ∧
  miss_count (heap w') = miss_count (heap w).
Proof. intros ->. done. Qed.

Lemma cache_set_add_counters p address t g w line w' :
  cache_set_add p address t g w = Some (line, w') →
  access_count (heap w') = access_count (heap w) ∧
  miss_count (heap w') = miss_count (heap w).
Proof.
  intros (w1 & l & ls & arena & Hf & _ & _ & _ & ->)%cache_set_add_Some.
  apply find_available_cache_line_only_sets, only_sets_counters in Hf.
  done.
Qed.

Lemma emit_heap record w : heap (emit record w) = heap w.
Proof. unfold emit. by destruct (decide _). Qed.

(** ** C1: the counters *)

(** C1, as amended to what [cache_write] does.  A [cache_read] that returns
    has added 1 to [access_count]; it has added 1 to [miss_count] when its
    lookup found no line and left [miss_count] alone when its lookup found
    one.  Both counters are [unsigned int]: the sum is taken modulo 2^32.
    [cache_write] returns and changes neither counter. *)
Theorem counters_after_read_and_write (w : world) (address value : Z)
    (g : func_t) (v : Z) (w' : world) :
  cache_read address g w = Some (v, w') →
  access_count (heap w') = to_uint (access_count (heap w) + 1) ∧
  (lookup_misses w address →
   miss_count (heap w') = to_uint (miss_count (heap w) + 1)) ∧
  (lookup_hits w address → miss_count (heap w') = miss_count (heap w)) ∧
  (lookup_misses w address ∨ lookup_hits w address) ∧
  ∃ ww, cache_write address value g w = Some (tt, ww) ∧
    access_count (heap ww) = access_count (heap w) ∧
    miss_count (heap ww) = miss_count (heap w).
Proof.
  rewrite cache_read_unfold. intros H.
  destruct (decode (heap w) address) as [[[offset index] t]|] eqn:Hd;
    [|done].
  destruct (cache_set_find_matching_line index t w) as [[r w1]|] eqn:Hf;
    [|done].
  pose proof (only_sets_counters _ _
                (cache_set_find_matching_line_only_sets _ _ _ _ _ Hf))
    as [Ha Hm].
  assert (access_count (heap w') = to_uint (access_count (heap w) + 1) ∧
          miss_count (heap w') =
            match r with
            | None => to_uint (miss_count (heap w) + 1)
            | Some _ => miss_count (heap w)
            end) as [Ha' Hm'].
  { destruct r as [line|].
    - apply cache_line_retrieve_data_Some in H as ->.
      rewrite emit_heap. simpl. by rewrite Ha, Hm.
    - inv_bind H. apply cache_line_retrieve_data_Some in H as ->.
      apply cache_set_add_counters in H0 as [-> ->].
      rewrite emit_heap. simpl. by rewrite Ha, Hm. }
  split; [done|]. split; [|split; [|split]].
  - intros (o & i & t' & w2 & Hd' & Hf'). simplify_eq. done.
  - intros (o & i & t' & line & w2 & Hd' & Hf'). simplify_eq. done.
  - destruct r as [line|]; [right|left].
    + by eexists _, _, _, _, _.
    + by eexists _, _, _, _.
  - exists w. done.
Qed.

(** Below the largest [unsigned int] the sum does not wrap. *)
Lemma to_uint_succ (n : Z) : 0 ≤ n < 2 ^ 32 - 1 → to_uint (n + 1) = n + 1.
Proof. intros ?. unfold to_uint. apply Z.mod_small. lia. Qed.

Lemma counters_after_read_and_write_witness :
  cache_read 16 zero_rng (boot lru_cache zero_ram)
    = Some (0, boot lru_cache_after_16 zero_ram) ∧
  access_count (heap (boot lru_cache_after_16 zero_ram))
    = to_uint (access_count (heap (boot lru_cache zero_ram)) + 1).
Proof.
  split; [vm_compute; reflexivity|].
  apply (counters_after_read_and_write (boot lru_cache zero_ram) 16 0
           zero_rng 0).
  vm_compute. reflexivity.
Defined.

(** C1 as it was stated fails: a call of [cache_write] does not add 1 to
    [access_count]. *)
Lemma cache_write_does_not_count :
  cache_write 16 7 zero_rng (boot lru_cache zero_ram)
    = Some (tt, boot lru_cache zero_ram) ∧
  access_count (heap (boot lru_cache zero_ram))
    ≠ access_count (heap (boot lru_cache zero_ram)) + 1.
Proof. split; [reflexivity | vm_compute; discriminate]. Qed.

Lemma lru_trace_cache_new :
  cache_new 16 4 4 (CACHE_REPLACEMENTPOLICY_LRU + CACHE_TRACEPOLICY)
    = Some lru_trace_cache.
Proof. vm_compute. reflexivity. Qed.

Lemma mru_cache_new :
  cache_new 16 4 4 CACHE_REPLACEMENTPOLICY_MRU = Some mru_cache.
Proof. vm_compute. reflexivity. Qed.

Lemma random_trace_cache_new :
  cache_new 16 4 4 (CACHE_REPLACEMENTPOLICY_RANDOM + CACHE_TRACEPOLICY)
    = Some random_trace_cache.
Proof. vm_compute. reflexivity. Qed.

(** ** C2: the replacement policy is compared with the whole flag word *)

(** C2 fails on the code.  The cache is created with the flags
    [CACHE_REPLACEMENTPOLICY_LRU | CACHE_TRACEPOLICY], whose replacement
    bits are those of LRU.  After the reads of 0x00 and 0x10 the read of
    0x10 hits line 1, and the recency list of the set is still 0,1,2,3: line
    1 has not been moved to the head.  With the flags
    [CACHE_REPLACEMENTPOLICY_LRU] alone the same reads end with 1,0,2,3. *)
Theorem lru_with_trace_bit_hit_keeps_recency_order :
  Z.land (policies lru_trace_cache) CACHE_REPLACEMENTPOLICY_MASK
    = CACHE_REPLACEMENTPOLICY_LRU ∧
  ∃ vs w1 v w2 w3,
    read_all [0; 16] zero_rng (boot lru_trace_cache zero_ram) = Some (vs, w1) ∧
    decode (heap w1) 16 = Some (0, 0, 4) ∧
    cache_set_find_matching_line 0 4 w1 = Some (Some 1, w2) ∧
    cache_read 16 zero_rng w1 = Some (v, w3) ∧
    miss_count (heap w3) = miss_count (heap w1) ∧
    mru_list <$> sets (heap w1) = [[0; 1; 2; 3]] ∧
    mru_list <$> sets (heap w3) = [[0; 1; 2; 3]] ∧
    ∃ vs' w', 
      read_all [0; 16; 16] zero_rng (boot lru_cache zero_ram) = Some (vs', w') ∧
      mru_list <$> sets (heap w') = [[1; 0; 2; 3]].
Proof.
  split; [reflexivity|].
  eexists _, _, _, _, _.
  split; [vm_compute; reflexivity|].
  split; [vm_compute; reflexivity|].
  split; [vm_compute; reflexivity|].
  split; [vm_compute; reflexivity|].
  split; [vm_compute; reflexivity|].
  split; [vm_compute; reflexivity|].
  split; [vm_compute; reflexivity|].
  eexists _, _.
  split; [vm_compute; reflexivity|].
  vm_compute; reflexivity.
Qed.

(** ** C3: the trace records *)

(** C3 fails on the code.  With tracing enabled, the first read of 0x10
    finds no line, counts one miss, and the one record it prints reads
    "Cache hit in set   0 for address 0x10": the record of a miss says
    "hit".  The read of 0x10 that follows finds the line and prints
    "Cache  hit in set   0 for address 0x10", which differs from the record
    of the miss by one space only. *)
Theorem miss_trace_record_says_hit :
  ∃ w0 v w1 line w2 v' w3,
    cache_set_find_matching_line 0 4 (boot random_trace_cache zero_ram)
      = Some (None, w0) ∧
    cache_read 16 zero_rng (boot random_trace_cache zero_ram)
      = Some (v, w1) ∧
    miss_count (heap w1) = 1 ∧
    stderr w1 = ["Cache hit in set   0 for address 0x10" +:+ newline] ∧
    cache_set_find_matching_line 0 4 w1 = Some (Some line, w2) ∧
    cache_read 16 zero_rng w1 = Some (v', w3) ∧
    miss_count (heap w3) = 1 ∧
    stderr w3 = ["Cache hit in set   0 for address 0x10" +:+ newline;
                 "Cache  hit in set   0 for address 0x10" +:+ newline].
Proof.
  eexists _, _, _, _, _, _, _.
  split; [vm_compute; reflexivity|].
  split; [vm_compute; reflexivity|].
  split; [vm_compute; reflexivity|].
  split; [vm_compute; reflexivity|].
  split; [vm_compute; reflexivity|].
  split; [vm_compute; reflexivity|].
  split; [vm_compute; reflexivity|].
  vm_compute; reflexivity.
Qed.

(** ** What a read prints *)

Lemma only_sets_stderr w w' :
  only_sets w w' →
  stderr w' = stderr w ∧ policies (heap w') = policies (heap w).
Proof. by intros ->. Qed.

Lemma emit_stderr record w :
  stderr (emit record w) =
  if decide (Z.land (policies (heap w)) CACHE_TRACE_MASK = CACHE_TRACEPOLICY)
  then stderr w ++ [record] else stderr w.
Proof. unfold emit. by destruct (decide _). Qed.

(** A read prints nothing when tracing is off and one record when it is
    on: [trace_record_miss] of the set index and the address when the
    lookup found no line, [trace_record_hit] of them when it found one. *)
Lemma cache_read_trace w address g v w' :
  cache_read address g w = Some (v, w') →
  ∃ offset index t,
    decode (heap w) address = Some (offset, index, t) ∧
    (lookup_misses w address →
     stderr w' =
       if decide (Z.land (policies (heap w)) CACHE_TRACE_MASK
                  = CACHE_TRACEPOLICY)
       then stderr w ++ [trace_record_miss index address] else stderr w) ∧
    (lookup_hits w address →
     stderr w' =
       if decide (Z.land (policies (heap w)) CACHE_TRACE_MASK
                  = CACHE_TRACEPOLICY)
       then stderr w ++ [trace_record_hit index address] else stderr w).
Proof.
  rewrite cache_read_unfold. intros H.
  destruct (decode (heap w) address) as [[[offset index] t]|] eqn:Hd;
    [|done].
  destruct (cache_set_find_matching_line index t w) as [[r w1]|] eqn:Hf;
    [|done].
  destruct (only_sets_stderr _ _
              (cache_set_find_matching_line_only_sets _ _ _ _ _ Hf))
    as [Herr Hpol].
  exists offset, index, t. split; [done|].
  destruct r as [line|].
  - apply cache_line_retrieve_data_Some in H as ->. split.
    + intros (o & i & t' & w2 & Hd' & Hf'). simplify_eq.
    + intros _. rewrite emit_stderr. simpl. by rewrite Herr, Hpol.
  - inv_bind H. apply cache_line_retrieve_data_Some in H as ->.
    apply cache_set_add_Some in H0
      as (w2 & l & ls & arena & Hav & _ & _ & _ & ->).
    destruct (only_sets_stderr _ _
                (find_available_cache_line_only_sets _ _ _ _ _ Hav))
      as [Herr2 _].
    split.
    + intros _. simpl. rewrite Herr2, emit_stderr. simpl.
      by rewrite Herr, Hpol.
    + intros (o & i & t' & line & w3 & Hd' & Hf'). simplify_eq.
Qed.

(** Both records are built alike, and both say "hit": the record of a miss
    is the record of a hit less one space. *)
Lemma trace_records_alike index address :
  ∃ rest,
    trace_record_miss index address = "Cache hit" +:+ rest ∧
    trace_record_hit index address = "Cache  hit" +:+ rest.
Proof. eexists. split; reflexivity. Qed.

(** ** C4: the decomposition of an address *)

Lemma to_uint_small z : 0 ≤ z < 2 ^ 32 → to_uint z = z.
Proof. intros ?. by apply Z.mod_small. Qed.

Lemma to_int_small z : - 2 ^ 31 ≤ z < 2 ^ 31 → to_int z = z.
Proof. intros ?. unfold to_int. rewrite Z.mod_small; lia. Qed.

Lemma to_u64_small z : 0 ≤ z < 2 ^ 64 → to_u64 z = z.
Proof. intros ?. by apply Z.mod_small. Qed.

Lemma to_int_range z : - 2 ^ 31 ≤ to_int z < 2 ^ 31.
Proof. unfold to_int. pose proof (Z.mod_pos_bound (z + 2 ^ 31) (2 ^ 32)). lia. Qed.

Lemma logbase2_loop_range fuel value ans :
  ans ≤ logbase2_loop fuel value ans ≤ ans + Z.of_nat fuel.
Proof.
  revert value ans. induction fuel as [|fuel IH]; intros value ans; simpl.
  - lia.
  - destruct (decide _); [|lia].
    specialize (IH (Z.shiftr value 1) (ans + 1)). lia.
Qed.

(** The loop of [logbase2] has left before its rounds run out: more rounds
    change nothing for a value below [2 ^ fuel]. *)
Lemma logbase2_loop_exits fuel more value ans :
  value < 2 ^ Z.of_nat fuel →
  logbase2_loop (fuel + more) value ans = logbase2_loop fuel value ans.
Proof.
  revert value ans. induction fuel as [|fuel IH]; intros value ans Hv.
  - simpl in Hv. destruct more; simpl; [done|].
    destruct (decide _); [lia|done].
  - simpl. destruct (decide _); [|done].
    apply IH. rewrite Z.shiftr_div_pow2 by lia.
    apply Z.div_lt_upper_bound; [lia|].
    rewrite Nat2Z.inj_succ, Z.pow_succ_r in Hv by lia. lia.
Qed.

Lemma logbase2_range value : 0 ≤ logbase2 value ≤ 31.
Proof. pose proof (logbase2_loop_range 31 value 0). unfold logbase2. lia. Qed.

Lemma maskbits_ones nbits :
  0 ≤ nbits < 64 → maskbits nbits = Some (Z.ones nbits).
Proof.
  intros Hn. unfold maskbits. rewrite decide_True by done. f_equal.
  rewrite Z.shiftl_1_l, Z.ones_equiv.
  assert (0 < 2 ^ nbits) by (apply Z.pow_pos_nonneg; lia).
  assert (2 ^ nbits ≤ 2 ^ 63) by (apply Z.pow_le_mono_r; lia).
  destruct (decide (nbits = 63)) as [->|].
  - vm_compute. reflexivity.
  - assert (2 ^ nbits < 2 ^ 63) by (apply Z.pow_lt_mono_r; lia).
    unfold to_long, to_u64.
    rewrite (Z.mod_small (2 ^ nbits + 2 ^ 63)) by lia.
    rewrite (Z.mod_small (2 ^ nbits + 2 ^ 63 - 2 ^ 63 - 1 + 2 ^ 63)) by lia.
    rewrite Z.mod_small by lia. lia.
Qed.

Lemma maskbits_Some nbits m :
  maskbits nbits = Some m → 0 ≤ nbits < 64 ∧ m = Z.ones nbits.
Proof.
  intros H. unfold maskbits in H. destruct (decide (0 ≤ nbits < 64)) as [Hn|];
    [|done].
  split; [done|]. pose proof (maskbits_ones nbits Hn) as H'.
  unfold maskbits in H'. rewrite decide_True in H' by done. congruence.
Qed.

Lemma shiftl_ones_range a b :
  0 ≤ a → 0 ≤ b → 0 ≤ Z.shiftl (Z.ones b) a < 2 ^ (a + b).
Proof.
  intros Ha Hb. rewrite Z.shiftl_mul_pow2, Z.ones_equiv, Z.pow_add_r by lia.
  assert (0 < 2 ^ a) by (apply Z.pow_pos_nonneg; lia).
  assert (0 < 2 ^ b) by (apply Z.pow_pos_nonneg; lia). nia.
Qed.

(** The masks and shifts that [cache_new] stores. *)
Lemma maskbits_None nbits : ¬ (0 ≤ nbits < 64) → maskbits nbits = None.
Proof. intros ?. unfold maskbits. by rewrite decide_False. Qed.

Lemma cache_new_masks num_bytes block_size assoc pol c :
  cache_new num_bytes block_size assoc pol = Some c →
  ∃ a b, 0 ≤ a ≤ 31 ∧ 0 ≤ b ≤ 31 ∧ 1 ≤ a + b ∧
    a = logbase2 (to_int block_size) ∧
    b = logbase2 (to_int (num_sets c)) ∧
    block_offset_mask c = Z.ones a ∧
    cache_index_mask c = Z.shiftl (Z.ones b) a ∧
    cache_index_shift c = a ∧
    tag_mask c = Z.shiftl (Z.ones (64 - (a + b))) (a + b) ∧
    tag_shift c = a + b.
Proof.
  unfold cache_new. intros H.
  destruct (decide (block_size = 0)); [done|].
  destruct (decide (assoc = 0)); [done|].
  remember (to_uint (to_uint (num_bytes `div` block_size) `div` assoc))
    as ns eqn:Ens.
  pose proof (logbase2_range (to_int block_size)) as Ha.
  pose proof (logbase2_range (to_int ns)) as Hb.
  remember (logbase2 (to_int block_size)) as a eqn:Ea.
  remember (logbase2 (to_int ns)) as b eqn:Eb.
  rewrite (to_uint_small a), (to_uint_small b) in H by lia.
  rewrite (to_int_small a), (to_int_small b) in H by lia.
  rewrite (to_uint_small (a + b)) in H by lia.
  rewrite (to_uint_small (64 - (a + b))), (to_int_small (64 - (a + b)))
    in H by lia.
  rewrite (maskbits_ones a), (maskbits_ones b) in H by lia.
  destruct (decide (1 ≤ a + b)) as [Hab|Hab].
  - rewrite (maskbits_ones (64 - (a + b))) in H by lia.
    destruct (init_sets _ _ _ _) as [[ss ls]|]; [|done].
    injection H as <-.
    exists a, b.
    cbn [block_offset_mask cache_index_mask cache_index_shift tag_mask
           tag_shift num_sets].
    pose proof (shiftl_ones_range a b) as Hr1.
    assert (2 ^ (a + b) ≤ 2 ^ 64) by (apply Z.pow_le_mono_r; lia).
    pose proof (shiftl_ones_range (a + b) (64 - (a + b))) as Hr2.
    replace (a + b + (64 - (a + b))) with 64 in Hr2 by lia.
    rewrite !to_u64_small by lia. repeat split; try lia; done.
  - rewrite (maskbits_None (64 - (a + b))) in H by lia. done.
Qed.

Lemma decode_bits addr a b :
  0 ≤ a → 0 ≤ b → a + b < 64 → 0 ≤ addr < 2 ^ 64 →
  Z.lor
    (Z.lor
       (Z.shiftl
          (Z.shiftr (Z.land addr (Z.shiftl (Z.ones (64 - (a + b))) (a + b)))
             (a + b)) (a + b))
       (Z.shiftl (Z.shiftr (Z.land addr (Z.shiftl (Z.ones b) a)) a) a))
    (Z.land addr (Z.ones a)) = addr.
Proof.
  intros Ha Hb Hab Haddr. apply Z.bits_inj'. intros n Hn.
  rewrite !Z.lor_spec, !Z.shiftl_spec, Z.land_spec by lia.
  rewrite (Z.testbit_ones_nonneg a n) by lia.
  assert (n < 64 ∨ 64 ≤ n) as [Hlt|Hge] by lia.
  - destruct (Z.ltb_spec n a).
    { rewrite (Z.testbit_neg_r _ (n - a)), (Z.testbit_neg_r _ (n - (a + b)))
        by lia. by rewrite andb_true_r. }
    rewrite andb_false_r, orb_false_r.
    rewrite (Z.shiftr_spec _ a) by lia.
    rewrite Z.land_spec, Z.shiftl_spec by lia.
    replace (n - a + a) with n by lia.
    rewrite (Z.testbit_ones_nonneg b) by lia.
    destruct (Z.ltb_spec (n - a) b).
    { rewrite (Z.testbit_neg_r _ (n - (a + b))) by lia.
      by rewrite andb_true_r. }
    rewrite andb_false_r, orb_false_r.
    rewrite Z.shiftr_spec by lia.
    rewrite Z.land_spec, Z.shiftl_spec by lia.
    replace (n - (a + b) + (a + b)) with n by lia.
    rewrite Z.testbit_ones_nonneg by lia.
    destruct (Z.ltb_spec (n - (a + b)) (64 - (a + b))); [|lia].
    by rewrite andb_true_r.
  - assert (Z.testbit addr n = false) as Hz.
    { destruct (decide (addr = 0)) as [->|]; [apply Z.bits_0|].
      apply Z.bits_above_log2; [lia|].
      assert (Z.log2 addr < 64); [|lia]. apply Z.log2_lt_pow2; lia. }
    rewrite Hz, andb_false_l, orb_false_r.
    rewrite (Z.shiftr_spec _ a), Z.shiftr_spec by lia.
    rewrite !Z.land_spec.
    replace (n - a + a) with n by lia.
    replace (n - (a + b) + (a + b)) with n by lia.
    by rewrite Hz.
Qed.

Lemma index_bits_range addr a b :
  0 ≤ a → 0 ≤ b →
  0 ≤ Z.shiftr (Z.land addr (Z.shiftl (Z.ones b) a)) a < 2 ^ b.
Proof.
  intros Ha Hb.
  assert (Z.shiftr (Z.land addr (Z.shiftl (Z.ones b) a)) a
          = Z.land (Z.shiftr addr a) (Z.ones b)) as ->.
  { rewrite Z.shiftr_land. f_equal. rewrite Z.shiftr_shiftl_l by lia.
    by rewrite Z.sub_diag, Z.shiftl_0_r. }
  rewrite Z.land_ones by lia. apply Z.mod_pos_bound.
  apply Z.pow_pos_nonneg; lia.
Qed.

(** For every cache that [cache_new] returns, whatever the sizes it was
    given, and every 64-bit address, the offset, index and tag that
    [cache_read] computes are defined and put the address together again:
    [(tag << tag_shift) | (index << cache_index_shift) | offset] is the
    address. *)
Theorem decode_is_lossless (num_bytes block_size assoc pol : Z) (c : cache_t)
    (address : Z) :
  cache_new num_bytes block_size assoc pol = Some c →
  0 ≤ address < 2 ^ 64 →
  ∃ offset index t,
    decode c address = Some (offset, index, t) ∧
    offset = to_uint (Z.land address (block_offset_mask c)) ∧
    Z.lor (Z.lor (Z.shiftl t (tag_shift c))
                 (Z.shiftl index (cache_index_shift c))) offset = address.
Proof.
  intros (a & b & Ha & Hb & Hab & _ & _ & Hom & Him & His & Htm & Hts)
    %cache_new_masks Haddr.
  unfold decode, c_shr. rewrite Hom, Him, His, Htm, Hts.
  rewrite !decide_True by lia. simpl.
  eexists _, _, _. split; [done|]. split; [done|].
  pose proof (index_bits_range address a b) as Hidx.
  assert (2 ^ b ≤ 2 ^ 31) by (apply Z.pow_le_mono_r; lia).
  rewrite (to_uint_small (Z.shiftr _ a)) by lia.
  rewrite to_uint_small.
  - apply decode_bits; lia.
  - rewrite Z.land_ones by lia.
    assert (2 ^ a ≤ 2 ^ 31) by (apply Z.pow_le_mono_r; lia).
    pose proof (Z.mod_pos_bound address (2 ^ a)). 
    assert (0 < 2 ^ a) by (apply Z.pow_pos_nonneg; lia). lia.
Qed.

Lemma two_way_cache_new :
  cache_new 64 4 2 CACHE_REPLACEMENTPOLICY_MRU = Some two_way_cache.
Proof. vm_compute. reflexivity. Qed.

Lemma decode_is_lossless_witness :
  cache_new 64 4 2 CACHE_REPLACEMENTPOLICY_MRU = Some two_way_cache ∧
  0 ≤ 4660 < 2 ^ 64 ∧
  ∃ offset index t,
    decode two_way_cache 4660 = Some (offset, index, t) ∧
    offset = to_uint (Z.land 4660 (block_offset_mask two_way_cache)) ∧
    Z.lor (Z.lor (Z.shiftl t (tag_shift two_way_cache))
                 (Z.shiftl index (cache_index_shift two_way_cache))) offset
      = 4660.
Proof.
  split; [vm_compute; reflexivity|]. split; [lia|].
  apply (decode_is_lossless 64 4 2 CACHE_REPLACEMENTPOLICY_MRU).
  - vm_compute. reflexivity.
  - lia.
Defined.

(** C4.  [cache_new(16, 1, 16, ...)] asks for one set of sixteen one-byte
    blocks, a geometry of powers of two.  There are no offset bits and no
    index bits, the offset mask and the index mask are 0 and [tag_shift] is
    0, so that the tag mask is computed as [maskbits(64)]: a shift of a
    [long] by its width, which C leaves undefined, and no cache is defined.
    Whatever the shift leaves as the tag mask, every address then decodes
    to offset 0, index 0 and tag [address & tag_mask]; where the count of a
    shift is taken modulo 64 (as on x86-64) the tag mask is 0, address 5
    decodes to (0, 0, 0) and is put together again as 0, not 5. *)
Theorem one_byte_blocks_in_one_set_lose_the_address :
  logbase2 (to_int 1) = 0 ∧
  logbase2 (to_int (to_uint (to_uint (16 `div` 1) `div` 16))) = 0 ∧
  maskbits 0 = Some 0 ∧
  maskbits (to_int (to_uint (64 - to_uint (0 + 0)))) = None ∧
  cache_new 16 1 16 CACHE_REPLACEMENTPOLICY_LRU = None ∧
  (∀ tag_bits ls ss address,
     decode (Cache 1 16 1 16 0 0 0 tag_bits 0 CACHE_REPLACEMENTPOLICY_LRU
               (zero_bytes 16) ls ss 0 0) address
     = Some (0, 0, Z.land address tag_bits)) ∧
  ∀ ls ss,
    let c := Cache 1 16 1 16 0 0 0 0 0 CACHE_REPLACEMENTPOLICY_LRU
               (zero_bytes 16) ls ss 0 0 in
    decode c 5 = Some (0, 0, 0) ∧
    Z.lor (Z.lor (Z.shiftl 0 (tag_shift c)) (Z.shiftl 0 (cache_index_shift c)))
      0 ≠ 5.
Proof.
  split; [vm_compute; reflexivity|]. split; [vm_compute; reflexivity|].
  split; [vm_compute; reflexivity|]. split; [vm_compute; reflexivity|].
  split; [vm_compute; reflexivity|]. split.
  - intros tag_bits ls ss address. unfold decode, c_shr.
    cbn [block_offset_mask cache_index_mask cache_index_shift tag_mask
         tag_shift].
    rewrite Z.land_0_r. rewrite !decide_True by lia. simpl.
    by rewrite Z.shiftr_0_r.
  - intros ls ss. split; [reflexivity|]. simpl. discriminate.
Qed.

(** ** Arrays *)

Lemma arr_load_Some {A} (l : list A) i x :
  arr_load l i = Some x ↔ 0 ≤ i ∧ l !! Z.to_nat i = Some x.
Proof.
  unfold arr_load. destruct (decide (0 ≤ i)).
  - split; [done|]. by intros [_ ?].
  - split; [done|]. intros [? _]. lia.
Qed.

Lemma arr_load_nat {A} (l : list A) (n : nat) :
  arr_load l (Z.of_nat n) = l !! n.
Proof.
  unfold arr_load. rewrite decide_True by lia. by rewrite Nat2Z.id.
Qed.

Lemma arr_load_lt {A} (l : list A) i :
  0 ≤ i < Z.of_nat (length l) → ∃ x, arr_load l i = Some x.
Proof.
  intros Hi.
  assert (is_Some (l !! Z.to_nat i)) as [x Hx]
    by (apply lookup_lt_is_Some_2; lia).
  exists x. apply arr_load_Some. split; [lia|done].
Qed.

Lemma arr_load_range {A} (l : list A) i x :
  arr_load l i = Some x → 0 ≤ i < Z.of_nat (length l).
Proof.
  intros [? Hx]%arr_load_Some. apply lookup_lt_Some in Hx. lia.
Qed.

Lemma arr_store_Some {A} (l : list A) i x l' :
  arr_store l i x = Some l' ↔
  0 ≤ i < Z.of_nat (length l) ∧ l' = <[Z.to_nat i := x]> l.
Proof.
  unfold arr_store. destruct (decide _) as [Hi|Hi].
  - split; [by intros [= <-]|]. by intros [_ ->].
  - split; [done|]. by intros [? _].
Qed.

Lemma arr_store_run {A} (l : list A) i x :
  0 ≤ i < Z.of_nat (length l) → arr_store l i x = Some (<[Z.to_nat i := x]> l).
Proof. intros ?. by apply arr_store_Some. Qed.

(** ** The recency list *)

Lemma mru_search_found n (before pre post : list Z) x line_index :
  to_u64 x = line_index →
  (∀ v, v ∈ pre → to_u64 v ≠ line_index) →
  (length pre < n)%nat →
  mru_search n (Z.of_nat (length before)) (before ++ pre ++ x :: post)
    line_index
  = Some (Z.of_nat (length before + length pre)).
Proof.
  intros Hx. revert n before.
  induction pre as [|v pre IH]; intros n before Hpre Hn.
  - destruct n as [|n]; [simpl in Hn; lia|]. simpl.
    rewrite arr_load_nat, lookup_app_r, Nat.sub_diag by lia. simpl.
    rewrite decide_True by done. f_equal. lia.
  - destruct n as [|n]; [simpl in Hn; lia|]. simpl.
    rewrite arr_load_nat, lookup_app_r, Nat.sub_diag by lia. simpl.
    rewrite decide_False by (apply Hpre; left).
    specialize (IH n (before ++ [v])).
    rewrite length_app in IH. simpl in IH.
    rewrite <- app_assoc in IH. simpl in IH.
    replace (Z.of_nat (length before) + 1)
      with (Z.of_nat (length before + 1)) by lia.
    rewrite IH.
    + f_equal. simpl. lia.
    + intros v' Hv'. apply Hpre. by right.
    + simpl in Hn. lia.
Qed.

Lemma mru_shift_spec (pre post : list Z) x :
  mru_shift (length pre) (pre ++ x :: post)
  = Some (default x (head pre) :: pre ++ post).
Proof.
  revert x post. induction pre as [|v pre IH] using rev_ind; intros x post.
  - done.
  - rewrite length_app. simpl. rewrite Nat.add_1_r. simpl.
    rewrite arr_load_nat. rewrite <- app_assoc. simpl.
    rewrite (lookup_app_r pre) by lia. rewrite Nat.sub_diag. simpl.
    rewrite arr_store_run by (rewrite length_app; simpl; lia).
    simpl.
    replace (Z.to_nat (Z.of_nat (length pre) + 1)) with (length pre + 1)%nat
      by lia.
    rewrite insert_app_r. simpl.
    rewrite IH, <- app_assoc. by destruct pre.
Qed.

Lemma insert_alter_lookup {A} (f : A → A) (l : list A) i x :
  l !! i = Some x → <[i := f x]> l = alter f i l.
Proof.
  intros Hx. apply list_eq. intros j. destruct (decide (i = j)) as [<-|].
  - rewrite list_lookup_insert_eq by by eapply lookup_lt_Some.
    by rewrite list_lookup_alter_eq, Hx.
  - by rewrite list_lookup_insert_ne, list_lookup_alter_ne.
Qed.

(** [cache_line_make_mru] on a line index that the scanned part of the list
    holds: the index moves to the head, the entries that were ahead of it
    move back by one, the entries behind it stay. *)
Lemma cache_line_make_mru_run w p s pre x post :
  arr_load (sets (heap w)) p = Some s →
  mru_list s = pre ++ x :: post →
  (∀ v, v ∈ pre → to_u64 v ≠ x) →
  0 ≤ x < 2 ^ 31 →
  (length pre < Z.to_nat (associativity (heap w)))%nat →
  cache_line_make_mru p x w = Some (tt, with_mru w p (x :: pre ++ post)).
Proof.
  intros Hs Hmru Hpre Hx Hlen. apply cache_line_make_mru_Some.
  exists s, (Z.of_nat (length pre)), (default x (head pre) :: pre ++ post),
    (x :: pre ++ post),
    (<[Z.to_nat p := CSet (size s) (first_index s) (x :: pre ++ post)]>
       (sets (heap w))).
  rewrite Hmru. split; [done|]. split; [|split; [|split; [|split]]].
  - pose proof (mru_search_found (Z.to_nat (associativity (heap w))) []
                  pre post x x) as H.
    simpl in H. apply H; [|done|done]. apply to_u64_small. lia.
  - rewrite Nat2Z.id. apply mru_shift_spec.
  - rewrite to_int_small by lia. by rewrite arr_store_run by (simpl; lia).
  - apply arr_store_run. by eapply arr_load_range.
  - unfold with_mru. do 2 f_equal.
    apply arr_load_Some in Hs as [_ Hs].
    by rewrite <- (insert_alter_lookup _ _ _ _ Hs).
Qed.

Lemma perm_seqZ_elem (mru : list Z) k v :
  mru ≡ₚ seqZ 0 k → (v ∈ mru ↔ 0 ≤ v < k).
Proof. intros ->. rewrite elem_of_seqZ. lia. Qed.

Lemma perm_seqZ_length (mru : list Z) k :
  mru ≡ₚ seqZ 0 k → length mru = Z.to_nat k.
Proof. intros ->. apply length_seqZ. Qed.

(** The same under the permutation invariant. *)
Lemma cache_line_make_mru_perm w p s x :
  arr_load (sets (heap w)) p = Some s →
  mru_list s ≡ₚ seqZ 0 (associativity (heap w)) →
  associativity (heap w) ≤ 2 ^ 31 →
  x ∈ mru_list s →
  ∃ pre post,
    mru_list s = pre ++ x :: post ∧ (x ∉ pre) ∧
    cache_line_make_mru p x w = Some (tt, with_mru w p (x :: pre ++ post)).
Proof.
  intros Hs Hperm Hk Hx.
  destruct (list_elem_of_split_l _ _ Hx) as (pre & post & Hmru & Hpre).
  exists pre, post. split; [done|]. split; [done|].
  pose proof (proj1 (perm_seqZ_elem _ _ x Hperm) Hx) as Hxr.
  pose proof (perm_seqZ_length _ _ Hperm) as Hlen.
  apply (cache_line_make_mru_run w p s pre x post); [done|done| |lia|].
  - intros v Hv.
    assert (0 ≤ v < associativity (heap w)) as Hv'.
    { apply (perm_seqZ_elem _ _ _ Hperm). rewrite Hmru.
      apply elem_of_app. by left. }
    rewrite to_u64_small by lia. intros ->. done.
  - rewrite Hmru, length_app in Hlen. simpl in Hlen. lia.
Qed.

Lemma with_mru_lookup w p s mru :
  arr_load (sets (heap w)) p = Some s →
  arr_load (sets (heap (with_mru w p mru))) p
  = Some (CSet (size s) (first_index s) mru).
Proof.
  intros [Hp Hs]%arr_load_Some. apply arr_load_Some. split; [done|].
  simpl. by rewrite list_lookup_alter_eq, Hs.
Qed.

(** ** Initialisation *)

Lemma cache_set_init_loop_run n (k : nat) fi (ls : list cache_line_t)
    (rest : list Z) :
  0 ≤ fi →
  fi + Z.of_nat k + Z.of_nat n ≤ Z.of_nat (length ls) →
  length rest = n →
  ∃ ls',
    cache_set_init_loop n (Z.of_nat k) fi ls (seqZ 0 (Z.of_nat k) ++ rest)
    = Some (ls', seqZ 0 (Z.of_nat (k + n))) ∧
    ∀ j : nat, ls' !! j =
      (λ l, if decide (fi + Z.of_nat k ≤ Z.of_nat j
                       < fi + Z.of_nat k + Z.of_nat n)
            then Line 0 (tag l) (block l) else l) <$> ls !! j.
Proof.
  intros Hfi. revert k ls rest.
  induction n as [|n IH]; intros k ls rest Hlen Hrest.
  - destruct rest; [|done]. exists ls. simpl.
    rewrite app_nil_r, Nat.add_0_r. split; [done|]. intros j.
    destruct (ls !! j); simpl; [|done]. by rewrite decide_False by lia.
  - destruct rest as [|r rest]; [done|]. simpl in Hrest.
    destruct (arr_load_lt ls (fi + Z.of_nat k)) as [l Hl]; [lia|].
    simpl. rewrite Hl. simpl.
    rewrite (arr_store_run ls (fi + Z.of_nat k)) by lia. simpl.
    rewrite (arr_store_run (seqZ 0 (Z.of_nat k) ++ r :: rest) (Z.of_nat k))
      by (rewrite length_app, length_seqZ; simpl; lia).
    simpl.
    replace (Z.to_nat (Z.of_nat k)) with (length (seqZ 0 (Z.of_nat k)) + 0)%nat
      by (rewrite length_seqZ; lia).
    rewrite insert_app_r. simpl.
    replace (seqZ 0 (Z.of_nat k) ++ Z.of_nat k :: rest)
      with (seqZ 0 (Z.of_nat (S k)) ++ rest)
      by (rewrite seqZ_S, <- app_assoc; done).
    replace (Z.of_nat k + 1) with (Z.of_nat (S k)) by lia.
    destruct (IH (S k) (<[Z.to_nat (fi + Z.of_nat k) :=
                          Line 0 (tag l) (block l)]> ls) rest)
      as (ls' & Hrun & Hls'); [rewrite length_insert; lia|lia|].
    exists ls'. rewrite Hrun. split; [f_equal; f_equal; f_equal; lia|].
    intros j. rewrite Hls'.
    apply arr_load_Some in Hl as [_ Hl].
    destruct (decide (Z.to_nat (fi + Z.of_nat k) = j)) as [<-|Hne].
    + rewrite list_lookup_insert_eq by by eapply lookup_lt_Some.
      rewrite Hl. simpl. rewrite decide_False by lia.
      by rewrite decide_True by lia.
    + rewrite list_lookup_insert_ne by done.
      destruct (ls !! j) as [l'|]; [simpl|done].
      destruct (decide (fi + Z.of_nat (S k) ≤ _ < _));
        destruct (decide (fi + Z.of_nat k ≤ _ < _)); try done; lia.
Qed.

(** [cache_set_init] returns when its lines exist; the recency list it
    builds is 0, 1, ..., associativity - 1. *)
Lemma cache_set_init_run assoc (ls : list cache_line_t) fi :
  0 ≤ assoc → 0 ≤ fi → fi + assoc ≤ Z.of_nat (length ls) →
  ∃ ls',
    cache_set_init assoc ls fi
    = Some (CSet (to_int assoc) fi (seqZ 0 assoc), ls') ∧
    ∀ j : nat, ls' !! j =
      (λ l, if decide (fi ≤ Z.of_nat j < fi + assoc)
            then Line 0 (tag l) (block l) else l) <$> ls !! j.
Proof.
  intros Hassoc Hfi Hlen. unfold cache_set_init.
  destruct (cache_set_init_loop_run (Z.to_nat assoc) 0 fi ls
              (replicate (Z.to_nat assoc) 0)) as (ls' & Hrun & Hls');
    [done|lia|by rewrite length_replicate|].
  simpl in Hrun. change (Z.of_nat 0) with 0 in Hrun.
  rewrite Hrun. simpl. exists ls'. split.
  - do 4 f_equal. lia.
  - intros j. rewrite Hls'. destruct (ls !! j); [simpl|done].
    destruct (decide (fi + Z.of_nat 0 ≤ _ < _));
      destruct (decide (fi ≤ _ < _)); try done; lia.
Qed.

(** ** C8: the recency list is a permutation of the slots *)

(** C8.  [cache_set_init] returns a set whose recency list is a permutation
    of the line indices 0 .. associativity - 1, and a call of
    [cache_line_make_mru] on a set whose list is such a permutation, with a
    line index that the list holds, returns and leaves such a permutation,
    now headed by that index.  (The entries are [int]s, so the associativity
    is at most 2^31.) *)
Theorem mru_list_stays_a_permutation :
  (∀ (assoc : Z) (ls : list cache_line_t) (fi : Z),
     0 ≤ assoc → 0 ≤ fi → fi + assoc ≤ Z.of_nat (length ls) →
     ∃ s ls', cache_set_init assoc ls fi = Some (s, ls') ∧
       mru_list s ≡ₚ seqZ 0 assoc) ∧
  (∀ (w : world) (p : Z) (s : cache_set_t) (x : Z),
     arr_load (sets (heap w)) p = Some s →
     mru_list s ≡ₚ seqZ 0 (associativity (heap w)) →
     associativity (heap w) ≤ 2 ^ 31 →
     x ∈ mru_list s →
     ∃ w' s', cache_line_make_mru p x w = Some (tt, w') ∧
       arr_load (sets (heap w')) p = Some s' ∧
       associativity (heap w') = associativity (heap w) ∧
       mru_list s' ≡ₚ seqZ 0 (associativity (heap w')) ∧
       head (mru_list s') = Some x).
Proof.
  split.
  - intros assoc ls fi Hassoc Hfi Hlen.
    destruct (cache_set_init_run assoc ls fi) as (ls' & Hrun & _);
      [done..|].
    by eexists _, _.
  - intros w p s x Hs Hperm Hk Hx.
    destruct (cache_line_make_mru_perm w p s x)
      as (pre & post & Hmru & _ & Hrun); [done..|].
    eexists _, _. split; [done|].
    split; [by apply with_mru_lookup|].
    split; [done|]. split; [|done]. simpl.
    rewrite <- Hperm, Hmru. apply Permutation_middle.
Qed.

Lemma mru_list_stays_a_permutation_witness :
  (∃ s ls', cache_set_init 4 (lines lru_cache) 0 = Some (s, ls') ∧
     mru_list s ≡ₚ seqZ 0 4) ∧
  (∃ w' s',
     cache_line_make_mru 0 2 (boot lru_cache zero_ram) = Some (tt, w') ∧
     arr_load (sets (heap w')) 0 = Some s' ∧
     associativity (heap w') = associativity (heap (boot lru_cache zero_ram)) ∧
     mru_list s' ≡ₚ seqZ 0 (associativity (heap w')) ∧
     head (mru_list s') = Some 2).
Proof.
  split.
  - apply (proj1 mru_list_stays_a_permutation 4 (lines lru_cache) 0);
      simpl; lia.
  - apply (proj2 mru_list_stays_a_permutation (boot lru_cache zero_ram) 0
             (CSet 4 0 [0; 1; 2; 3]) 2).
    + reflexivity.
    + reflexivity.
    + simpl. lia.
    + simpl. apply elem_of_cons. right. apply elem_of_cons. right.
      apply elem_of_cons. by left.
Defined.

(** ** The set operations on a well-formed cache *)

Lemma remove_first_app x (pre post : list Z) :
  x ∉ pre → remove_first x (pre ++ x :: post) = pre ++ post.
Proof.
  induction pre as [|y pre IH]; intros Hx; simpl.
  - by rewrite decide_True.
  - apply not_elem_of_cons in Hx as [Hxy Hx].
    rewrite decide_False by done. by rewrite IH.
Qed.

Lemma promote_perm x (mru : list Z) : x ∈ mru → promote x mru ≡ₚ mru.
Proof.
  intros (pre & post & -> & Hpre)%list_elem_of_split_l.
  unfold promote. rewrite remove_first_app by done.
  apply Permutation_middle.
Qed.

Lemma promote_head x (rest : list Z) : promote x (x :: rest) = x :: rest.
Proof. unfold promote. simpl. by rewrite decide_True. Qed.

Lemma wf_set_at w p s :
  wf_world w → arr_load (sets (heap w)) p = Some s →
  0 ≤ p < Z.of_nat (length (sets (heap w))) ∧
  size s = associativity (heap w) ∧
  first_index s = p * associativity (heap w) ∧
  mru_list s ≡ₚ seqZ 0 (associativity (heap w)).
Proof.
  intros Hwf Hs. pose proof (arr_load_range _ _ _ Hs) as Hp.
  apply arr_load_Some in Hs as [_ Hs].
  destruct (wf_sets _ Hwf _ _ Hs) as (? & Hfi & ?).
  rewrite Z2Nat.id in Hfi by lia. done.
Qed.

(** [cache_line_make_mru] on a slot of the set. *)
Lemma cache_line_make_mru_wf w p s x :
  wf_world w → arr_load (sets (heap w)) p = Some s →
  0 ≤ x < associativity (heap w) →
  cache_line_make_mru p x w
  = Some (tt, with_mru w p (promote x (mru_list s))).
Proof.
  intros Hwf Hs Hx.
  destruct (wf_set_at w p s Hwf Hs) as (_ & _ & _ & Hperm).
  pose proof (wf_associativity _ Hwf) as Hk.
  destruct (cache_line_make_mru_perm w p s x)
    as (pre & post & Hmru & Hpre & Hrun); [done|done|lia| |].
  { by apply (perm_seqZ_elem _ _ _ Hperm). }
  rewrite Hrun. unfold promote. by rewrite Hmru, remove_first_app.
Qed.

Lemma set_slots_length w p s :
  wf_world w → arr_load (sets (heap w)) p = Some s →
  length (set_slots (heap w) s) = Z.to_nat (associativity (heap w)).
Proof.
  intros Hwf Hs. destruct (wf_set_at w p s Hwf Hs) as (Hp & Hsz & Hfi & _).
  pose proof (wf_lines _ Hwf). pose proof (wf_associativity _ Hwf).
  unfold set_slots. rewrite length_take, length_drop, Hsz, Hfi. nia.
Qed.

Lemma set_slots_lookup c s (j : nat) :
  0 ≤ first_index s → (j < Z.to_nat (size s))%nat →
  set_slots c s !! j = slot c s (Z.of_nat j).
Proof.
  intros Hfi Hj. unfold set_slots, slot.
  rewrite lookup_take_lt, lookup_drop by done.
  unfold arr_load. rewrite decide_True by lia. f_equal. lia.
Qed.

Lemma wf_first_index w p s :
  wf_world w → arr_load (sets (heap w)) p = Some s → 0 ≤ first_index s.
Proof.
  intros Hwf Hs. destruct (wf_set_at w p s Hwf Hs) as (Hp & Hsz & Hfi & _).
  pose proof (wf_associativity _ Hwf). nia.
Qed.

Lemma is_lru_or_mru_alt c :
  bool_decide (policies c = CACHE_REPLACEMENTPOLICY_MRU)
  || bool_decide (policies c = CACHE_REPLACEMENTPOLICY_LRU)
  = is_lru_or_mru c.
Proof. unfold is_lru_or_mru. apply orb_comm. Qed.

(** The scan of [cache_set_find_matching_line], from slot [i] on, over the
    lines [rest] that remain. *)
Lemma find_matching_loop_run (rest : list cache_line_t) (i : nat) w p s t :
  arr_load (sets (heap w)) p = Some s →
  (∀ j : nat, (j < length rest)%nat →
     slot (heap w) s (Z.of_nat (i + j)) = rest !! j) →
  find_matching_loop (length rest) (Z.of_nat i) p t w =
  match list_find (matches t) rest with
  | None => Some (None, w)
  | Some (j, _) =>
    ((if is_lru_or_mru (heap w)
      then cache_line_make_mru p (to_u64 (Z.of_nat (i + j)))
      else mret tt) ≫= λ _, mret (Some (first_index s + Z.of_nat (i + j)))) w
  end.
Proof.
  intros Hs. revert i. induction rest as [|l rest IH]; intros i Hrest.
  - done.
  - simpl length. cbn [find_matching_loop].
    rewrite (bind_run _ _ w (heap w) w) by done.
    rewrite (bind_run _ _ w s w) by by apply load_set_Some.
    rewrite (bind_run _ _ w l w).
    2:{ apply load_line_Some. split; [|done].
        specialize (Hrest O). rewrite Nat.add_0_r in Hrest.
        apply Hrest. simpl. lia. }
    cbn [list_find]. fold (matches t l).
    destruct (decide (matches t l)) as [Hm|Hm].
    + simpl. by rewrite Nat.add_0_r.
    + replace (Z.of_nat i + 1) with (Z.of_nat (S i)) by lia.
      rewrite IH.
      * destruct (list_find (matches t) rest) as [[j l']|]; simpl; [|done].
        by rewrite Nat.add_succ_r.
      * intros j Hj. specialize (Hrest (S j)).
        replace (S i + j)%nat with (i + S j)%nat by lia.
        apply Hrest. simpl. lia.
Qed.

Lemma find_unused_loop_run (rest : list cache_line_t) (i : nat) w p s :
  arr_load (sets (heap w)) p = Some s →
  (∀ j : nat, (j < length rest)%nat →
     slot (heap w) s (Z.of_nat (i + j)) = rest !! j) →
  find_unused_loop (length rest) (Z.of_nat i) p w =
  match list_find unused rest with
  | None => Some (None, w)
  | Some (j, _) =>
    ((if is_lru_or_mru (heap w)
      then cache_line_make_mru p (to_u64 (Z.of_nat (i + j)))
      else mret tt) ≫= λ _, mret (Some (first_index s + Z.of_nat (i + j)))) w
  end.
Proof.
  intros Hs. revert i. induction rest as [|l rest IH]; intros i Hrest.
  - done.
  - simpl length. cbn [find_unused_loop].
    rewrite (bind_run _ _ w (heap w) w) by done.
    rewrite (bind_run _ _ w s w) by by apply load_set_Some.
    rewrite (bind_run _ _ w l w).
    2:{ apply load_line_Some. split; [|done].
        specialize (Hrest O). rewrite Nat.add_0_r in Hrest.
        apply Hrest. simpl. lia. }
    cbn [list_find]. fold (unused l).
    destruct (decide (unused l)) as [Hm|Hm].
    + simpl. by rewrite Nat.add_0_r, is_lru_or_mru_alt.
    + replace (Z.of_nat i + 1) with (Z.of_nat (S i)) by lia.
      rewrite IH.
      * destruct (list_find unused rest) as [[j l']|]; simpl; [|done].
        by rewrite Nat.add_succ_r.
      * intros j Hj. specialize (Hrest (S j)).
        replace (S i + j)%nat with (i + S j)%nat by lia.
        apply Hrest. simpl. lia.
Qed.

Lemma set_slots_slot w p s :
  wf_world w → arr_load (sets (heap w)) p = Some s →
  ∀ j : nat, (j < length (set_slots (heap w) s))%nat →
    slot (heap w) s (Z.of_nat (0 + j)) = set_slots (heap w) s !! j.
Proof.
  intros Hwf Hs j Hj. rewrite (set_slots_length w p s) in Hj by done.
  destruct (wf_set_at w p s Hwf Hs) as (_ & Hsz & _ & _).
  symmetry. apply set_slots_lookup; [by eapply wf_first_index|].
  by rewrite Hsz.
Qed.

Lemma touch_run w p s (j : nat) :
  wf_world w → arr_load (sets (heap w)) p = Some s →
  (j < Z.to_nat (associativity (heap w)))%nat →
  ((if is_lru_or_mru (heap w)
    then cache_line_make_mru p (to_u64 (Z.of_nat (0 + j)))
    else mret tt) ≫=
   λ _, mret (Some (first_index s + Z.of_nat (0 + j)))) w
  = Some (Some (first_index s + Z.of_nat j), touch w p s (Z.of_nat j)).
Proof.
  intros Hwf Hs Hj. pose proof (wf_associativity _ Hwf) as Hk.
  unfold touch. simpl. destruct (is_lru_or_mru (heap w)); [|done].
  rewrite to_u64_small by lia.
  assert (0 ≤ Z.of_nat (0 + j) < associativity (heap w)) as Hj' by lia.
  by rewrite (bind_run _ _ _ _ _ (cache_line_make_mru_wf w p s _ Hwf Hs Hj')).
Qed.

(** [cache_set_find_matching_line] finds the first line of the set that is
    valid and carries the tag, and touches it. *)
Lemma cache_set_find_matching_line_wf w p s t :
  wf_world w → arr_load (sets (heap w)) p = Some s →
  cache_set_find_matching_line p t w =
  match list_find (matches t) (set_slots (heap w) s) with
  | None => Some (None, w)
  | Some (j, _) =>
    Some (Some (first_index s + Z.of_nat j), touch w p s (Z.of_nat j))
  end.
Proof.
  intros Hwf Hs. unfold cache_set_find_matching_line.
  rewrite (bind_run _ _ w s w) by by apply load_set_Some.
  destruct (wf_set_at w p s Hwf Hs) as (_ & Hsz & _ & _).
  rewrite Hsz, <- (set_slots_length w p s) by done.
  change 0 with (Z.of_nat 0).
  rewrite (find_matching_loop_run _ 0 w p s) by by eauto using set_slots_slot.
  destruct (list_find _ _) as [[j l]|] eqn:Hfind; [|done].
  apply touch_run; [done..|].
  apply list_find_Some in Hfind as (Hj%lookup_lt_Some & _).
  by rewrite (set_slots_length w p s) in Hj.
Qed.

Lemma mru_head_last w p s :
  wf_world w → arr_load (sets (heap w)) p = Some s →
  ∃ m0 ml,
    arr_load (mru_list s) 0 = Some m0 ∧ head (mru_list s) = Some m0 ∧
    arr_load (mru_list s) (size s - 1) = Some ml ∧
    last (mru_list s) = Some ml ∧
    0 ≤ m0 < associativity (heap w) ∧ 0 ≤ ml < associativity (heap w).
Proof.
  intros Hwf Hs. destruct (wf_set_at w p s Hwf Hs) as (_ & Hsz & _ & Hperm).
  pose proof (wf_associativity _ Hwf) as Hk.
  pose proof (perm_seqZ_length _ _ Hperm) as Hlen.
  destruct (arr_load_lt (mru_list s) 0) as [m0 Hm0]; [lia|].
  destruct (arr_load_lt (mru_list s) (size s - 1)) as [ml Hml]; [lia|].
  exists m0, ml.
  assert (mru_list s !! O = Some m0) as Hm0'.
  { by apply arr_load_Some in Hm0 as [_ Hm0]. }
  assert (mru_list s !! pred (length (mru_list s)) = Some ml) as Hml'.
  { apply arr_load_Some in Hml as [_ Hml].
    by replace (pred (length (mru_list s))) with (Z.to_nat (size s - 1))
      by lia. }
  repeat split; try done.
  - by rewrite head_lookup.
  - by rewrite last_lookup.
  - apply (perm_seqZ_elem _ _ _ Hperm). by eapply list_elem_of_lookup_2.
  - apply (perm_seqZ_elem _ _ _ Hperm). by eapply list_elem_of_lookup_2.
  - apply (perm_seqZ_elem _ _ _ Hperm). by eapply list_elem_of_lookup_2.
  - apply (perm_seqZ_elem _ _ _ Hperm). by eapply list_elem_of_lookup_2.
Qed.

(** [find_available_cache_line] returns the line of the selected slot. *)
Lemma find_available_cache_line_wf w p s g :
  wf_world w → arr_load (sets (heap w)) p = Some s →
  find_available_cache_line p g w =
  Some (first_index s + (selected g w p s).1, (selected g w p s).2).
Proof.
  intros Hwf Hs. unfold find_available_cache_line, selected.
  rewrite (bind_run _ _ w s w) by by apply load_set_Some.
  destruct (wf_set_at w p s Hwf Hs) as (_ & Hsz & _ & Hperm).
  pose proof (wf_associativity _ Hwf) as Hk.
  rewrite Hsz, <- (set_slots_length w p s) by done.
  change 0 with (Z.of_nat 0).
  rewrite (bind_run _ _ w
             match list_find unused (set_slots (heap w) s) with
             | Some (j, _) => Some (first_index s + Z.of_nat j)
             | None => None
             end
             match list_find unused (set_slots (heap w) s) with
             | Some (j, _) => touch w p s (Z.of_nat j)
             | None => w
             end).
  2:{ rewrite (find_unused_loop_run _ 0 w p s)
        by by eauto using set_slots_slot.
      destruct (list_find _ _) as [[j l]|] eqn:Hfind; [|done].
      apply touch_run; [done..|].
      apply list_find_Some in Hfind as (Hj%lookup_lt_Some & _).
      by rewrite (set_slots_length w p s) in Hj. }
  destruct (list_find _ _) as [[j l]|] eqn:Hfind; [done|].
  rewrite (bind_run _ _ w (heap w) w) by done.
  destruct (mru_head_last w p s Hwf Hs)
    as (m0 & ml & Hm0 & Hh & Hml & Hl & Hm0r & Hmlr).
  destruct (decide (policies (heap w) = CACHE_REPLACEMENTPOLICY_MRU)).
  - rewrite (bind_run _ _ w s w) by by apply load_set_Some.
    rewrite (bind_run _ _ w m0 w) by by apply lift_run.
    rewrite to_u64_small by lia.
    rewrite (bind_run _ _ _ _ _ (cache_line_make_mru_wf w p s _ Hwf Hs Hm0r)).
    rewrite (bind_run _ _ _ (CSet (size s) (first_index s)
                               (promote m0 (mru_list s))) _)
      by by apply load_set_Some, conj, eq_refl; apply with_mru_lookup.
    rewrite (bind_run _ _ _ m0 _) by by apply lift_run.
    rewrite Hh. done.
  - destruct (decide (policies (heap w) = CACHE_REPLACEMENTPOLICY_LRU)).
    + rewrite (bind_run _ _ w s w) by by apply load_set_Some.
      rewrite (bind_run _ _ w ml w) by by apply lift_run.
      rewrite to_u64_small by lia.
      rewrite (bind_run _ _ _ _ _
                 (cache_line_make_mru_wf w p s _ Hwf Hs Hmlr)).
      rewrite (bind_run _ _ _ (CSet (size s) (first_index s)
                                 (promote ml (mru_list s))) _)
        by by apply load_set_Some, conj, eq_refl; apply with_mru_lookup.
      rewrite Hl. done.
    + rewrite (bind_run _ _ w (g (rand_calls w)) (drawn w)) by done.
      rewrite (bind_run _ _ _ s _) by by apply load_set_Some.
      unfold c_rem. rewrite decide_False by lia. by rewrite Hsz.
Qed.

(** ** Well-formedness is kept *)

Lemma wf_same_shape c c' :
  wf_cache c →
  associativity c' = associativity c → line_size c' = line_size c →
  (size <$> sets c') = (size <$> sets c) →
  (first_index <$> sets c') = (first_index <$> sets c) →
  (∀ (p : nat) s', sets c' !! p = Some s' →
     mru_list s' ≡ₚ seqZ 0 (associativity c)) →
  length (lines c') = length (lines c) →
  (block <$> lines c') = (block <$> lines c) →
  length (memory c') = length (memory c) →
  cache_index_shift c' = cache_index_shift c → tag_shift c' = tag_shift c →
  cache_index_mask c' = cache_index_mask c →
  wf_cache c'.
Proof.
  intros Hwf Hk Hls Hsz Hfi Hmru Hlen Hblk Hmem His Hts Him.
  assert (length (sets c') = length (sets c)) as Hslen.
  { by rewrite <- (length_fmap size), Hsz, length_fmap. }
  constructor; rewrite ?Hk, ?Hls, ?Hlen, ?Hmem, ?His, ?Hts, ?Him, ?Hslen;
    try apply Hwf.
  - intros p s' Hs'.
    assert (is_Some (sets c !! p)) as [s Hs].
    { apply lookup_lt_is_Some. rewrite <- Hslen. by eapply lookup_lt_Some. }
    destruct (wf_sets _ Hwf p s Hs) as (Hs1 & Hs2 & _).
    assert ((size <$> sets c') !! p = Some (size s')) as H1
      by by rewrite list_lookup_fmap, Hs'.
    assert ((first_index <$> sets c') !! p = Some (first_index s')) as H2
      by by rewrite list_lookup_fmap, Hs'.
    rewrite Hsz, list_lookup_fmap, Hs in H1.
    rewrite Hfi, list_lookup_fmap, Hs in H2.
    simpl in H1, H2. injection H1 as <-. injection H2 as <-.
    split; [done|]. split; [done|]. by eapply Hmru.
  - intros j l' Hl'.
    assert (is_Some (lines c !! j)) as [l Hl].
    { apply lookup_lt_is_Some. rewrite <- Hlen. by eapply lookup_lt_Some. }
    assert ((block <$> lines c') !! j = Some (block l')) as H1
      by by rewrite list_lookup_fmap, Hl'.
    rewrite Hblk, list_lookup_fmap, Hl in H1. simpl in H1.
    injection H1 as <-. by apply (wf_blocks _ Hwf).
Qed.

Lemma alter_mru_fmap {B} (f : cache_set_t → B) mru (n : nat)
    (ss : list cache_set_t) :
  (∀ s, f (CSet (size s) (first_index s) mru) = f s) →
  f <$> alter (λ s, CSet (size s) (first_index s) mru) n ss = f <$> ss.
Proof.
  intros Hf. apply list_eq. intros i. rewrite !list_lookup_fmap.
  destruct (decide (n = i)) as [<-|].
  - rewrite list_lookup_alter_eq. destruct (ss !! n); simpl; [|done].
    by rewrite Hf.
  - by rewrite list_lookup_alter_ne.
Qed.

Lemma wf_with_mru w p mru :
  wf_world w → mru ≡ₚ seqZ 0 (associativity (heap w)) →
  wf_world (with_mru w p mru).
Proof.
  intros Hwf Hperm. unfold wf_world.
  apply (wf_same_shape (heap w)); simpl; try done.
  - by apply alter_mru_fmap.
  - by apply alter_mru_fmap.
  - intros q s'. destruct (decide (Z.to_nat p = q)) as [<-|].
    + rewrite list_lookup_alter_eq.
      destruct (sets (heap w) !! Z.to_nat p); simpl; [|done].
      by intros [= <-].
    + rewrite list_lookup_alter_ne by done. intros Hs.
      by destruct (wf_sets _ Hwf _ _ Hs) as (_ & _ & ?).
Qed.

Lemma wf_touch w p s j :
  wf_world w → arr_load (sets (heap w)) p = Some s →
  0 ≤ j < associativity (heap w) →
  wf_world (touch w p s j).
Proof.
  intros Hwf Hs Hj. unfold touch. destruct (is_lru_or_mru _); [|done].
  destruct (wf_set_at w p s Hwf Hs) as (_ & _ & _ & Hperm).
  apply wf_with_mru; [done|]. rewrite <- Hperm. apply promote_perm.
  by apply (perm_seqZ_elem _ _ _ Hperm).
Qed.

Lemma wf_count_access w : wf_world w → wf_world (count_access w).
Proof. intros Hwf. by apply (wf_same_shape (heap w)); [|try done..];
  [done|intros p s Hs; by destruct (wf_sets _ Hwf _ _ Hs) as (_ & _ & ?)]. Qed.

Lemma wf_count_miss w : wf_world w → wf_world (count_miss w).
Proof. intros Hwf. by apply (wf_same_shape (heap w)); [|try done..];
  [done|intros p s Hs; by destruct (wf_sets _ Hwf _ _ Hs) as (_ & _ & ?)]. Qed.

Lemma wf_emit record w : wf_world w → wf_world (emit record w).
Proof. unfold wf_world. by rewrite emit_heap. Qed.

Lemma wf_drawn w : wf_world w → wf_world (drawn w).
Proof. done. Qed.

Lemma touch_lines w p s j : lines (heap (touch w p s j)) = lines (heap w).
Proof. unfold touch. by destruct (is_lru_or_mru _). Qed.

(** The selected slot is a slot of the set. *)
Lemma selected_slot g w p s :
  wf_world w → arr_load (sets (heap w)) p = Some s → nonneg_source g →
  0 ≤ (selected g w p s).1 < associativity (heap w).
Proof.
  intros Hwf Hs Hg. unfold selected.
  pose proof (wf_associativity _ Hwf) as Hk.
  destruct (wf_set_at w p s Hwf Hs) as (_ & Hsz & _ & _).
  destruct (mru_head_last w p s Hwf Hs)
    as (m0 & ml & _ & Hh & _ & Hl & Hm0r & Hmlr).
  destruct (list_find _ _) as [[j l]|] eqn:Hfind.
  - apply list_find_Some in Hfind as (Hj%lookup_lt_Some & _).
    rewrite (set_slots_length w p s) in Hj by done. simpl. lia.
  - repeat destruct (decide _); simpl.
    + by rewrite Hh.
    + by rewrite Hl.
    + rewrite Hsz. apply Z.rem_bound_pos; [apply Hg | lia].
Qed.

Lemma wf_selected g w p s :
  wf_world w → arr_load (sets (heap w)) p = Some s →
  wf_world (selected g w p s).2.
Proof.
  intros Hwf Hs. unfold selected.
  destruct (wf_set_at w p s Hwf Hs) as (_ & _ & _ & Hperm).
  destruct (mru_head_last w p s Hwf Hs)
    as (m0 & ml & _ & Hh & _ & Hl & Hm0r & Hmlr).
  destruct (list_find _ _) as [[j l]|] eqn:Hfind.
  - apply list_find_Some in Hfind as (Hj%lookup_lt_Some & _).
    rewrite (set_slots_length w p s) in Hj by done. simpl.
    apply wf_touch; [done..|lia].
  - repeat destruct (decide _); simpl.
    + apply wf_with_mru; [done|]. rewrite <- Hperm. apply promote_perm.
      rewrite Hh. simpl. by apply (perm_seqZ_elem _ _ _ Hperm).
    + apply wf_with_mru; [done|]. rewrite <- Hperm. apply promote_perm.
      rewrite Hl. simpl. by apply (perm_seqZ_elem _ _ _ Hperm).
    + done.
Qed.

Lemma selected_only_sets g w p s : only_sets w (selected g w p s).2.
Proof.
  unfold selected, touch.
  destruct (list_find _ _) as [[j l]|]; simpl.
  - destruct (is_lru_or_mru _); [done|apply only_sets_refl].
  - repeat destruct (decide _); simpl; try done.
    unfold only_sets, drawn. simpl. by destruct w as [[] ? ? ?].
Qed.

Lemma memcpy_blit n dst src mem (arena : list byte) :
  0 ≤ dst → dst + Z.of_nat n ≤ Z.of_nat (length arena) →
  memcpy n dst src mem arena = Some (blit n (Z.to_nat dst) src mem arena).
Proof.
  revert dst src arena. induction n as [|n IH]; intros dst src arena Hd Hn.
  - done.
  - simpl. rewrite arr_store_run by lia. simpl.
    rewrite IH by (rewrite ?length_insert; lia).
    by replace (Z.to_nat (dst + 1)) with (S (Z.to_nat dst)) by lia.
Qed.

Lemma length_blit n dst src mem (arena : list byte) :
  length (blit n dst src mem arena) = length arena.
Proof.
  revert dst src arena. induction n as [|n IH]; intros; simpl; [done|].
  by rewrite IH, length_insert.
Qed.

Lemma wf_line_at w line l :
  wf_world w → arr_load (lines (heap w)) line = Some l →
  0 ≤ line < Z.of_nat (length (lines (heap w))) ∧
  block l = line * line_size (heap w).
Proof.
  intros Hwf Hl. pose proof (arr_load_range _ _ _ Hl).
  apply arr_load_Some in Hl as [_ Hl].
  apply (wf_blocks _ Hwf) in Hl. rewrite Z2Nat.id in Hl by lia. done.
Qed.

Lemma wf_filled w line t address :
  wf_world w → wf_world (filled w line t address).
Proof.
  intros Hwf. unfold filled.
  destruct (arr_load (lines (heap w)) line) as [l|] eqn:Hl; [|done].
  destruct (wf_line_at w line l Hwf Hl) as [Hline Hblk].
  apply arr_load_Some in Hl as [_ Hl].
  apply (wf_same_shape (heap w)); simpl; try done.
  - intros p s Hs. by destruct (wf_sets _ Hwf _ _ Hs) as (_ & _ & ?).
  - by rewrite length_insert.
  - rewrite list_fmap_insert. simpl. apply list_insert_id.
    by rewrite list_lookup_fmap, Hl.
  - by rewrite length_blit.
Qed.

(** The line of a slot of a set exists. *)
Lemma wf_slot_line w p s j :
  wf_world w → arr_load (sets (heap w)) p = Some s →
  0 ≤ j < associativity (heap w) →
  0 ≤ first_index s + j < Z.of_nat (length (lines (heap w))).
Proof.
  intros Hwf Hs Hj. destruct (wf_set_at w p s Hwf Hs) as (Hp & _ & Hfi & _).
  pose proof (wf_lines _ Hwf). rewrite Hfi. nia.
Qed.

(** [cache_set_add] fills the line of the selected slot. *)
Lemma cache_set_add_slot w p s address t g :
  wf_world w → arr_load (sets (heap w)) p = Some s →
  0 ≤ (selected g w p s).1 < associativity (heap w) →
  cache_set_add p address t g w =
  Some (first_index s + (selected g w p s).1,
        filled (selected g w p s).2 (first_index s + (selected g w p s).1)
          t address).
Proof.
  intros Hwf Hs Hj. unfold cache_set_add.
  rewrite (bind_run _ _ _ _ _ (find_available_cache_line_wf w p s g Hwf Hs)).
  pose proof (wf_selected g w p s Hwf Hs) as Hwf1.
  pose proof (selected_only_sets g w p s) as Hfr.
  destruct (selected g w p s) as [j w1]. simpl in *.
  assert (lines (heap w1) = lines (heap w)) as Hlines by by rewrite Hfr.
  pose proof (wf_slot_line w p s j Hwf Hs Hj) as Hline.
  rewrite <- Hlines in Hline.
  destruct (arr_load_lt _ _ Hline) as [l Hl].
  destruct (wf_line_at w1 _ l Hwf1 Hl) as [_ Hblk].
  rewrite (bind_run _ _ w1 (heap w1) w1) by done.
  rewrite (bind_run _ _ w1 l w1) by by apply lift_run.
  rewrite (bind_run _ _ w1 _ w1) by by apply lift_run, arr_store_run.
  rewrite (bind_run _ _ w1 (ram w1) w1) by done.
  pose proof (wf_memory _ Hwf1). pose proof (wf_line_size _ Hwf1).
  erewrite bind_run; [|apply lift_run, memcpy_blit; nia].
  unfold filled. rewrite Hl. done.
Qed.

Lemma cache_set_add_wf w p s address t g :
  wf_world w → arr_load (sets (heap w)) p = Some s → nonneg_source g →
  cache_set_add p address t g w =
  Some (first_index s + (selected g w p s).1,
        filled (selected g w p s).2 (first_index s + (selected g w p s).1)
          t address).
Proof.
  intros Hwf Hs Hg. apply cache_set_add_slot; [done..|].
  by apply selected_slot.
Qed.

(** [cache_line_retrieve_data] returns when the word lies in the block. *)
Lemma cache_line_retrieve_data_wf w line offset :
  wf_world w → 0 ≤ line < Z.of_nat (length (lines (heap w))) →
  0 ≤ offset → offset + 4 ≤ line_size (heap w) →
  ∃ v, cache_line_retrieve_data line offset w = Some (v, w).
Proof.
  intros Hwf Hline Hoff Hin. unfold cache_line_retrieve_data.
  destruct (arr_load_lt _ _ Hline) as [l Hl].
  destruct (wf_line_at w _ l Hwf Hl) as [_ Hblk].
  pose proof (wf_memory _ Hwf).
  rewrite (bind_run _ _ w (heap w) w) by done.
  rewrite (bind_run _ _ w l w) by by apply lift_run.
  destruct (arr_load_lt (memory (heap w)) (block l + offset)) as [b0 Hb0];
    [nia|].
  destruct (arr_load_lt (memory (heap w)) (block l + offset + 1))
    as [b1 Hb1]; [nia|].
  destruct (arr_load_lt (memory (heap w)) (block l + offset + 2))
    as [b2 Hb2]; [nia|].
  destruct (arr_load_lt (memory (heap w)) (block l + offset + 3))
    as [b3 Hb3]; [nia|].
  rewrite (bind_run _ _ w b0 w) by by apply lift_run.
  rewrite (bind_run _ _ w b1 w) by by apply lift_run.
  rewrite (bind_run _ _ w b2 w) by by apply lift_run.
  rewrite (bind_run _ _ w b3 w) by by apply lift_run.
  by eexists.
Qed.

(** The word read depends on the lines and the arena only. *)
Lemma cache_line_retrieve_data_frame w w' line offset v :
  lines (heap w') = lines (heap w) → memory (heap w') = memory (heap w) →
  cache_line_retrieve_data line offset w = Some (v, w) →
  cache_line_retrieve_data line offset w' = Some (v, w').
Proof.
  unfold cache_line_retrieve_data. intros Hl Hm H.
  inv_bind H. apply get_cache_Some in H0 as [-> ->].
  do 5 inv_lift H. injection H as <-.
  rewrite (bind_run _ _ w' (heap w') w') by done. rewrite Hl, Hm.
  rewrite (bind_run _ _ w' a w') by by apply lift_run.
  rewrite (bind_run _ _ w' a0 w') by by apply lift_run.
  rewrite (bind_run _ _ w' a1 w') by by apply lift_run.
  rewrite (bind_run _ _ w' a2 w') by by apply lift_run.
  rewrite (bind_run _ _ w' a3 w') by by apply lift_run.
  done.
Qed.

(** ** [cache_read] on a well-formed cache *)

Lemma land_mask_bound x mask : 0 ≤ mask → 0 ≤ Z.land x mask ≤ mask.
Proof.
  intros Hm. apply Z.ldiff_le; [done|]. apply Z.bits_inj'. intros n Hn.
  rewrite Z.ldiff_spec, Z.land_spec, Z.bits_0.
  by destruct (Z.testbit x n), (Z.testbit mask n).
Qed.

(** The index bits of every address select a set of the cache. *)
Lemma decode_wf w address :
  wf_world w →
  ∃ offset index t s,
    decode (heap w) address = Some (offset, index, t) ∧
    offset = to_uint (Z.land address (block_offset_mask (heap w))) ∧
    arr_load (sets (heap w)) index = Some s.
Proof.
  intros Hwf. unfold decode, c_shr.
  rewrite !decide_True by apply Hwf. simpl.
  destruct (wf_index_mask _ Hwf) as (Hm & Hlt & Hlen).
  pose proof (wf_index_shift _ Hwf) as Hsh.
  pose proof (land_mask_bound address _ Hm) as Hland.
  assert (0 ≤ Z.shiftr (Z.land address (cache_index_mask (heap w)))
                (cache_index_shift (heap w))
          < Z.of_nat (length (sets (heap w)))) as Hidx.
  { split; [apply Z.shiftr_nonneg; lia|].
    eapply Z.le_lt_trans; [|exact Hlt].
    rewrite !Z.shiftr_div_pow2 by lia.
    apply Z.div_le_mono; [apply Z.pow_pos_nonneg; lia|lia]. }
  rewrite (to_uint_small (Z.shiftr _ _)) by lia.
  destruct (arr_load_lt _ _ Hidx) as [s Hs].
  by eexists _, _, _, s.
Qed.

Lemma decode_offset c address offset index t :
  decode c address = Some (offset, index, t) →
  offset = to_uint (Z.land address (block_offset_mask c)).
Proof.
  unfold decode. intros H.
  destruct (c_shr _ _), (c_shr _ _); simpl in H; try done.
  by injection H as <- _ _.
Qed.

Lemma to_uint_nonneg z : 0 ≤ to_uint z.
Proof. unfold to_uint. apply Z.mod_pos_bound. lia. Qed.

(** A read whose tag is in the set: the first line that carries it is
    touched and read. *)
Lemma cache_read_hit_wf w address g offset index t s j l :
  wf_world w → word_in_block (heap w) address →
  decode (heap w) address = Some (offset, index, t) →
  arr_load (sets (heap w)) index = Some s →
  list_find (matches t) (set_slots (heap w) s) = Some (j, l) →
  ∃ v,
    cache_read address g w =
    Some (v, emit (trace_record_hit index address)
               (count_access (touch w index s (Z.of_nat j)))) ∧
    cache_line_retrieve_data (first_index s + Z.of_nat j) offset w
    = Some (v, w).
Proof.
  intros Hwf Hin Hd Hs Hfind. rewrite cache_read_unfold, Hd.
  rewrite (cache_set_find_matching_line_wf w index s t Hwf Hs), Hfind.
  pose proof (proj1 (list_find_Some _ _ _ _) Hfind) as (Hj%lookup_lt_Some & _).
  rewrite (set_slots_length w index s) in Hj by done.
  assert (0 ≤ Z.of_nat j < associativity (heap w)) as Hj' by lia.
  pose proof (wf_slot_line w index s _ Hwf Hs Hj') as Hline.
  assert (offset = to_uint (Z.land address (block_offset_mask (heap w))))
    as Hoff.
  { by eapply decode_offset. }
  pose proof (to_uint_nonneg (Z.land address (block_offset_mask (heap w)))).
  unfold word_in_block in Hin. rewrite <- Hoff in *.
  destruct (cache_line_retrieve_data_wf w _ offset Hwf Hline) as [v Hv];
    [lia|lia|].
  exists v. split; [|done].
  eapply cache_line_retrieve_data_frame; [| |exact Hv].
  - by rewrite emit_heap, <- (touch_lines w index s (Z.of_nat j)).
  - rewrite emit_heap. simpl. unfold touch.
    by destruct (is_lru_or_mru _).
Qed.

Lemma wf_after_hit w index address s j :
  wf_world w → arr_load (sets (heap w)) index = Some s →
  0 ≤ j < associativity (heap w) →
  wf_world (emit (trace_record_hit index address)
              (count_access (touch w index s j))).
Proof. intros. by apply wf_emit, wf_count_access, wf_touch. Qed.

Lemma missed_heap w index address :
  sets (heap (missed w index address)) = sets (heap w) ∧
  lines (heap (missed w index address)) = lines (heap w) ∧
  memory (heap (missed w index address)) = memory (heap w) ∧
  policies (heap (missed w index address)) = policies (heap w) ∧
  associativity (heap (missed w index address)) = associativity (heap w) ∧
  line_size (heap (missed w index address)) = line_size (heap w).
Proof. unfold missed. by rewrite emit_heap. Qed.

Lemma wf_missed w index address :
  wf_world w → wf_world (missed w index address).
Proof. intros. by apply wf_emit, wf_count_miss, wf_count_access. Qed.

Lemma filled_shape w line t address :
  length (lines (heap (filled w line t address))) = length (lines (heap w)) ∧
  line_size (heap (filled w line t address)) = line_size (heap w) ∧
  sets (heap (filled w line t address)) = sets (heap w) ∧
  associativity (heap (filled w line t address)) = associativity (heap w) ∧
  policies (heap (filled w line t address)) = policies (heap w).
Proof.
  unfold filled. destruct (arr_load _ _); [|done].
  cbn [heap lines line_size sets associativity policies set_memory set_lines].
  by rewrite length_insert.
Qed.

(** A read whose tag is not in the set: the line of the selected slot is
    filled and read. *)
Lemma cache_read_miss_slot w address g offset index t s :
  wf_world w → word_in_block (heap w) address →
  decode (heap w) address = Some (offset, index, t) →
  arr_load (sets (heap w)) index = Some s →
  list_find (matches t) (set_slots (heap w) s) = None →
  0 ≤ (selected g (missed w index address) index s).1
    < associativity (heap w) →
  ∃ v,
    cache_read address g w =
    Some (v, filled (selected g (missed w index address) index s).2
               (first_index s
                + (selected g (missed w index address) index s).1)
               t address) ∧
    wf_world (filled (selected g (missed w index address) index s).2
               (first_index s
                + (selected g (missed w index address) index s).1)
               t address) ∧
    0 ≤ (selected g (missed w index address) index s).1
      < associativity (heap w).
Proof.
  intros Hwf Hin Hd Hs Hfind Hj. rewrite cache_read_unfold, Hd.
  rewrite (cache_set_find_matching_line_wf w index s t Hwf Hs), Hfind.
  fold (missed w index address).
  destruct (missed_heap w index address) as (Hss & Hls & Hmem & _ & Hk & Hsz).
  pose proof (wf_missed w index address Hwf) as Hwf1.
  assert (arr_load (sets (heap (missed w index address))) index = Some s)
    as Hs1 by by rewrite Hss.
  rewrite (bind_run _ _ _ _ _
             (cache_set_add_slot _ index s address t g Hwf1 Hs1
                ltac:(by rewrite Hk))).
  pose proof (wf_selected g _ index s Hwf1 Hs1) as Hwf2.
  pose proof (selected_only_sets g (missed w index address) index s) as Hfr.
  destruct (selected g (missed w index address) index s) as [j w2].
  simpl in *.
  pose proof (wf_filled w2 (first_index s + j) t address Hwf2) as Hwf3.
  assert (lines (heap w2) = lines (heap w)) as Hl2 by by rewrite Hfr.
  assert (line_size (heap w2) = line_size (heap w)) as Hs2 by by rewrite Hfr.
  pose proof (wf_slot_line w index s j Hwf Hs Hj) as Hline.
  assert (offset = to_uint (Z.land address (block_offset_mask (heap w))))
    as Hoff.
  { by eapply decode_offset. }
  pose proof (to_uint_nonneg (Z.land address (block_offset_mask (heap w)))).
  unfold word_in_block in Hin. rewrite <- Hoff in *.
  destruct (cache_line_retrieve_data_wf
              (filled w2 (first_index s + j) t address)
              (first_index s + j) offset Hwf3) as [v Hv].
  - destruct (filled_shape w2 (first_index s + j) t address) as (-> & _).
    rewrite Hl2. lia.
  - lia.
  - destruct (filled_shape w2 (first_index s + j) t address)
      as (_ & -> & _).
    rewrite Hs2. lia.
  - exists v. done.
Qed.

Lemma cache_read_miss_wf w address g offset index t s :
  wf_world w → word_in_block (heap w) address → nonneg_source g →
  decode (heap w) address = Some (offset, index, t) →
  arr_load (sets (heap w)) index = Some s →
  list_find (matches t) (set_slots (heap w) s) = None →
  ∃ v,
    cache_read address g w =
    Some (v, filled (selected g (missed w index address) index s).2
               (first_index s
                + (selected g (missed w index address) index s).1)
               t address) ∧
    wf_world (filled (selected g (missed w index address) index s).2
               (first_index s
                + (selected g (missed w index address) index s).1)
               t address) ∧
    0 ≤ (selected g (missed w index address) index s).1
      < associativity (heap w).
Proof.
  intros Hwf Hin Hg Hd Hs Hfind.
  apply (cache_read_miss_slot w address g offset index t s); [done..|].
  destruct (missed_heap w index address) as (Hss & _ & _ & _ & Hk & _).
  rewrite <- Hk. apply selected_slot; [by apply wf_missed| |done].
  by rewrite Hss.
Qed.

Lemma filled_geometry w line t address c :
  c = heap (filled w line t address) →
  block_offset_mask c = block_offset_mask (heap w) ∧
  cache_index_mask c = cache_index_mask (heap w) ∧
  cache_index_shift c = cache_index_shift (heap w) ∧
  tag_mask c = tag_mask (heap w) ∧ tag_shift c = tag_shift (heap w) ∧
  line_size c = line_size (heap w).
Proof. intros ->. unfold filled. by destruct (arr_load _ _). Qed.

(** The masks, shifts and sizes of a cache: what [decode] and
    [word_in_block] depend on. *)
Lemma only_sets_geometry w w' :
  only_sets w w' →
  block_offset_mask (heap w') = block_offset_mask (heap w) ∧
  cache_index_mask (heap w') = cache_index_mask (heap w) ∧
  cache_index_shift (heap w') = cache_index_shift (heap w) ∧
  tag_mask (heap w') = tag_mask (heap w) ∧
  tag_shift (heap w') = tag_shift (heap w) ∧
  line_size (heap w') = line_size (heap w).
Proof. by intros ->. Qed.

(** Every read of a word inside its block returns on a well-formed cache,
    and leaves a well-formed cache with the same masks, shifts and sizes. *)
Lemma cache_read_total w address g :
  wf_world w → word_in_block (heap w) address → nonneg_source g →
  ∃ v w',
    cache_read address g w = Some (v, w') ∧ wf_world w' ∧
    (∀ a, decode (heap w') a = decode (heap w) a) ∧
    (∀ a, word_in_block (heap w') a ↔ word_in_block (heap w) a) ∧
    policies (heap w') = policies (heap w) ∧
    associativity (heap w') = associativity (heap w).
Proof.
  intros Hwf Hin Hg.
  destruct (decode_wf w address Hwf) as (offset & index & t & s & Hd & _ & Hs).
  destruct (list_find (matches t) (set_slots (heap w) s)) as [[j l]|] eqn:Hf.
  - destruct (cache_read_hit_wf w address g offset index t s j l)
      as (v & Hread & _); [done..|].
    pose proof (proj1 (list_find_Some _ _ _ _) Hf) as (Hj%lookup_lt_Some & _).
    rewrite (set_slots_length w index s) in Hj by done.
    eexists _, _. split; [exact Hread|].
    split; [apply wf_after_hit; [done..|lia]|].
    rewrite emit_heap. unfold touch, decode, word_in_block.
    by destruct (is_lru_or_mru _).
  - destruct (cache_read_miss_wf w address g offset index t s)
      as (v & Hread & Hwf' & _); [done..|].
    eexists _, _. split; [exact Hread|]. split; [done|].
    pose proof (selected_only_sets g (missed w index address) index s) as Hfr.
    destruct (selected g (missed w index address) index s) as [j w2].
    simpl in *.
    destruct (filled_geometry w2 (first_index s + j) t address _ eq_refl)
      as (H1 & H2 & H3 & H4 & H5 & H6).
    destruct (only_sets_geometry _ _ Hfr) as (G1 & G2 & G3 & G4 & G5 & G6).
    destruct (filled_shape w2 (first_index s + j) t address)
      as (_ & _ & _ & F4 & F5).
    unfold decode, word_in_block.
    rewrite H1, H2, H3, H4, H5, H6, G1, G2, G3, G4, G5, G6, F4, F5.
    unfold missed. rewrite !emit_heap. simpl.
    split; [done|]. split; [done|]. 
    rewrite Hfr. unfold missed. simpl. rewrite emit_heap. done.
Qed.

(** ** C7: an empty line is used before any line is replaced *)

Lemma first_unused_find w p s (j : nat) l :
  wf_world w → arr_load (sets (heap w)) p = Some s →
  slot (heap w) s (Z.of_nat j) = Some l → is_valid l = 0 →
  Z.of_nat j < size s →
  (∀ (i : nat) l', (i < j)%nat → slot (heap w) s (Z.of_nat i) = Some l' →
     is_valid l' ≠ 0) →
  list_find unused (set_slots (heap w) s) = Some (j, l).
Proof.
  intros Hwf Hs Hl Hv Hj Hbefore.
  pose proof (wf_first_index w p s Hwf Hs) as Hfi.
  apply list_find_Some. split; [|split; [done|]].
  - rewrite set_slots_lookup by lia. done.
  - intros i l' Hl' Hi. rewrite set_slots_lookup in Hl' by lia.
    by apply (Hbefore i l').
Qed.

(** C7.  Whatever the policy flags and the random source, when a set of a
    well-formed cache has a line with [is_valid = 0],
    [find_available_cache_line] returns the first such line in slot order:
    with slot [j] invalid and every slot before it valid, the result is
    line [first_index + j].  No line is changed by the call, so the line
    returned is one that was invalid. *)
Theorem find_available_prefers_first_invalid_line (w : world) (p : Z)
    (s : cache_set_t) (g : func_t) (j : Z) (l : cache_line_t) :
  wf_world w →
  arr_load (sets (heap w)) p = Some s →
  0 ≤ j < size s →
  slot (heap w) s j = Some l → is_valid l = 0 →
  (∀ i l', 0 ≤ i < j → slot (heap w) s i = Some l' → is_valid l' ≠ 0) →
  ∃ w',
    find_available_cache_line p g w = Some (first_index s + j, w') ∧
    lines (heap w') = lines (heap w) ∧
    arr_load (lines (heap w)) (first_index s + j) = Some l.
Proof.
  intros Hwf Hs Hj Hl Hv Hbefore.
  rewrite (find_available_cache_line_wf w p s g Hwf Hs).
  unfold selected.
  rewrite (first_unused_find w p s (Z.to_nat j) l); try done.
  - simpl. rewrite Z2Nat.id by lia. eexists. split; [done|].
    split; [apply touch_lines|done].
  - by rewrite Z2Nat.id by lia.
  - lia.
  - intros i l' Hi. apply Hbefore. lia.
Qed.

(** ** [cache_new] builds a well-formed cache *)

Lemma cache_set_init_keeps assoc (ls : list cache_line_t) fi :
  0 ≤ assoc → 0 ≤ fi → fi + assoc ≤ Z.of_nat (length ls) →
  ∃ ls',
    cache_set_init assoc ls fi
    = Some (CSet (to_int assoc) fi (seqZ 0 assoc), ls') ∧
    block <$> ls' = block <$> ls ∧
    (Forall unused ls → Forall unused ls').
Proof.
  intros Ha Hfi Hlen.
  destruct (cache_set_init_run assoc ls fi Ha Hfi Hlen) as (ls' & Hrun & Hls').
  exists ls'. split; [done|]. split.
  - apply list_eq. intros j. rewrite !list_lookup_fmap, Hls'.
    destruct (ls !! j); simpl; [|done]. by destruct (decide _).
  - rewrite !Forall_lookup. intros Hall j l' Hl'. rewrite Hls' in Hl'.
    destruct (ls !! j) as [l|] eqn:Hl; simpl in Hl'; [|done].
    injection Hl' as <-. destruct (decide _); [done|]. by eapply Hall.
Qed.

Lemma init_sets_run n assoc fi (ls : list cache_line_t) :
  0 < assoc → 0 ≤ fi →
  fi + Z.of_nat n * assoc ≤ Z.of_nat (length ls) →
  fi + Z.of_nat n * assoc < 2 ^ 31 →
  ∃ ls',
    init_sets n assoc fi ls
    = Some ((λ i, CSet (to_int assoc) (fi + i * assoc) (seqZ 0 assoc))
              <$> seqZ 0 (Z.of_nat n), ls') ∧
    block <$> ls' = block <$> ls ∧
    (Forall unused ls → Forall unused ls').
Proof.
  intros Ha. revert fi ls. induction n as [|n IH]; intros fi ls Hfi Hlen Hint.
  - exists ls. done.
  - destruct (cache_set_init_keeps assoc ls fi) as (ls1 & Hrun & Hblk & Hun);
      [lia|lia|nia|].
    simpl. rewrite Hrun. simpl.
    assert (length ls1 = length ls) as Hlen1.
    { by rewrite <- (length_fmap block), Hblk, length_fmap. }
    rewrite (to_int_small (fi + assoc)) by nia.
    destruct (IH (fi + assoc) ls1) as (ls2 & Hrun2 & Hblk2 & Hun2);
      [lia|rewrite Hlen1; nia|nia|].
    rewrite Hrun2. simpl. exists ls2. split; [|split].
    + do 2 f_equal. rewrite (seqZ_cons 0 (Z.of_nat (S n))) by lia.
      rewrite fmap_cons. f_equal; [f_equal; lia|].
      replace (Z.succ 0) with (1 + 0) by lia.
      replace (Z.pred (Z.of_nat (S n))) with (Z.of_nat n) by lia.
      rewrite <- (fmap_add_seqZ 1 0 (Z.of_nat n)), <- list_fmap_compose.
      apply list_fmap_ext. intros _ i _. simpl. f_equal. lia.
    + by rewrite Hblk2.
    + intros. by apply Hun2, Hun.
Qed.

Lemma logbase2_loop_pow fuel value ans :
  1 ≤ value →
  value < 2 ^ Z.of_nat fuel →
  2 ^ (logbase2_loop fuel value ans - ans) ≤ value.
Proof.
  revert value ans. induction fuel as [|fuel IH]; intros value ans Hv Hlt.
  - simpl. rewrite Z.sub_diag. simpl. lia.
  - simpl. destruct (decide _) as [Hgt|]; [|rewrite Z.sub_diag; simpl; lia].
    rewrite Z.shiftr_div_pow2 by lia. change (2 ^ 1) with 2.
    rewrite Nat2Z.inj_succ, Z.pow_succ_r in Hlt by lia.
    specialize (IH (value `div` 2) (ans + 1)).
    pose proof (logbase2_loop_range fuel (value `div` 2) (ans + 1)).
    replace (logbase2_loop fuel (value `div` 2) (ans + 1) - ans)
      with (Z.succ (logbase2_loop fuel (value `div` 2) (ans + 1) - (ans + 1)))
      by lia.
    rewrite Z.pow_succ_r by lia.
    assert (2 ^ (logbase2_loop fuel (value `div` 2) (ans + 1) - (ans + 1))
            ≤ value `div` 2) as Hle.
    { apply IH; [|apply Z.div_lt_upper_bound; lia].
      apply Z.div_le_lower_bound; lia. }
    pose proof (Z.mul_div_le value 2). lia.
Qed.

(** The number of sets a power of [logbase2] reaches. *)
Lemma logbase2_pow value :
  1 ≤ value < 2 ^ 31 → 2 ^ logbase2 value ≤ value.
Proof.
  intros Hv. pose proof (logbase2_loop_pow 31 value 0) as H.
  rewrite Z.sub_0_r in H. apply H; lia.
Qed.

Lemma logbase2_ge_1 value : 2 ≤ value → 1 ≤ logbase2 value.
Proof.
  intros Hv. unfold logbase2.
  change (logbase2_loop 31 value 0)
    with (if decide (value > 1)
          then logbase2_loop 30 (Z.shiftr value 1) (0 + 1) else 0).
  rewrite decide_True by lia.
  pose proof (logbase2_loop_range 30 (Z.shiftr value 1) (0 + 1)). lia.
Qed.

(** [cache_new] on sizes that fit: the line and set counts are those of the
    divisions, every line is invalid, every recency list is 0, 1, ...,
    associativity - 1. *)
Lemma cache_new_run num_bytes block_size assoc pol nl ns a b :
  0 ≤ num_bytes → 2 ≤ block_size < 2 ^ 31 → 0 < assoc < 2 ^ 31 →
  nl = num_bytes `div` block_size → ns = nl `div` assoc →
  a = logbase2 block_size → b = logbase2 ns →
  nl < 2 ^ 31 → 1 ≤ ns →
  ∃ ls,
    cache_new num_bytes block_size assoc pol =
    Some (Cache ns nl block_size assoc (Z.ones a) (Z.shiftl (Z.ones b) a) a
            (Z.shiftl (Z.ones (64 - (a + b))) (a + b)) (a + b) (to_uint pol)
            (replicate (Z.to_nat num_bytes) "000"%byte) ls
            ((λ i, CSet assoc (i * assoc) (seqZ 0 assoc)) <$> seqZ 0 ns)
            0 0) ∧
    block <$> ls = (λ i, i * block_size) <$> seqZ 0 nl ∧
    Forall unused ls.
Proof.
  intros Hnb Hbs Hassoc Enl Ens Ea Eb Hnl Hns.
  assert (0 ≤ nl) as Hnl0 by (subst nl; apply Z.div_pos; lia).
  assert (ns * assoc ≤ nl) as Hfit.
  { subst ns. rewrite Z.mul_comm. apply Z.mul_div_le. lia. }
  assert (ns ≤ nl) as Hnsnl by nia.
  destruct (init_sets_run (Z.to_nat ns) assoc 0 (init_lines nl block_size))
    as (ls & Hrun & Hblk & Hun).
  { lia. } { lia. }
  { unfold init_lines. rewrite length_fmap, length_seqZ. lia. }
  { lia. }
  exists ls. split; [|split].
  - unfold cache_new.
    rewrite decide_False by lia. rewrite decide_False by lia.
    rewrite <- Enl, (to_uint_small nl) by lia.
    rewrite <- Ens, (to_uint_small ns) by lia.
    rewrite (to_int_small block_size), (to_int_small ns) by lia.
    rewrite <- Ea, <- Eb.
    pose proof (logbase2_range block_size) as Har.
    pose proof (logbase2_range ns) as Hbr.
    rewrite <- Ea in Har. rewrite <- Eb in Hbr.
    assert (1 ≤ a) by (rewrite Ea; apply logbase2_ge_1; lia).
    rewrite (to_uint_small a), (to_uint_small b) by lia.
    rewrite (to_int_small a), (to_int_small b) by lia.
    rewrite (to_uint_small (a + b)) by lia.
    rewrite (to_uint_small (64 - (a + b))) by lia.
    rewrite (to_int_small (64 - (a + b))) by lia.
    rewrite (maskbits_ones a), (maskbits_ones b),
      (maskbits_ones (64 - (a + b))) by lia.
    simpl. rewrite Hrun. simpl.
    pose proof (shiftl_ones_range a b) as Hr1.
    assert (2 ^ (a + b) ≤ 2 ^ 64) by (apply Z.pow_le_mono_r; lia).
    pose proof (shiftl_ones_range (a + b) (64 - (a + b))) as Hr2.
    replace (a + b + (64 - (a + b))) with 64 in Hr2 by lia.
    rewrite !to_u64_small by lia.
    do 2 f_equal. rewrite Z2Nat.id by lia. apply list_fmap_ext. intros _ i _.
    rewrite (to_int_small assoc) by lia. by rewrite Z.add_0_l.
  - rewrite Hblk. unfold init_lines. rewrite <- list_fmap_compose. done.
  - apply Hun. unfold init_lines. apply Forall_fmap, Forall_true. done.
Qed.

(** Every cache that [cache_new] builds from sizes that fit is well formed
    and empty. *)
Lemma cache_new_wf num_bytes block_size assoc pol :
  0 ≤ num_bytes → 2 ≤ block_size < 2 ^ 31 → 0 < assoc < 2 ^ 31 →
  num_bytes `div` block_size < 2 ^ 31 →
  1 ≤ (num_bytes `div` block_size) `div` assoc →
  ∃ c,
    cache_new num_bytes block_size assoc pol = Some c ∧
    wf_cache c ∧ Forall unused (lines c) ∧
    Forall (λ s, mru_list s = seqZ 0 assoc) (sets c) ∧
    policies c = to_uint pol ∧ associativity c = assoc ∧
    line_size c = block_size ∧ access_count c = 0 ∧ miss_count c = 0.
Proof.
  intros Hnb Hbs Hassoc Hnl Hns.
  destruct (cache_new_run num_bytes block_size assoc pol _ _ _ _
              Hnb Hbs Hassoc eq_refl eq_refl eq_refl eq_refl Hnl Hns)
    as (ls & Hrun & Hblk & Hun).
  remember (num_bytes `div` block_size) as nl eqn:Enl.
  remember (nl `div` assoc) as ns eqn:Ens.
  remember (logbase2 block_size) as a eqn:Ea.
  remember (logbase2 ns) as b eqn:Eb.
  eexists. split; [exact Hrun|].
  assert (0 ≤ nl) as Hnl0 by (subst nl; apply Z.div_pos; lia).
  assert (ns * assoc ≤ nl) as Hfit.
  { subst ns. rewrite Z.mul_comm. apply Z.mul_div_le. lia. }
  assert (length ls = Z.to_nat nl) as Hlen.
  { by rewrite <- (length_fmap block), Hblk, length_fmap, length_seqZ. }
  pose proof (logbase2_range block_size) as Har.
  pose proof (logbase2_range ns) as Hbr.
  rewrite <- Ea in Har. rewrite <- Eb in Hbr.
  split; [|split; [done|split; [|done]]].
  - constructor; simpl; try lia.
    + intros p s. rewrite list_lookup_fmap.
      destruct (seqZ 0 ns !! p) as [i|] eqn:Hi; simpl; [|done].
      apply lookup_seqZ in Hi as [-> _]. by intros [= <-].
    + rewrite length_fmap, length_seqZ. lia.
    + intros j l Hl.
      assert ((block <$> ls) !! j = Some (block l)) as H
        by by rewrite list_lookup_fmap, Hl.
      rewrite Hblk, list_lookup_fmap in H.
      destruct (seqZ 0 nl !! j) as [i|] eqn:Hi; simpl in H; [|done].
      apply lookup_seqZ in Hi as [-> _]. by injection H as <-.
    + rewrite length_replicate, Hlen.
      assert (block_size * nl ≤ num_bytes)
        by (subst nl; apply Z.mul_div_le; lia).
      lia.
    + rewrite length_fmap, length_seqZ.
      pose proof (shiftl_ones_range a b). split; [lia|].
      rewrite Z.shiftr_shiftl_l, Z.sub_diag, Z.shiftl_0_r by lia.
      rewrite Z.ones_equiv.
      assert (ns ≤ nl) by nia.
      pose proof (logbase2_pow ns) as Hpow. rewrite <- Eb in Hpow. lia.
  - apply Forall_fmap, Forall_true. done.
Qed.

(** ** The two ways a read goes *)

(** What a read that has returned on a well-formed cache has done. *)
Lemma cache_read_cases w address g v w1 :
  wf_world w → nonneg_source g →
  cache_read address g w = Some (v, w1) →
  ∃ offset index t s,
    decode (heap w) address = Some (offset, index, t) ∧
    arr_load (sets (heap w)) index = Some s ∧
    ((∃ j l,
        list_find (matches t) (set_slots (heap w) s) = Some (j, l) ∧
        w1 = emit (trace_record_hit index address)
               (count_access (touch w index s (Z.of_nat j))) ∧
        cache_line_retrieve_data (first_index s + Z.of_nat j) offset w1
        = Some (v, w1))
     ∨
     (list_find (matches t) (set_slots (heap w) s) = None ∧
      w1 = filled (selected g (missed w index address) index s).2
             (first_index s
              + (selected g (missed w index address) index s).1) t address ∧
      cache_line_retrieve_data
        (first_index s + (selected g (missed w index address) index s).1)
        offset w1 = Some (v, w1) ∧
      0 ≤ (selected g (missed w index address) index s).1
        < associativity (heap w))).
Proof.
  intros Hwf Hg Hread.
  destruct (decode_wf w address Hwf) as (offset & index & t & s & Hd & _ & Hs).
  exists offset, index, t, s. split; [done|]. split; [done|].
  rewrite cache_read_unfold, Hd in Hread.
  rewrite (cache_set_find_matching_line_wf w index s t Hwf Hs) in Hread.
  destruct (list_find (matches t) (set_slots (heap w) s)) as [[j l]|] eqn:Hf.
  - left. exists j, l. split; [done|].
    pose proof (cache_line_retrieve_data_Some _ _ _ _ _ Hread) as ->. done.
  - right. split; [done|]. fold (missed w index address) in Hread.
    destruct (missed_heap w index address) as (Hss & _ & _ & _ & Hk & _).
    pose proof (wf_missed w index address Hwf) as Hwf1.
    assert (arr_load (sets (heap (missed w index address))) index = Some s)
      as Hs1 by by rewrite Hss.
    rewrite (bind_run _ _ _ _ _
               (cache_set_add_wf _ index s address t g Hwf1 Hs1 Hg)) in Hread.
    pose proof (cache_line_retrieve_data_Some _ _ _ _ _ Hread) as ->.
    split; [done|]. split; [done|].
    rewrite <- Hk. by apply selected_slot.
Qed.

Lemma wf_after_read w address g v w1 :
  wf_world w → nonneg_source g →
  cache_read address g w = Some (v, w1) →
  wf_world w1 ∧
  (∀ a, decode (heap w1) a = decode (heap w) a) ∧
  policies (heap w1) = policies (heap w) ∧
  associativity (heap w1) = associativity (heap w).
Proof.
  intros Hwf Hg Hread.
  destruct (cache_read_cases w address g v w1 Hwf Hg Hread)
    as (offset & index & t & s & Hd & Hs & [(j & l & Hf & -> & _)|
                                            (Hf & -> & _ & Hj)]).
  - pose proof (proj1 (list_find_Some _ _ _ _) Hf) as (Hj%lookup_lt_Some & _).
    rewrite (set_slots_length w index s) in Hj by done.
    split; [apply wf_after_hit; [done..|lia]|].
    rewrite emit_heap. unfold touch, decode.
    by destruct (is_lru_or_mru _).
  - pose proof (wf_missed w index address Hwf) as Hwf1.
    destruct (missed_heap w index address) as (Hss & _ & _ & _ & Hk & _).
    assert (arr_load (sets (heap (missed w index address))) index = Some s)
      as Hs1 by by rewrite Hss.
    pose proof (wf_selected g _ index s Hwf1 Hs1) as Hwf2.
    pose proof (selected_only_sets g (missed w index address) index s) as Hfr.
    destruct (selected g (missed w index address) index s) as [j' w2].
    simpl in *.
    split; [by apply wf_filled|].
    destruct (filled_geometry w2 (first_index s + j') t address _ eq_refl)
      as (H1 & H2 & H3 & H4 & H5 & H6).
    destruct (only_sets_geometry _ _ Hfr) as (G1 & G2 & G3 & G4 & G5 & G6).
    destruct (filled_shape w2 (first_index s + j') t address)
      as (_ & _ & _ & F4 & F5).
    unfold decode.
    rewrite H1, H2, H3, H4, H5, G1, G2, G3, G4, G5, F4, F5.
    unfold missed. rewrite !emit_heap. simpl.
    split; [done|]. rewrite Hfr. unfold missed. simpl. rewrite emit_heap.
    done.
Qed.

Lemma set_slots_same c c' s s' :
  lines c' = lines c → size s' = size s → first_index s' = first_index s →
  set_slots c' s' = set_slots c s.
Proof. unfold set_slots. by intros -> -> ->. Qed.

Lemma wf_set_same w w' p s s' :
  wf_world w → wf_world w' →
  associativity (heap w') = associativity (heap w) →
  arr_load (sets (heap w)) p = Some s →
  arr_load (sets (heap w')) p = Some s' →
  size s' = size s ∧ first_index s' = first_index s.
Proof.
  intros Hwf Hwf' Hk Hs Hs'.
  destruct (wf_set_at w p s Hwf Hs) as (_ & -> & -> & _).
  destruct (wf_set_at w' p s' Hwf' Hs') as (_ & -> & -> & _).
  by rewrite Hk.
Qed.

Lemma list_find_insert_first {A} (P : A → Prop) `{∀ x, Decision (P x)}
    (l : list A) (j : nat) (x : A) :
  (∀ i y, (i < j)%nat → l !! i = Some y → ¬ P y) →
  P x → (j < length l)%nat →
  list_find P (<[j := x]> l) = Some (j, x).
Proof.
  intros Hbefore Hx Hj. apply list_find_Some. split; [|split; [done|]].
  - by apply list_lookup_insert_eq.
  - intros i y Hy Hi. rewrite list_lookup_insert_ne in Hy by lia.
    by eapply Hbefore.
Qed.

(** The lines of a set after one of them has been filled. *)
Lemma set_slots_filled w s s' (j : Z) t address l :
  0 ≤ first_index s → 0 ≤ j < size s →
  size s' = size s → first_index s' = first_index s →
  arr_load (lines (heap w)) (first_index s + j) = Some l →
  set_slots (heap (filled w (first_index s + j) t address)) s'
  = <[Z.to_nat j := Line 1 t (block l)]> (set_slots (heap w) s).
Proof.
  intros Hfi0 Hj Hsz Hfi Hl. unfold set_slots, filled.
  rewrite Hl, Hsz, Hfi.
  cbn [heap lines set_memory set_lines].
  rewrite drop_insert_ge by lia. rewrite take_insert_lt by lia.
  do 2 f_equal. lia.
Qed.

(** ** C9: reading an address again *)

Lemma matches_filled t blk : matches t (Line 1 t blk).
Proof.
  unfold matches, cache_line_check_validity_and_tag.
  cbn [is_valid tag]. rewrite decide_True by done. by rewrite decide_True.
Qed.

(** After a read, its address is cached and reads as the word returned. *)
Lemma cached_after_read w address g v w1 :
  wf_world w → nonneg_source g →
  cache_read address g w = Some (v, w1) →
  cached w1 address v.
Proof.
  intros Hwf Hg Hread.
  destruct (wf_after_read w address g v w1 Hwf Hg Hread)
    as (Hwf1 & Hdec & _ & Hk).
  destruct (cache_read_cases w address g v w1 Hwf Hg Hread)
    as (offset & index & t & s & Hd & Hs & Hcases).
  destruct (decode_wf w1 address Hwf1)
    as (offset' & index' & t' & s' & Hd' & _ & Hs').
  rewrite Hdec, Hd in Hd'. injection Hd' as <- <- <-.
  destruct (wf_set_same w w1 index s s' Hwf Hwf1 Hk Hs Hs') as [Hsz Hfi].
  destruct Hcases as [(j & l & Hf & Hw1 & Hv)|(Hf & Hw1 & Hv & Hj)].
  - exists offset, index, t, s', j, l. split; [by rewrite Hdec|].
    split; [done|]. split; [|by rewrite Hfi].
    rewrite <- Hf. f_equal. apply set_slots_same; [|done..].
    rewrite Hw1, emit_heap. simpl. apply touch_lines.
  - pose proof (wf_missed w index address Hwf) as Hwfm.
    destruct (missed_heap w index address) as (Hss & Hls & _ & _ & Hkm & _).
    assert (arr_load (sets (heap (missed w index address))) index = Some s)
      as Hsm by by rewrite Hss.
    pose proof (wf_selected g _ index s Hwfm Hsm) as Hwf2.
    pose proof (selected_only_sets g (missed w index address) index s) as Hfr.
    destruct (selected g (missed w index address) index s) as [j w2].
    simpl in *.
    assert (lines (heap w2) = lines (heap w)) as Hl2 by by rewrite Hfr.
    pose proof (wf_slot_line w index s j Hwf Hs Hj) as Hline.
    rewrite <- Hl2 in Hline. destruct (arr_load_lt _ _ Hline) as [l Hl].
    destruct (wf_set_at w index s Hwf Hs) as (_ & Hsz' & _ & _).
    pose proof (wf_first_index w index s Hwf Hs) as Hfi0.
    exists offset, index, t, s', (Z.to_nat j), (Line 1 t (block l)).
    split; [by rewrite Hdec|]. split; [done|].
    split; [|by rewrite Hfi, Z2Nat.id by lia].
    rewrite Hw1.
    rewrite (set_slots_filled w2 s s' j t address l) by (done || lia).
    apply list_find_insert_first.
    + intros i y _ Hy. rewrite (set_slots_same (heap w) (heap w2) s s) in Hy by done.
      apply list_find_None in Hf. rewrite Forall_lookup in Hf.
      by eapply Hf.
    + apply matches_filled.
    + rewrite (set_slots_same (heap w) (heap w2) s s) by done.
      rewrite (set_slots_length w index s) by done. lia.
Qed.

Lemma touch_set w p s j :
  arr_load (sets (heap w)) p = Some s →
  ∃ s', arr_load (sets (heap (touch w p s j))) p = Some s' ∧
    size s' = size s ∧ first_index s' = first_index s.
Proof.
  intros Hs. unfold touch. destruct (is_lru_or_mru _).
  - eexists. split; [by apply with_mru_lookup|done].
  - by exists s.
Qed.

(** A read of a cached address is a hit: it returns the cached word, counts
    no miss, and leaves the address cached. *)
Lemma read_cached w address g v :
  wf_world w → cached w address v →
  ∃ w1,
    cache_read address g w = Some (v, w1) ∧
    miss_count (heap w1) = miss_count (heap w) ∧
    wf_world w1 ∧ cached w1 address v ∧ lookup_hits w address.
Proof.
  intros Hwf (offset & index & t & s & j & l & Hd & Hs & Hf & Hv).
  pose proof (proj1 (list_find_Some _ _ _ _) Hf) as (Hj%lookup_lt_Some & _).
  rewrite (set_slots_length w index s) in Hj by done.
  assert (0 ≤ Z.of_nat j < associativity (heap w)) as Hj' by lia.
  eexists. split; [|split; [|split; [|split]]].
  - rewrite cache_read_unfold, Hd.
    rewrite (cache_set_find_matching_line_wf w index s t Hwf Hs), Hf.
    eapply cache_line_retrieve_data_frame; [| |exact Hv].
    + by rewrite emit_heap, <- (touch_lines w index s (Z.of_nat j)).
    + rewrite emit_heap. simpl. unfold touch.
      by destruct (is_lru_or_mru _).
  - rewrite emit_heap. simpl. unfold touch. by destruct (is_lru_or_mru _).
  - by apply wf_after_hit.
  - destruct (touch_set w index s (Z.of_nat j) Hs) as (s' & Hs' & Hsz & Hfi).
    exists offset, index, t, s', j, l. split; [|split; [|split]].
    + rewrite emit_heap. unfold touch, decode in *.
      by destruct (is_lru_or_mru _).
    + by rewrite emit_heap.
    + rewrite <- Hf. f_equal. apply set_slots_same; [|done..].
      rewrite emit_heap. simpl. apply touch_lines.
    + rewrite Hfi.
      eapply cache_line_retrieve_data_frame; [| |exact Hv].
      * by rewrite emit_heap, <- (touch_lines w index s (Z.of_nat j)).
      * rewrite emit_heap. simpl. unfold touch.
        by destruct (is_lru_or_mru _).
  - exists offset, index, t, (first_index s + Z.of_nat j), 
      (touch w index s (Z.of_nat j)).
    split; [done|].
    by rewrite (cache_set_find_matching_line_wf w index s t Hwf Hs), Hf.
Qed.

Lemma reads_cached w address g v n :
  wf_world w → cached w address v →
  ∃ w1,
    read_all (replicate n address) g w = Some (replicate n v, w1) ∧
    miss_count (heap w1) = miss_count (heap w).
Proof.
  revert w. induction n as [|n IH]; intros w Hwf Hc.
  - by exists w.
  - destruct (read_cached w address g v Hwf Hc)
      as (w1 & Hread & Hm & Hwf1 & Hc1 & _).
    destruct (IH w1 Hwf1 Hc1) as (w2 & Hreads & Hm2).
    exists w2. simpl.
    rewrite (bind_run _ _ _ _ _ Hread), (bind_run _ _ _ _ _ Hreads).
    split; [done|]. by rewrite Hm2.
Qed.

(** C9.  On a well-formed cache, with a random source that returns no
    negative number, once a [cache_read] of an address has returned, every
    further [cache_read] of that address, with no other access in between,
    finds the line (its lookup hits), leaves [miss_count] as it is and
    returns the word the first read returned; this holds for every value of
    the policy flags. *)
Theorem repeated_read_hits_with_same_word (w : world) (address : Z)
    (g : func_t) (v : Z) (w1 : world) :
  wf_world w → nonneg_source g →
  cache_read address g w = Some (v, w1) →
  lookup_hits w1 address ∧
  ∀ n : nat, ∃ w2,
    read_all (replicate n address) g w1 = Some (replicate n v, w2) ∧
    miss_count (heap w2) = miss_count (heap w1).
Proof.
  intros Hwf Hg Hread.
  destruct (wf_after_read w address g v w1 Hwf Hg Hread) as (Hwf1 & _).
  pose proof (cached_after_read w address g v w1 Hwf Hg Hread) as Hc.
  split.
  - by destruct (read_cached w1 address g v Hwf1 Hc) as (_ & _ & _ & _ & _ & ?).
  - intros n. by apply reads_cached.
Qed.

(** ** The example configurations are well formed *)

Lemma lru_cache_wf : wf_cache lru_cache.
Proof.
  destruct (cache_new_wf 16 4 4 CACHE_REPLACEMENTPOLICY_LRU)
    as (c & Hc & Hwf & _); [lia|lia|lia|done|done|].
  rewrite lru_cache_new in Hc. by injection Hc as ->.
Qed.

Lemma zero_rng_nonneg : nonneg_source zero_rng.
Proof. intros n. unfold zero_rng. lia. Qed.

Lemma lru_cache_read_16 :
  cache_read 16 zero_rng (boot lru_cache zero_ram)
  = Some (0, boot lru_cache_after_16 zero_ram).
Proof. vm_compute. reflexivity. Qed.

Lemma lru_cache_after_16_wf : wf_cache lru_cache_after_16.
Proof.
  by destruct (wf_after_read (boot lru_cache zero_ram) 16 zero_rng 0
                 (boot lru_cache_after_16 zero_ram) lru_cache_wf
                 zero_rng_nonneg lru_cache_read_16) as [? _].
Qed.

Lemma find_available_prefers_first_invalid_line_witness :
  ∃ w',
    find_available_cache_line 0 zero_rng (boot lru_cache_after_16 zero_ram)
    = Some (0 + 1, w') ∧
    lines (heap w') = lines (heap (boot lru_cache_after_16 zero_ram)) ∧
    arr_load (lines (heap (boot lru_cache_after_16 zero_ram))) (0 + 1)
    = Some (Line 0 0 4).
Proof.
  apply (find_available_prefers_first_invalid_line
           (boot lru_cache_after_16 zero_ram) 0 (CSet 4 0 [0; 1; 2; 3])
           zero_rng 1 (Line 0 0 4)).
  - exact lru_cache_after_16_wf.
  - reflexivity.
  - simpl. lia.
  - reflexivity.
  - reflexivity.
  - intros i l' Hi. assert (i = 0) as -> by lia.
    vm_compute. intros [= <-]. discriminate.
Defined.

Lemma repeated_read_hits_with_same_word_witness :
  lookup_hits (boot lru_cache_after_16 zero_ram) 16 ∧
  ∀ n : nat, ∃ w2,
    read_all (replicate n 16) zero_rng (boot lru_cache_after_16 zero_ram)
    = Some (replicate n 0, w2) ∧
    miss_count (heap w2)
    = miss_count (heap (boot lru_cache_after_16 zero_ram)).
Proof.
  apply (repeated_read_hits_with_same_word (boot lru_cache zero_ram) 16
           zero_rng 0 (boot lru_cache_after_16 zero_ram)).
  - exact lru_cache_wf.
  - exact zero_rng_nonneg.
  - vm_compute. reflexivity.
Defined.

(** ** Filling a set, and what is replaced when it is full *)

Lemma geometry_decode c c' a :
  geometry c' = geometry c → decode c' a = decode c a.
Proof. unfold geometry, decode. by intros [= _ _ _ _ -> -> -> -> -> _]. Qed.

Lemma geometry_word_in_block c c' a :
  geometry c' = geometry c → (word_in_block c' a ↔ word_in_block c a).
Proof. unfold geometry, word_in_block. by intros [= _ _ -> _ -> _ _ _ _ _]. Qed.

Lemma geometry_maps_to c c' index a t :
  geometry c' = geometry c → maps_to c index a t → maps_to c' index a t.
Proof.
  intros Hg (offset & Hd & Hin). exists offset.
  by rewrite (geometry_decode c c'), (geometry_word_in_block c c').
Qed.

Lemma geometry_missed w index address :
  geometry (heap (missed w index address)) = geometry (heap w).
Proof. unfold missed. by rewrite emit_heap. Qed.

Lemma geometry_filled w line t address :
  geometry (heap (filled w line t address)) = geometry (heap w).
Proof. unfold filled. by destruct (arr_load _ _). Qed.

Lemma filled_order_0 k : filled_order 0 k = seqZ 0 k.
Proof. unfold filled_order. simpl. by rewrite Z.sub_0_r. Qed.

Lemma filled_order_full (k : nat) :
  filled_order k (Z.of_nat k) = reverse (seqZ 0 (Z.of_nat k)).
Proof.
  unfold filled_order. rewrite Z.sub_diag. by rewrite app_nil_r.
Qed.

Lemma promote_filled_order (n : nat) k :
  Z.of_nat n < k →
  promote (Z.of_nat n) (filled_order n k) = filled_order (S n) k.
Proof.
  intros Hn. unfold promote, filled_order.
  rewrite (seqZ_cons (Z.of_nat n)) by lia.
  rewrite remove_first_app.
  - rewrite seqZ_S, reverse_app. simpl.
    do 3 f_equal; lia.
  - rewrite elem_of_reverse, elem_of_seqZ. lia.
Qed.

Lemma reverse_seqZ_S (n : nat) :
  reverse (seqZ 0 (Z.of_nat (S n))) = Z.of_nat n :: reverse (seqZ 0 (Z.of_nat n)).
Proof. by rewrite seqZ_S, reverse_app. Qed.

Lemma last_reverse_seqZ (n : nat) :
  last (reverse (seqZ 0 (Z.of_nat (S n)))) = Some 0.
Proof.
  rewrite seqZ_cons by lia. rewrite reverse_cons. apply last_snoc.
Qed.

Lemma promote_last_reverse_seqZ (n : nat) :
  promote 0 (reverse (seqZ 0 (Z.of_nat (S n))))
  = 0 :: reverse (seqZ 1 (Z.of_nat n)).
Proof.
  unfold promote. rewrite seqZ_cons by lia. rewrite reverse_cons.
  replace (Z.pred (Z.of_nat (S n))) with (Z.of_nat n) by lia.
  replace (reverse (seqZ (Z.succ 0) (Z.of_nat n)) ++ [0])
    with (reverse (seqZ (Z.succ 0) (Z.of_nat n)) ++ 0 :: []) by done.
  rewrite remove_first_app.
  - by rewrite app_nil_r.
  - rewrite elem_of_reverse, elem_of_seqZ. lia.
Qed.

(** A tag that the set does not hold matches no line. *)
Lemma set_holds_no_match w p s ts mru t :
  arr_load (sets (heap w)) p = Some s →
  set_holds w p ts mru → t ∉ ts →
  list_find (matches t) (set_slots (heap w) s) = None.
Proof.
  intros Hs (s' & Hs' & _ & Hslots) Ht. rewrite Hs in Hs'.
  injection Hs' as <-. apply list_find_None, Forall_lookup.
  intros i l Hl. specialize (Hslots i l Hl).
  unfold matches, cache_line_check_validity_and_tag.
  destruct (ts !! i) as [t'|] eqn:Hti.
  - destruct Hslots as [Hv Htag]. rewrite decide_True by done.
    rewrite decide_False; [by intros H; apply H|]. intros <-. apply Ht.
    rewrite Htag. by eapply list_elem_of_lookup_2.
  - rewrite decide_False by lia. by intros H; apply H.
Qed.

(** The first invalid slot of a set that holds [ts] is slot [length ts]. *)
Lemma set_holds_first_unused w p s ts mru :
  wf_world w → arr_load (sets (heap w)) p = Some s →
  set_holds w p ts mru →
  Z.of_nat (length ts) < associativity (heap w) →
  ∃ l, list_find unused (set_slots (heap w) s) = Some (length ts, l).
Proof.
  intros Hwf Hs (s' & Hs' & _ & Hslots) Hlen. rewrite Hs in Hs'.
  injection Hs' as <-.
  assert (is_Some (set_slots (heap w) s !! length ts)) as [l Hl].
  { apply lookup_lt_is_Some. rewrite (set_slots_length w p s) by done. lia. }
  exists l. apply list_find_Some. split; [done|]. split.
  - specialize (Hslots _ _ Hl). by rewrite lookup_ge_None_2 in Hslots by lia.
  - intros i l' Hl' Hi. specialize (Hslots _ _ Hl').
    destruct (lookup_lt_is_Some_2 ts i Hi) as [t Ht]. rewrite Ht in Hslots.
    unfold unused. by destruct Hslots.
Qed.

(** A set that holds as many tags as it has lines has no invalid slot. *)
Lemma set_holds_all_used w p s ts mru :
  wf_world w → arr_load (sets (heap w)) p = Some s →
  set_holds w p ts mru →
  Z.of_nat (length ts) = associativity (heap w) →
  list_find unused (set_slots (heap w) s) = None.
Proof.
  intros Hwf Hs (s' & Hs' & _ & Hslots) Hlen. rewrite Hs in Hs'.
  injection Hs' as <-. apply list_find_None, Forall_lookup.
  intros i l Hl. specialize (Hslots i l Hl).
  pose proof (lookup_lt_Some _ _ _ Hl) as Hi.
  rewrite (set_slots_length w p s) in Hi by done.
  destruct (lookup_lt_is_Some_2 ts i ltac:(lia)) as [t Ht].
  rewrite Ht in Hslots. unfold unused. by destruct Hslots.
Qed.

Lemma missed_set_slots w index address s :
  set_slots (heap (missed w index address)) s = set_slots (heap w) s.
Proof. unfold missed, set_slots. by rewrite emit_heap. Qed.

Lemma missed_is_lru_or_mru w index address :
  is_lru_or_mru (heap (missed w index address)) = is_lru_or_mru (heap w).
Proof. unfold missed, is_lru_or_mru. by rewrite emit_heap. Qed.

Lemma missed_misses w address offset index t s :
  wf_world w → decode (heap w) address = Some (offset, index, t) →
  arr_load (sets (heap w)) index = Some s →
  list_find (matches t) (set_slots (heap w) s) = None →
  lookup_misses w address.
Proof.
  intros Hwf Hd Hs Hf. exists offset, index, t, w. split; [done|].
  by rewrite (cache_set_find_matching_line_wf w index s t Hwf Hs), Hf.
Qed.

(** The set after its recency list has been set to [mru'] and its slot [j]
    filled with tag [t]. *)
Lemma set_holds_after_fill w index s ts ts' mru mru' (j : nat) t address :
  wf_world w → arr_load (sets (heap w)) index = Some s →
  set_holds w index ts mru →
  Z.of_nat j < associativity (heap w) →
  ts' !! j = Some t → (∀ i : nat, i ≠ j → ts' !! i = ts !! i) →
  set_holds
    (filled (with_mru w index mru') (first_index s + Z.of_nat j) t address)
    index ts' mru'.
Proof.
  intros Hwf Hs (s0 & Hs0 & _ & Hslots) Hj Htj Hts'.
  rewrite Hs in Hs0. injection Hs0 as <-.
  destruct (wf_set_at w index s Hwf Hs) as (_ & Hsz & _ & _).
  pose proof (wf_first_index w index s Hwf Hs) as Hfi0.
  pose proof (wf_slot_line w index s (Z.of_nat j) Hwf Hs ltac:(lia)) as Hline.
  destruct (arr_load_lt _ _ Hline) as [l0 Hl0].
  exists (CSet (size s) (first_index s) mru'). split; [|split; [done|]].
  - destruct (filled_shape (with_mru w index mru')
                (first_index s + Z.of_nat j) t address) as (_ & _ & -> & _).
    by apply with_mru_lookup.
  - rewrite (set_slots_filled (with_mru w index mru') s _ (Z.of_nat j)
               t address l0) by (done || lia).
    rewrite Nat2Z.id.
    replace (set_slots (heap (with_mru w index mru')) s)
      with (set_slots (heap w) s) by done.
    intros i l Hl. destruct (decide (i = j)) as [->|Hij].
    + rewrite list_lookup_insert_eq in Hl
        by (rewrite (set_slots_length w index s) by done; lia).
      injection Hl as <-. rewrite Htj. done.
    + rewrite list_lookup_insert_ne in Hl by done.
      rewrite Hts' by done. by apply Hslots.
Qed.

(** One more line of a set is filled: a read whose tag the set does not
    hold, while the set has an invalid slot, misses and fills the first
    invalid slot.  Under LRU and under MRU that slot becomes the most
    recent one. *)
Lemma fill_step w g index ts address t :
  wf_world w → is_lru_or_mru (heap w) = true →
  set_holds w index ts (filled_order (length ts) (associativity (heap w))) →
  Z.of_nat (length ts) < associativity (heap w) →
  maps_to (heap w) index address t → t ∉ ts →
  ∃ v w',
    cache_read address g w = Some (v, w') ∧ wf_world w' ∧
    geometry (heap w') = geometry (heap w) ∧
    lookup_misses w address ∧
    set_holds w' index (ts ++ [t])
      (filled_order (S (length ts)) (associativity (heap w))).
Proof.
  intros Hwf Hpol Hholds Hlen (offset & Hd & Hin) Ht.
  pose proof Hholds as (s & Hs & Hmru & Hslots).
  pose proof (set_holds_no_match w index s ts _ t Hs Hholds Ht) as Hnm.
  destruct (set_holds_first_unused w index s ts _ Hwf Hs Hholds Hlen)
    as [l Hfu].
  assert (selected g (missed w index address) index s
          = (Z.of_nat (length ts),
             with_mru (missed w index address) index
               (filled_order (S (length ts)) (associativity (heap w)))))
    as Hsel.
  { unfold selected. rewrite missed_set_slots, Hfu. unfold touch.
    rewrite missed_is_lru_or_mru, Hpol, Hmru.
    by rewrite promote_filled_order. }
  destruct (cache_read_miss_slot w address g offset index t s)
    as (v & Hread & Hwf' & _); [done..|rewrite Hsel; simpl; lia|].
  rewrite Hsel in Hread, Hwf'. simpl in Hread, Hwf'.
  eexists _, _. split; [exact Hread|]. split; [done|].
  split; [|split].
  - rewrite geometry_filled. apply geometry_missed.
  - by eapply missed_misses.
  - pose proof (wf_missed w index address Hwf) as Hwfm.
    destruct (missed_heap w index address) as (Hss & _ & _ & _ & Hk & _).
    eapply (set_holds_after_fill (missed w index address) index s ts).
    + done.
    + by rewrite Hss.
    + exists s. split; [by rewrite Hss|]. split; [done|].
      intros i l'. rewrite missed_set_slots. apply Hslots.
    + rewrite Hk. lia.
    + by rewrite lookup_app_r, Nat.sub_diag by lia.
    + intros i Hi. destruct (decide (i < length ts)%nat).
      * by rewrite lookup_app_l by lia.
      * rewrite !lookup_ge_None_2; [done|lia|].
        rewrite length_app. simpl. lia.
Qed.

Lemma geometry_policies c c' :
  geometry c' = geometry c →
  policies c' = policies c ∧ associativity c' = associativity c ∧
  is_lru_or_mru c' = is_lru_or_mru c.
Proof.
  unfold geometry, is_lru_or_mru. by intros [= _ _ _ -> _ _ _ _ _ ->].
Qed.

(** The lines of an empty set are filled in slot order by reads of tags that
    differ, each one a miss; the recency list then lists the slots from the
    one filled last to the one filled first. *)
Lemma fill_all c0 g index addresses tnew :
  Forall2 (maps_to c0 index) addresses tnew →
  ∀ w ts,
  wf_world w → geometry (heap w) = geometry c0 →
  is_lru_or_mru c0 = true →
  set_holds w index ts (filled_order (length ts) (associativity c0)) →
  Z.of_nat (length ts + length addresses) ≤ associativity c0 →
  NoDup (ts ++ tnew) →
  ∃ vs w',
    read_all addresses g w = Some (vs, w') ∧ wf_world w' ∧
    geometry (heap w') = geometry c0 ∧
    set_holds w' index (ts ++ tnew)
      (filled_order (length (ts ++ tnew)) (associativity c0)).
Proof.
  induction 1 as [|a t addresses tnew Ha Hmaps IH];
    intros w ts Hwf Hgeo Hpol Hholds Hlen Hnd.
  - exists [], w. rewrite app_nil_r. done.
  - simpl in Hlen.
    destruct (geometry_policies _ _ Hgeo) as (_ & Hk & Hp).
    assert (t ∉ ts) as Ht.
    { apply NoDup_app in Hnd as (_ & Hdisj & _). intros Hin.
      apply (Hdisj t Hin). by left. }
    rewrite <- Hk in Hholds.
    destruct (fill_step w g index ts a t Hwf ltac:(by rewrite Hp) Hholds
                ltac:(lia) ltac:(by apply (geometry_maps_to c0)) Ht)
      as (v & w1 & Hread & Hwf1 & Hgeo1 & _ & Hholds1).
    rewrite Hk in Hholds1.
    destruct (IH w1 (ts ++ [t])) as (vs & w2 & Hreads & Hwf2 & Hgeo2 & Hholds2).
    + done.
    + by rewrite Hgeo1.
    + done.
    + rewrite length_app. simpl.
      by replace (length ts + 1)%nat with (S (length ts)) by lia.
    + rewrite length_app. simpl. lia.
    + by rewrite <- app_assoc.
    + exists (v :: vs), w2. simpl.
      rewrite (bind_run _ _ _ _ _ Hread), (bind_run _ _ _ _ _ Hreads).
      split; [done|]. split; [done|]. split; [done|].
      by rewrite <- app_assoc in Hholds2.
Qed.

(** A tag that a set holds is found by the lookup. *)
Lemma set_holds_hits w index ts mru (i : nat) address t :
  wf_world w → set_holds w index ts mru →
  Z.of_nat (length ts) ≤ associativity (heap w) →
  ts !! i = Some t → maps_to (heap w) index address t →
  lookup_hits w address.
Proof.
  intros Hwf (s & Hs & _ & Hslots) Hlen Hi (offset & Hd & _).
  assert (is_Some (set_slots (heap w) s !! i)) as [l Hl].
  { apply lookup_lt_is_Some. rewrite (set_slots_length w index s) by done.
    apply lookup_lt_Some in Hi. lia. }
  pose proof (Hslots i l Hl) as Hil. rewrite Hi in Hil.
  destruct Hil as [Hv Htag].
  assert (matches t l) as Hm.
  { unfold matches, cache_line_check_validity_and_tag.
    rewrite decide_True by done. by rewrite decide_True by done. }
  destruct (list_find_elem_of (matches t) (set_slots (heap w) s) l)
    as [[j l'] Hf]; [by eapply list_elem_of_lookup_2|done|].
  exists offset, index, t, (first_index s + Z.of_nat j),
    (touch w index s (Z.of_nat j)).
  split; [done|].
  by rewrite (cache_set_find_matching_line_wf w index s t Hwf Hs), Hf.
Qed.

(** A tag that a set does not hold is not found by the lookup. *)
Lemma set_holds_misses w index ts mru address t :
  wf_world w → set_holds w index ts mru →
  t ∉ ts → maps_to (heap w) index address t →
  lookup_misses w address.
Proof.
  intros Hwf Hholds Ht (offset & Hd & _).
  pose proof Hholds as (s & Hs & _).
  eapply missed_misses; [done..|].
  by eapply set_holds_no_match.
Qed.

Lemma missed_policies w index address :
  policies (heap (missed w index address)) = policies (heap w).
Proof. unfold missed. by rewrite emit_heap. Qed.

(** A read of a new tag in a full set under LRU: the slot at the tail of
    the recency list is refilled and moves to the head. *)
Lemma lru_replace w g index ts address t (n : nat) :
  wf_world w → policies (heap w) = CACHE_REPLACEMENTPOLICY_LRU →
  associativity (heap w) = Z.of_nat (S n) → length ts = S n →
  set_holds w index ts (reverse (seqZ 0 (Z.of_nat (S n)))) →
  maps_to (heap w) index address t → t ∉ ts →
  ∃ v w',
    cache_read address g w = Some (v, w') ∧ wf_world w' ∧
    geometry (heap w') = geometry (heap w) ∧
    lookup_misses w address ∧
    set_holds w' index (<[O := t]> ts) (0 :: reverse (seqZ 1 (Z.of_nat n))).
Proof.
  intros Hwf Hpol Hk Hlen Hholds (offset & Hd & Hin) Ht.
  pose proof Hholds as (s & Hs & Hmru & Hslots).
  pose proof (set_holds_no_match w index s ts _ t Hs Hholds Ht) as Hnm.
  pose proof (set_holds_all_used w index s ts _ Hwf Hs Hholds
                ltac:(lia)) as Hall.
  assert (selected g (missed w index address) index s
          = (0, with_mru (missed w index address) index
                  (0 :: reverse (seqZ 1 (Z.of_nat n))))) as Hsel.
  { unfold selected. rewrite missed_set_slots, Hall, missed_policies, Hpol.
    rewrite decide_False by done. rewrite decide_True by done.
    rewrite Hmru, last_reverse_seqZ. simpl.
    by rewrite promote_last_reverse_seqZ. }
  destruct (cache_read_miss_slot w address g offset index t s)
    as (v & Hread & Hwf' & _); [done..|rewrite Hsel; simpl; lia|].
  rewrite Hsel in Hread, Hwf'. simpl in Hread, Hwf'.
  eexists _, _. split; [exact Hread|]. split; [done|].
  split; [|split].
  - rewrite geometry_filled. apply geometry_missed.
  - by eapply missed_misses.
  - pose proof (wf_missed w index address Hwf) as Hwfm.
    destruct (missed_heap w index address) as (Hss & _ & _ & _ & Hkm & _).
    replace (first_index s + 0) with (first_index s + Z.of_nat 0) by done.
    eapply (set_holds_after_fill (missed w index address) index s ts).
    + done.
    + by rewrite Hss.
    + exists s. split; [by rewrite Hss|]. split; [done|].
      intros i l'. rewrite missed_set_slots. apply Hslots.
    + rewrite Hkm. lia.
    + apply list_lookup_insert_eq. lia.
    + intros i Hi. by apply list_lookup_insert_ne.
Qed.

(** The same under MRU: the slot at the head of the recency list is
    refilled and stays at the head. *)
Lemma mru_replace w g index ts address t (n : nat) :
  wf_world w → policies (heap w) = CACHE_REPLACEMENTPOLICY_MRU →
  associativity (heap w) = Z.of_nat (S n) → length ts = S n →
  set_holds w index ts (reverse (seqZ 0 (Z.of_nat (S n)))) →
  maps_to (heap w) index address t → t ∉ ts →
  ∃ v w',
    cache_read address g w = Some (v, w') ∧ wf_world w' ∧
    geometry (heap w') = geometry (heap w) ∧
    lookup_misses w address ∧
    set_holds w' index (<[n := t]> ts) (reverse (seqZ 0 (Z.of_nat (S n)))).
Proof.
  intros Hwf Hpol Hk Hlen Hholds (offset & Hd & Hin) Ht.
  pose proof Hholds as (s & Hs & Hmru & Hslots).
  pose proof (set_holds_no_match w index s ts _ t Hs Hholds Ht) as Hnm.
  pose proof (set_holds_all_used w index s ts _ Hwf Hs Hholds
                ltac:(lia)) as Hall.
  assert (selected g (missed w index address) index s
          = (Z.of_nat n, with_mru (missed w index address) index
                           (reverse (seqZ 0 (Z.of_nat (S n)))))) as Hsel.
  { unfold selected. rewrite missed_set_slots, Hall, missed_policies, Hpol.
    rewrite decide_True by done.
    rewrite Hmru, reverse_seqZ_S. simpl. by rewrite promote_head. }
  destruct (cache_read_miss_slot w address g offset index t s)
    as (v & Hread & Hwf' & _); [done..|rewrite Hsel; simpl; lia|].
  rewrite Hsel in Hread, Hwf'. simpl in Hread, Hwf'.
  eexists _, _. split; [exact Hread|]. split; [done|].
  split; [|split].
  - rewrite geometry_filled. apply geometry_missed.
  - by eapply missed_misses.
  - pose proof (wf_missed w index address Hwf) as Hwfm.
    destruct (missed_heap w index address) as (Hss & _ & _ & _ & Hkm & _).
    eapply (set_holds_after_fill (missed w index address) index s ts).
    + done.
    + by rewrite Hss.
    + exists s. split; [by rewrite Hss|]. split; [done|].
      intros i l'. rewrite missed_set_slots. apply Hslots.
    + rewrite Hkm. lia.
    + apply list_lookup_insert_eq. lia.
    + intros i Hi. by apply list_lookup_insert_ne.
Qed.

Lemma not_in_after_replace (ts : list Z) (j : nat) t t' :
  NoDup ts → ts !! j = Some t → t' ≠ t → t ∉ <[j := t']> ts.
Proof.
  intros Hnd Hj Hne Hin. apply list_elem_of_lookup in Hin as [i Hi].
  destruct (decide (i = j)) as [->|Hij].
  - rewrite list_lookup_insert_eq in Hi by by eapply lookup_lt_Some.
    by injection Hi.
  - rewrite list_lookup_insert_ne in Hi by done.
    by pose proof (NoDup_lookup ts i j t Hnd Hi Hj).
Qed.

(** ** C5: LRU *)

(** X29.  On a well-formed cache whose flag word is exactly
    [CACHE_REPLACEMENTPOLICY_LRU], take a set that is as [cache_set_init]
    leaves it, and as many reads as the set has lines, all of that set and
    of tags that differ (L1 .. Lk).  The reads return and fill the slots in
    order; the recency list is then k-1, ..., 1, 0.  A further read of a new
    tag in that set returns, misses, and refills slot 0, the line of L1:
    the tag of L1 is looked up in vain afterwards, the tags of L2 .. Lk and
    the new tag are found, and the recency list is 0, k-1, ..., 1, the new
    line at its head. *)
Theorem lru_evicts_the_line_filled_first (w : world) (g : func_t)
    (index : Z) (addresses ts : list Z) (address' t' : Z) :
  wf_world w →
  policies (heap w) = CACHE_REPLACEMENTPOLICY_LRU →
  set_holds w index [] (seqZ 0 (associativity (heap w))) →
  Z.of_nat (length addresses) = associativity (heap w) →
  Forall2 (maps_to (heap w) index) addresses ts →
  maps_to (heap w) index address' t' →
  NoDup (ts ++ [t']) →
  ∃ vs w1 v w2,
    read_all addresses g w = Some (vs, w1) ∧
    set_holds w1 index ts (reverse (seqZ 0 (associativity (heap w)))) ∧
    lookup_misses w1 address' ∧
    cache_read address' g w1 = Some (v, w2) ∧
    set_holds w2 index (<[O := t']> ts)
      (0 :: reverse (seqZ 1 (associativity (heap w) - 1))) ∧
    (∀ a t1, ts !! O = Some t1 → maps_to (heap w) index a t1 →
       lookup_misses w2 a) ∧
    (∀ a (i : nat) t, (0 < i)%nat → ts !! i = Some t →
       maps_to (heap w) index a t → lookup_hits w2 a) ∧
    lookup_hits w2 address'.
Proof.
  intros Hwf Hpol Hfresh Hlen Hmaps Hmap' Hnd.
  pose proof (Forall2_length _ _ _ Hmaps) as Hlents.
  apply NoDup_app in Hnd as (Hndts & Hdisj & _).
  assert (t' ∉ ts) as Ht'.
  { intros Hin. apply (Hdisj t' Hin). by left. }
  destruct (fill_all (heap w) g index addresses ts Hmaps w [])
    as (vs & w1 & Hreads & Hwf1 & Hgeo1 & Hholds1); try done.
  { unfold is_lru_or_mru. by rewrite Hpol. }
  { by rewrite filled_order_0. }
  { simpl. lia. }
  simpl in Hholds1.
  destruct (geometry_policies _ _ Hgeo1) as (Hp1 & Hk1 & _).
  destruct (length ts) as [|n] eqn:Hn.
  { pose proof (wf_associativity _ Hwf). lia. }
  assert (associativity (heap w) = Z.of_nat (S n)) as Hk by lia.
  rewrite Hk in Hholds1 |- *. rewrite filled_order_full in Hholds1.
  destruct (lru_replace w1 g index ts address' t' n)
    as (v & w2 & Hread & Hwf2 & Hgeo2 & Hmiss & Hholds2); try done.
  { by rewrite Hp1. } { by rewrite Hk1. }
  { by apply (geometry_maps_to (heap w)). }
  rewrite Hgeo1 in Hgeo2.
  replace (Z.of_nat (S n) - 1) with (Z.of_nat n) by lia.
  exists vs, w1, v, w2. repeat split; try done.
  - intros a t1 Ht1 Ha.
    apply (set_holds_misses w2 index _ _ a t1 Hwf2 Hholds2).
    + apply not_in_after_replace; [done..|]. intros ->. apply Ht'.
      by eapply list_elem_of_lookup_2.
    + by apply (geometry_maps_to (heap w)).
  - intros a i t Hi Hti Ha.
    apply (set_holds_hits w2 index _ _ i a t Hwf2 Hholds2).
    + rewrite length_insert. destruct (geometry_policies _ _ Hgeo2) as (_ & -> & _). lia.
    + rewrite list_lookup_insert_ne by lia. done.
    + by apply (geometry_maps_to (heap w)).
  - apply (set_holds_hits w2 index _ _ O address' t' Hwf2 Hholds2).
    + rewrite length_insert. destruct (geometry_policies _ _ Hgeo2) as (_ & -> & _). lia.
    + apply list_lookup_insert_eq. lia.
    + by apply (geometry_maps_to (heap w)).
Qed.

(** C5.  [cache_new(16, 4, 4, CACHE_REPLACEMENTPOLICY_LRU |
    CACHE_TRACEPOLICY)] is under the LRU policy: the replacement bits of
    its flag word are [CACHE_REPLACEMENTPOLICY_LRU].  Reads of 0x00, 0x10,
    0x20 and 0x30 fill the four lines of its set in order (tags 0, 4, 8,
    12).  The read of 0x40 (tag 16) that follows, with a generator that
    returns 6, does not evict the line of 0x00: the generator is called
    and slot 6 % 4 = 2, the line of 0x20, is refilled; 0x00 is still found
    and 0x20 is not; the recency list was never updated and is 0, 1, 2, 3,
    with the new line in third place.  With the flag word
    [CACHE_REPLACEMENTPOLICY_LRU] alone the same reads refill slot 0, call
    no generator and leave the list 0, 3, 2, 1. *)
Theorem lru_with_trace_bit_evicts_the_slot_drawn :
  Z.land (policies lru_trace_cache) CACHE_REPLACEMENTPOLICY_MASK
    = CACHE_REPLACEMENTPOLICY_LRU ∧
  ∃ vs w1 v w2,
    read_all [0; 16; 32; 48] six_rng (boot lru_trace_cache zero_ram)
    = Some (vs, w1) ∧
    is_valid <$> lines (heap w1) = [1; 1; 1; 1] ∧
    tag <$> lines (heap w1) = [0; 4; 8; 12] ∧
    mru_list <$> sets (heap w1) = [[0; 1; 2; 3]] ∧
    rand_calls w1 = O ∧
    cache_read 64 six_rng w1 = Some (v, w2) ∧
    tag <$> lines (heap w2) = [0; 4; 16; 12] ∧
    mru_list <$> sets (heap w2) = [[0; 1; 2; 3]] ∧
    rand_calls w2 = 1%nat ∧
    lookup_hits w2 0 ∧ lookup_misses w2 32 ∧
    ∃ vs' w',
      read_all [0; 16; 32; 48; 64] six_rng (boot lru_cache zero_ram)
      = Some (vs', w') ∧
      tag <$> lines (heap w') = [16; 4; 8; 12] ∧
      mru_list <$> sets (heap w') = [[0; 3; 2; 1]] ∧
      rand_calls w' = O.
Proof.
  split; [reflexivity|].
  eexists _, _, _, _.
  split; [vm_compute; reflexivity|].
  split; [reflexivity|]. split; [reflexivity|]. split; [reflexivity|].
  split; [reflexivity|].
  split; [vm_compute; reflexivity|].
  split; [reflexivity|]. split; [reflexivity|]. split; [reflexivity|].
  split; [exists 0, 0, 0; eexists _, _; split; vm_compute; reflexivity|].
  split; [exists 0, 0, 8; eexists; split; vm_compute; reflexivity|].
  eexists _, _.
  split; [vm_compute; reflexivity|].
  split; [reflexivity|]. split; reflexivity.
Qed.

(** ** C6: MRU *)

Lemma mru_trace_cache_new :
  cache_new 16 4 4 (CACHE_REPLACEMENTPOLICY_MRU + CACHE_TRACEPOLICY)
    = Some mru_trace_cache.
Proof. vm_compute. reflexivity. Qed.

(** C6.  [cache_new(16, 4, 4, CACHE_REPLACEMENTPOLICY_MRU |
    CACHE_TRACEPOLICY)] is under the MRU policy: the replacement bits of
    its flag word are [CACHE_REPLACEMENTPOLICY_MRU].  After reads of 0x00,
    0x10, 0x20 and 0x30 have filled the four lines of its set in order, the
    read of 0x40 (tag 16), with a generator that returns 6, does not evict
    the line of 0x30, the one filled last: the generator is called and
    slot 6 % 4 = 2, the line of 0x20, is refilled; 0x30 is still found and
    0x20 is not.  With the flag word [CACHE_REPLACEMENTPOLICY_MRU] alone
    the same reads refill slot 3, the line of 0x30, and call no
    generator. *)
Theorem mru_with_trace_bit_evicts_the_slot_drawn :
  Z.land (policies mru_trace_cache) CACHE_REPLACEMENTPOLICY_MASK
    = CACHE_REPLACEMENTPOLICY_MRU ∧
  ∃ vs w1 v w2,
    read_all [0; 16; 32; 48] six_rng (boot mru_trace_cache zero_ram)
    = Some (vs, w1) ∧
    is_valid <$> lines (heap w1) = [1; 1; 1; 1] ∧
    tag <$> lines (heap w1) = [0; 4; 8; 12] ∧
    mru_list <$> sets (heap w1) = [[0; 1; 2; 3]] ∧
    rand_calls w1 = O ∧
    cache_read 64 six_rng w1 = Some (v, w2) ∧
    tag <$> lines (heap w2) = [0; 4; 16; 12] ∧
    rand_calls w2 = 1%nat ∧
    lookup_hits w2 48 ∧ lookup_misses w2 32 ∧
    ∃ vs' w',
      read_all [0; 16; 32; 48; 64] six_rng (boot mru_cache zero_ram)
      = Some (vs', w') ∧
      tag <$> lines (heap w') = [0; 4; 8; 16] ∧
      rand_calls w' = O.
Proof.
  split; [reflexivity|].
  eexists _, _, _, _.
  split; [vm_compute; reflexivity|].
  split; [reflexivity|]. split; [reflexivity|]. split; [reflexivity|].
  split; [reflexivity|].
  split; [vm_compute; reflexivity|].
  split; [reflexivity|]. split; [reflexivity|].
  split; [exists 0, 0, 12; eexists _, _; split; vm_compute; reflexivity|].
  split; [exists 0, 0, 8; eexists; split; vm_compute; reflexivity|].
  eexists _, _.
  split; [vm_compute; reflexivity|].
  split; reflexivity.
Qed.

(** X30.  With the flag word exactly [CACHE_REPLACEMENTPOLICY_MRU] and the
    same k reads on an empty set, a further read of a new tag returns,
    misses, and refills slot k-1, the line of Lk, which is at the head of the
    recency list and stays there: the tag of Lk is looked up in vain
    afterwards, every other tag, that of L1 among them when k is at least 2,
    is found, and so is the new tag. *)
Theorem mru_evicts_the_line_filled_last (w : world) (g : func_t)
    (index : Z) (addresses ts : list Z) (address' t' : Z) :
  wf_world w →
  policies (heap w) = CACHE_REPLACEMENTPOLICY_MRU →
  set_holds w index [] (seqZ 0 (associativity (heap w))) →
  Z.of_nat (length addresses) = associativity (heap w) →
  Forall2 (maps_to (heap w) index) addresses ts →
  maps_to (heap w) index address' t' →
  NoDup (ts ++ [t']) →
  ∃ vs w1 v w2,
    read_all addresses g w = Some (vs, w1) ∧
    set_holds w1 index ts (reverse (seqZ 0 (associativity (heap w)))) ∧
    lookup_misses w1 address' ∧
    cache_read address' g w1 = Some (v, w2) ∧
    set_holds w2 index (<[pred (length ts) := t']> ts)
      (reverse (seqZ 0 (associativity (heap w)))) ∧
    (∀ a tk, last ts = Some tk → maps_to (heap w) index a tk →
       lookup_misses w2 a) ∧
    (∀ a (i : nat) t, i ≠ pred (length ts) → ts !! i = Some t →
       maps_to (heap w) index a t → lookup_hits w2 a) ∧
    lookup_hits w2 address'.
Proof.
  intros Hwf Hpol Hfresh Hlen Hmaps Hmap' Hnd.
  pose proof (Forall2_length _ _ _ Hmaps) as Hlents.
  apply NoDup_app in Hnd as (Hndts & Hdisj & _).
  assert (t' ∉ ts) as Ht'.
  { intros Hin. apply (Hdisj t' Hin). by left. }
  destruct (fill_all (heap w) g index addresses ts Hmaps w [])
    as (vs & w1 & Hreads & Hwf1 & Hgeo1 & Hholds1); try done.
  { unfold is_lru_or_mru. by rewrite Hpol. }
  { by rewrite filled_order_0. }
  { simpl. lia. }
  simpl in Hholds1.
  destruct (geometry_policies _ _ Hgeo1) as (Hp1 & Hk1 & _).
  destruct (length ts) as [|n] eqn:Hn.
  { pose proof (wf_associativity _ Hwf). lia. }
  assert (associativity (heap w) = Z.of_nat (S n)) as Hk by lia.
  rewrite Hk in Hholds1 |- *. rewrite filled_order_full in Hholds1.
  destruct (mru_replace w1 g index ts address' t' n)
    as (v & w2 & Hread & Hwf2 & Hgeo2 & Hmiss & Hholds2); try done.
  { by rewrite Hp1. } { by rewrite Hk1. }
  { by apply (geometry_maps_to (heap w)). }
  rewrite Hgeo1 in Hgeo2. simpl.
  exists vs, w1, v, w2. repeat split; try done.
  - intros a tk Htk Ha. rewrite last_lookup, Hn in Htk. simpl in Htk.
    apply (set_holds_misses w2 index _ _ a tk Hwf2 Hholds2).
    + apply not_in_after_replace; [done..|]. intros ->. apply Ht'.
      by eapply list_elem_of_lookup_2.
    + by apply (geometry_maps_to (heap w)).
  - intros a i t Hi Hti Ha.
    apply (set_holds_hits w2 index _ _ i a t Hwf2 Hholds2).
    + rewrite length_insert. destruct (geometry_policies _ _ Hgeo2) as (_ & -> & _). lia.
    + rewrite list_lookup_insert_ne by lia. done.
    + by apply (geometry_maps_to (heap w)).
  - apply (set_holds_hits w2 index _ _ n address' t' Hwf2 Hholds2).
    + rewrite length_insert. destruct (geometry_policies _ _ Hgeo2) as (_ & -> & _). lia.
    + apply list_lookup_insert_eq. lia.
    + by apply (geometry_maps_to (heap w)).
Qed.

Lemma mru_cache_wf : wf_cache mru_cache.
Proof.
  destruct (cache_new_wf 16 4 4 CACHE_REPLACEMENTPOLICY_MRU)
    as (c & Hc & Hwf & _); [lia|lia|lia|done|done|].
  rewrite mru_cache_new in Hc. by injection Hc as ->.
Qed.

(** The one set of the example caches is empty. *)
Lemma example_set_empty c :
  lines c = lines lru_cache → sets c = sets lru_cache →
  associativity c = 4 →
  set_holds (boot c zero_ram) 0 [] (seqZ 0 (associativity (heap (boot c zero_ram)))).
Proof.
  intros Hl Hs Hk. exists (CSet 4 0 [0; 1; 2; 3]). simpl. rewrite Hs, Hk.
  split; [done|]. split; [done|]. intros i l. unfold set_slots.
  rewrite Hl. simpl. by destruct i as [|[|[|[|i]]]]; intros [= <-].
Qed.

(** The addresses of the scenario: 0x00, 0x10, 0x20, 0x30, then 0x40. *)
Lemma example_maps_to p :
  Forall2 (maps_to (with_policies lru_cache p) 0)
    [0; 16; 32; 48] [0; 4; 8; 12] ∧
  maps_to (with_policies lru_cache p) 0 64 16.
Proof.
  split.
  - repeat constructor; eexists; (split; [vm_compute; reflexivity|]);
      vm_compute; discriminate.
  - eexists. split; [vm_compute; reflexivity|]. vm_compute; discriminate.
Qed.

Lemma example_tags_differ : NoDup ([0; 4; 8; 12] ++ [16]).
Proof.
  apply (bool_decide_unpack (NoDup ([0; 4; 8; 12] ++ [16]))).
  vm_compute. exact I.
Qed.

Lemma lru_evicts_the_line_filled_first_witness :
  ∃ vs w1 v w2,
    read_all [0; 16; 32; 48] zero_rng (boot lru_cache zero_ram)
    = Some (vs, w1) ∧
    set_holds w1 0 [0; 4; 8; 12]
      (reverse (seqZ 0 (associativity (heap (boot lru_cache zero_ram))))) ∧
    lookup_misses w1 64 ∧
    cache_read 64 zero_rng w1 = Some (v, w2) ∧
    set_holds w2 0 (<[O := 16]> [0; 4; 8; 12])
      (0 :: reverse
              (seqZ 1 (associativity (heap (boot lru_cache zero_ram)) - 1))) ∧
    (∀ a t1, [0; 4; 8; 12] !! O = Some t1 →
       maps_to (heap (boot lru_cache zero_ram)) 0 a t1 →
       lookup_misses w2 a) ∧
    (∀ a (i : nat) t, (0 < i)%nat → [0; 4; 8; 12] !! i = Some t →
       maps_to (heap (boot lru_cache zero_ram)) 0 a t → lookup_hits w2 a) ∧
    lookup_hits w2 64.
Proof.
  apply (lru_evicts_the_line_filled_first (boot lru_cache zero_ram) zero_rng
           0 [0; 16; 32; 48] [0; 4; 8; 12] 64 16).
  - exact lru_cache_wf.
  - reflexivity.
  - by apply example_set_empty.
  - reflexivity.
  - apply (example_maps_to CACHE_REPLACEMENTPOLICY_LRU).
  - apply (example_maps_to CACHE_REPLACEMENTPOLICY_LRU).
  - exact example_tags_differ.
Defined.

Lemma mru_evicts_the_line_filled_last_witness :
  ∃ vs w1 v w2,
    read_all [0; 16; 32; 48] zero_rng (boot mru_cache zero_ram)
    = Some (vs, w1) ∧
    set_holds w1 0 [0; 4; 8; 12]
      (reverse (seqZ 0 (associativity (heap (boot mru_cache zero_ram))))) ∧
    lookup_misses w1 64 ∧
    cache_read 64 zero_rng w1 = Some (v, w2) ∧
    set_holds w2 0 (<[pred (length [0; 4; 8; 12]) := 16]> [0; 4; 8; 12])
      (reverse (seqZ 0 (associativity (heap (boot mru_cache zero_ram))))) ∧
    (∀ a tk, last [0; 4; 8; 12] = Some tk →
       maps_to (heap (boot mru_cache zero_ram)) 0 a tk →
       lookup_misses w2 a) ∧
    (∀ a (i : nat) t, i ≠ pred (length [0; 4; 8; 12]) →
       [0; 4; 8; 12] !! i = Some t →
       maps_to (heap (boot mru_cache zero_ram)) 0 a t → lookup_hits w2 a) ∧
    lookup_hits w2 64.
Proof.
  apply (mru_evicts_the_line_filled_last (boot mru_cache zero_ram) zero_rng
           0 [0; 16; 32; 48] [0; 4; 8; 12] 64 16).
  - exact mru_cache_wf.
  - reflexivity.
  - by apply example_set_empty.
  - reflexivity.
  - apply (example_maps_to CACHE_REPLACEMENTPOLICY_MRU).
  - apply (example_maps_to CACHE_REPLACEMENTPOLICY_MRU).
  - exact example_tags_differ.
Defined.

(** The scenario of the specification, run: four misses fill the set, the
    read of 0x00 hits, the read of 0x40 replaces the line of 0x10, and the
    read of 0x10 that follows misses. *)
Example lru_scenario :
  ∃ vs w vs' w',
    read_all [0; 16; 32; 48; 0; 64] zero_rng (boot lru_cache zero_ram)
    = Some (vs, w) ∧
    miss_count (heap w) = 5 ∧ access_count (heap w) = 6 ∧
    mru_list <$> sets (heap w) = [[1; 0; 3; 2]] ∧
    tag <$> lines (heap w) = [0; 16; 8; 12] ∧
    read_all [16] zero_rng w = Some (vs', w') ∧
    miss_count (heap w') = 6.
Proof.
  eexists _, _, _, _.
  split; [vm_compute; reflexivity|].
  split; [vm_compute; reflexivity|].
  split; [vm_compute; reflexivity|].
  split; [vm_compute; reflexivity|].
  split; [vm_compute; reflexivity|].
  split; [vm_compute; reflexivity|].
  vm_compute; reflexivity.
Qed.
(** ** Further properties: the construction of a cache *)

Lemma logbase2_loop_log2 fuel value ans :
  value < 2 ^ Z.of_nat fuel →
  logbase2_loop fuel value ans = ans + Z.log2 value.
Proof.
  revert value ans. induction fuel as [|fuel IH]; intros value ans Hv.
  - simpl in *. rewrite Z.log2_nonpos by lia. lia.
  - simpl. destruct (decide (value > 1)) as [Hgt|Hle].
    + rewrite IH.
      * rewrite Z.log2_shiftr by lia.
        assert (1 ≤ Z.log2 value)
          by (change 1 with (Z.log2 2) at 1; apply Z.log2_le_mono; lia).
        lia.
      * rewrite Z.shiftr_div_pow2 by lia.
        apply Z.div_lt_upper_bound; [lia|].
        rewrite Nat2Z.inj_succ, Z.pow_succ_r in Hv by lia. lia.
    + destruct (decide (value = 1)) as [->|]; [simpl; lia|].
      rewrite Z.log2_nonpos by lia. lia.
Qed.

Lemma logbase2_log2 value : value < 2 ^ 31 → logbase2 value = Z.log2 value.
Proof.
  intros Hv. unfold logbase2. by rewrite logbase2_loop_log2.
Qed.

(** X1. [logbase2] returns the floor of the binary logarithm of every [int]
    above 0, and 0 for every [int] up to 1, the negative ones included: it
    is exact on the powers of two and rounds down on every other value. *)
Theorem logbase2_is_floor_log2 (value : Z) :
  - 2 ^ 31 ≤ value < 2 ^ 31 →
  logbase2 value = Z.log2 value ∧
  (value ≤ 1 → logbase2 value = 0) ∧
  (1 ≤ value → 2 ^ logbase2 value ≤ value < 2 ^ (logbase2 value + 1)) ∧
  (∀ k, 0 ≤ k → value = 2 ^ k → logbase2 value = k).
Proof.
  intros Hv. rewrite logbase2_log2 by lia. repeat split.
  - intros Hle. destruct (decide (value = 1)) as [->|]; [done|].
    apply Z.log2_nonpos. lia.
  - apply Z.log2_spec. lia.
  - apply Z.log2_spec. lia.
  - intros k Hk ->. by apply Z.log2_pow2.
Qed.

Lemma logbase2_is_floor_log2_witness :
  logbase2 12 = Z.log2 12 ∧
  (12 ≤ 1 → logbase2 12 = 0) ∧
  (1 ≤ 12 → 2 ^ logbase2 12 ≤ 12 < 2 ^ (logbase2 12 + 1)) ∧
  (∀ k, 0 ≤ k → 12 = 2 ^ k → logbase2 12 = k).
Proof. apply (logbase2_is_floor_log2 12). lia. Defined.

(** X2. [maskbits n] is the mask of the [n] low bits for every [n] from 0
    to 63 (for 63 through the wrap-around of [long]): it equals [2^n - 1],
    its bits below [n] are set and no other, and and-ing with it reduces
    modulo [2^n]. For every other [n] the shift is undefined. *)
Theorem maskbits_selects_low_bits (nbits x : Z) :
  match maskbits nbits with
  | Some m =>
    0 ≤ nbits < 64 ∧ m = 2 ^ nbits - 1 ∧
    Z.land x m = x `mod` 2 ^ nbits ∧
    ∀ i, 0 ≤ i → Z.testbit m i = bool_decide (i < nbits)
  | None => nbits < 0 ∨ 64 ≤ nbits
  end.
Proof.
  destruct (decide (0 ≤ nbits < 64)) as [Hn|Hn].
  - rewrite maskbits_ones by done. split; [done|].
    split; [rewrite Z.ones_equiv; lia|].
    split; [apply Z.land_ones; lia|].
    intros i Hi. destruct (decide (i < nbits)).
    + rewrite bool_decide_eq_true_2 by done. apply Z.ones_spec_low. lia.
    + rewrite bool_decide_eq_false_2 by done. apply Z.ones_spec_high. lia.
  - rewrite maskbits_None by done. lia.
Qed.

(** X3. [cache_new] is undefined for a block size of 0 and for an
    associativity of 0 (it divides by them), and for one-byte blocks in a
    cache of at most one set: there are then no offset and no index bits,
    and the tag mask is computed with a shift by 64. *)
Theorem cache_new_undefined (num_bytes block_size assoc pol : Z) :
  block_size = 0 ∨ assoc = 0 ∨
  (block_size = 1 ∧ 0 ≤ num_bytes < 2 ^ 32 ∧ 0 < assoc ∧
   num_bytes `div` assoc ≤ 1) →
  cache_new num_bytes block_size assoc pol = None.
Proof.
  intros [->|[->|(-> & Hnb & Hassoc & Hns)]].
  - done.
  - unfold cache_new. destruct (decide (block_size = 0)); [done|].
    by rewrite decide_True.
  - unfold cache_new. rewrite decide_False by lia.
    rewrite decide_False by lia.
    rewrite Z.div_1_r, (to_uint_small num_bytes) by lia.
    assert (0 ≤ num_bytes `div` assoc) by (apply Z.div_pos; lia).
    rewrite (to_uint_small (num_bytes `div` assoc)) by lia.
    rewrite (to_int_small 1), (to_int_small (num_bytes `div` assoc)) by lia.
    rewrite (logbase2_log2 1), (logbase2_log2 (num_bytes `div` assoc)) by lia.
    replace (Z.log2 (num_bytes `div` assoc)) with 0.
    2:{ destruct (decide (num_bytes `div` assoc = 1)) as [->|]; [done|].
        symmetry. apply Z.log2_nonpos. lia. }
    change (Z.log2 1) with 0.
    change (to_uint 0) with 0. change (to_int 0) with 0.
    change (to_uint (0 + 0)) with 0. change (64 - 0) with 64.
    change (to_int (to_uint 64)) with 64.
    rewrite (maskbits_ones 0) by lia.
    rewrite (maskbits_None 64) by lia. done.
Qed.

Lemma cache_new_undefined_witness :
  (1 = 0 ∨ 16 = 0 ∨
   (1 = 1 ∧ 0 ≤ 16 < 2 ^ 32 ∧ 0 < 16 ∧ 16 `div` 16 ≤ 1)) ∧
  cache_new 16 1 16 CACHE_REPLACEMENTPOLICY_LRU = None.
Proof.
  assert (1 = 0 ∨ 16 = 0 ∨
          (1 = 1 ∧ 0 ≤ 16 < 2 ^ 32 ∧ 0 < 16 ∧ 16 `div` 16 ≤ 1)) as H.
  { right. right. repeat split; try lia. done. }
  split; [right; right; repeat split; try lia; done|].
  exact (cache_new_undefined 16 1 16 CACHE_REPLACEMENTPOLICY_LRU H).
Defined.

Lemma testbit_shiftl_ones a b i :
  0 ≤ a → 0 ≤ b → 0 ≤ i →
  Z.testbit (Z.shiftl (Z.ones b) a) i = bool_decide (a ≤ i < a + b).
Proof.
  intros Ha Hb Hi. rewrite Z.shiftl_spec by done.
  destruct (decide (a ≤ i < a + b)) as [Hin|Hout].
  - rewrite bool_decide_eq_true_2 by done. apply Z.ones_spec_low. lia.
  - rewrite bool_decide_eq_false_2 by done.
    destruct (decide (i < a)).
    + apply Z.testbit_neg_r. lia.
    + apply Z.ones_spec_high. lia.
Qed.

Lemma testbit_ones_decide a i :
  0 ≤ a → 0 ≤ i → Z.testbit (Z.ones a) i = bool_decide (i < a).
Proof.
  intros Ha Hi. destruct (decide (i < a)).
  - rewrite bool_decide_eq_true_2 by done. apply Z.ones_spec_low. lia.
  - rewrite bool_decide_eq_false_2 by done. apply Z.ones_spec_high. lia.
Qed.

Lemma cache_new_split_at num_bytes block_size assoc pol c :
  cache_new num_bytes block_size assoc pol = Some c →
  split_at c (logbase2 (to_int block_size)) (logbase2 (to_int (num_sets c))).
Proof.
  intros H. destruct (cache_new_masks _ _ _ _ _ H)
    as (a & b & ? & ? & ? & <- & <- & ? & ? & ? & ? & ?).
  unfold split_at. tauto.
Qed.

(** What [decode] computes, in arithmetic. *)
Lemma decode_split c a b address :
  split_at c a b → 0 ≤ address < 2 ^ 64 →
  decode c address
  = Some (address `mod` 2 ^ a, (address `div` 2 ^ a) `mod` 2 ^ b,
          address `div` 2 ^ (a + b)).
Proof.
  intros (Ha & Hb & Hab & Hom & Him & His & Htm & Hts) Haddr.
  unfold decode, c_shr. rewrite Hom, Him, His, Htm, Hts.
  rewrite !decide_True by lia. simpl.
  assert (0 < 2 ^ a) by (apply Z.pow_pos_nonneg; lia).
  assert (0 < 2 ^ b) by (apply Z.pow_pos_nonneg; lia).
  assert (2 ^ a ≤ 2 ^ 31) by (apply Z.pow_le_mono_r; lia).
  assert (2 ^ b ≤ 2 ^ 31) by (apply Z.pow_le_mono_r; lia).
  rewrite Z.land_ones by lia.
  pose proof (Z.mod_pos_bound address (2 ^ a)).
  rewrite (to_uint_small (address `mod` 2 ^ a)) by lia.
  assert (Z.shiftr (Z.land address (Z.shiftl (Z.ones b) a)) a
          = (address `div` 2 ^ a) `mod` 2 ^ b) as ->.
  { rewrite <- Z.land_ones, <- Z.shiftr_div_pow2 by lia.
    apply Z.bits_inj'. intros i Hi.
    rewrite Z.shiftr_spec, !Z.land_spec, Z.shiftr_spec by lia.
    rewrite testbit_shiftl_ones, testbit_ones_decide by lia.
    f_equal. apply bool_decide_ext. lia. }
  pose proof (Z.mod_pos_bound (address `div` 2 ^ a) (2 ^ b)).
  rewrite (to_uint_small ((address `div` 2 ^ a) `mod` 2 ^ b)) by lia.
  assert (Z.shiftr (Z.land address (Z.shiftl (Z.ones (64 - (a + b))) (a + b)))
            (a + b) = address `div` 2 ^ (a + b)) as ->; [|done].
  rewrite <- Z.shiftr_div_pow2 by lia.
  apply Z.bits_inj'. intros i Hi.
  rewrite !Z.shiftr_spec, Z.land_spec by lia.
  rewrite testbit_shiftl_ones by lia.
  destruct (decide (i + (a + b) < 64)).
  - rewrite bool_decide_eq_true_2 by lia. apply andb_true_r.
  - rewrite bool_decide_eq_false_2 by lia. rewrite andb_false_r.
    symmetry. destruct (decide (address = 0)) as [->|];
      [apply Z.bits_0|].
    apply Z.bits_above_log2; [lia|].
    apply Z.log2_lt_pow2; [lia|].
    assert (2 ^ 64 ≤ 2 ^ (i + (a + b))) by (apply Z.pow_le_mono_r; lia).
    lia.
Qed.

(** X4. For sizes that fit the types ([block_size] at least 2, at least
    one set, fewer than [2^31] lines) [cache_new] returns a well-formed
    cache of [num_bytes / block_size] lines in [num_lines / associativity]
    sets: every line is invalid and owns its own [block_size] bytes of the
    arena, every set owns [associativity] consecutive lines and its recency
    list is [0, 1, ..., associativity - 1], and both counters are 0. *)
Theorem cache_new_builds_an_empty_cache
    (num_bytes block_size assoc pol : Z) :
  0 ≤ num_bytes → 2 ≤ block_size < 2 ^ 31 → 0 < assoc < 2 ^ 31 →
  num_bytes `div` block_size < 2 ^ 31 →
  1 ≤ (num_bytes `div` block_size) `div` assoc →
  ∃ c,
    cache_new num_bytes block_size assoc pol = Some c ∧ wf_cache c ∧
    num_lines c = num_bytes `div` block_size ∧
    num_sets c = num_lines c `div` assoc ∧
    line_size c = block_size ∧ associativity c = assoc ∧
    policies c = to_uint pol ∧
    Z.of_nat (length (lines c)) = num_lines c ∧
    Z.of_nat (length (sets c)) = num_sets c ∧
    Z.of_nat (length (memory c)) = num_bytes ∧
    (∀ i l, arr_load (lines c) i = Some l →
       is_valid l = 0 ∧ block l = i * block_size) ∧
    (∀ p s, arr_load (sets c) p = Some s →
       size s = assoc ∧ first_index s = p * assoc ∧
       mru_list s = seqZ 0 assoc) ∧
    access_count c = 0 ∧ miss_count c = 0.
Proof.
  intros Hnb Hbs Hassoc Hnl Hns.
  destruct (cache_new_wf num_bytes block_size assoc pol)
    as (c & Hc & Hwf & _); [done..|].
  destruct (cache_new_run num_bytes block_size assoc pol
              (num_bytes `div` block_size)
              ((num_bytes `div` block_size) `div` assoc)
              (logbase2 block_size)
              (logbase2 ((num_bytes `div` block_size) `div` assoc)))
    as (ls & Hrun & Hblk & Hunused); [done..|].
  rewrite Hrun in Hc. injection Hc as <-.
  eexists. split; [exact Hrun|]. split; [exact Hwf|].
  cbn [num_lines num_sets line_size associativity policies lines sets memory
       access_count miss_count].
  assert (0 ≤ num_bytes `div` block_size) by (apply Z.div_pos; lia).
  assert (length ls = Z.to_nat (num_bytes `div` block_size)) as Hlen.
  { rewrite <- (length_fmap block ls), Hblk, length_fmap, length_seqZ. done. }
  repeat split; try done.
  - lia.
  - rewrite length_fmap, length_seqZ. lia.
  - rewrite length_replicate. lia.
  - apply arr_load_Some in H0 as [_ Hl].
    rewrite Forall_lookup in Hunused. by apply (Hunused _ _ Hl).
  - apply arr_load_Some in H0 as [Hi Hl].
    assert ((block <$> ls) !! Z.to_nat i = Some (block l)) as Hb
      by (by rewrite list_lookup_fmap, Hl).
    rewrite Hblk, list_lookup_fmap in Hb.
    destruct (seqZ 0 (num_bytes `div` block_size) !! Z.to_nat i) as [k|] eqn:Hk;
      [|done].
    apply lookup_seqZ in Hk as [-> _]. simpl in Hb. injection Hb as <-. lia.
  - apply arr_load_Some in H0 as [Hp Hs].
    rewrite list_lookup_fmap in Hs.
    destruct (seqZ 0 _ !! Z.to_nat p) as [k|] eqn:Hk; [|done].
    simpl in Hs. by injection Hs as <-.
  - apply arr_load_Some in H0 as [Hp Hs].
    rewrite list_lookup_fmap in Hs.
    destruct (seqZ 0 _ !! Z.to_nat p) as [k|] eqn:Hk; [|done].
    apply lookup_seqZ in Hk as [-> _].
    simpl in Hs. injection Hs as <-. simpl. lia.
  - apply arr_load_Some in H0 as [Hp Hs].
    rewrite list_lookup_fmap in Hs.
    destruct (seqZ 0 _ !! Z.to_nat p) as [k|] eqn:Hk; [|done].
    simpl in Hs. by injection Hs as <-.
Qed.

Lemma cache_new_builds_an_empty_cache_witness :
  ∃ c,
    cache_new 64 4 2 CACHE_REPLACEMENTPOLICY_MRU = Some c ∧ wf_cache c ∧
    num_lines c = 64 `div` 4 ∧
    num_sets c = num_lines c `div` 2 ∧
    line_size c = 4 ∧ associativity c = 2 ∧
    policies c = to_uint CACHE_REPLACEMENTPOLICY_MRU ∧
    Z.of_nat (length (lines c)) = num_lines c ∧
    Z.of_nat (length (sets c)) = num_sets c ∧
    Z.of_nat (length (memory c)) = 64 ∧
    (∀ i l, arr_load (lines c) i = Some l →
       is_valid l = 0 ∧ block l = i * 4) ∧
    (∀ p s, arr_load (sets c) p = Some s →
       size s = 2 ∧ first_index s = p * 2 ∧
       mru_list s = seqZ 0 2) ∧
    access_count c = 0 ∧ miss_count c = 0.
Proof.
  apply (cache_new_builds_an_empty_cache 64 4 2 CACHE_REPLACEMENTPOLICY_MRU);
    [lia| lia | lia | vm_compute; reflexivity | vm_compute; discriminate].
Defined.

(** X5. For sizes that fit the types ([block_size] at least 2, at least
    one set, fewer than [2^31] lines) [cache_new] returns a cache whose
    three masks share no bit and together cover the 64 bits of an
    address. *)
Theorem masks_partition_the_address_bits
    (num_bytes block_size assoc pol : Z) :
  0 ≤ num_bytes → 2 ≤ block_size < 2 ^ 31 → 0 < assoc < 2 ^ 31 →
  num_bytes `div` block_size < 2 ^ 31 →
  1 ≤ (num_bytes `div` block_size) `div` assoc →
  ∃ c,
    cache_new num_bytes block_size assoc pol = Some c ∧
    Z.land (block_offset_mask c) (cache_index_mask c) = 0 ∧
    Z.land (block_offset_mask c) (tag_mask c) = 0 ∧
    Z.land (cache_index_mask c) (tag_mask c) = 0 ∧
    Z.lor (Z.lor (block_offset_mask c) (cache_index_mask c)) (tag_mask c)
    = 2 ^ 64 - 1.
Proof.
  intros Hnb Hbs Hassoc Hnl Hns.
  destruct (cache_new_wf num_bytes block_size assoc pol)
    as (c & H & _); [done..|].
  exists c. split; [done|].
  apply cache_new_split_at in H.
  destruct H as (Ha & Hb & Hab & -> & -> & _ & -> & _).
  remember (logbase2 (to_int block_size)) as a eqn:Ea.
  remember (logbase2 (to_int (num_sets c))) as b eqn:Eb.
  clear Ea Eb.
  change (2 ^ 64 - 1) with (Z.ones 64).
  repeat split; apply Z.bits_inj'; intros i Hi;
    rewrite ?Z.lor_spec, ?Z.land_spec, ?Z.bits_0;
    rewrite ?testbit_shiftl_ones, ?testbit_ones_decide by lia;
    repeat case_bool_decide; try done; lia.
Qed.

Lemma masks_partition_the_address_bits_witness :
  ∃ c,
    cache_new 64 4 2 CACHE_REPLACEMENTPOLICY_MRU = Some c ∧
    Z.land (block_offset_mask c) (cache_index_mask c) = 0 ∧
    Z.land (block_offset_mask c) (tag_mask c) = 0 ∧
    Z.land (cache_index_mask c) (tag_mask c) = 0 ∧
    Z.lor (Z.lor (block_offset_mask c) (cache_index_mask c)) (tag_mask c)
    = 2 ^ 64 - 1.
Proof.
  apply (masks_partition_the_address_bits 64 4 2 CACHE_REPLACEMENTPOLICY_MRU);
    [lia | lia | lia | vm_compute; reflexivity | vm_compute; discriminate].
Defined.

(** X6. In a cache built by [cache_new] for sizes that fit the types, the
    three fields of every 64-bit address are its digits in mixed radix:
    the offset is the address modulo [2^a], the index is the next [b] bits
    and the tag is the rest, with [a = logbase2 block_size] and
    [b = logbase2 num_sets]. The offset is below the block size and the
    index is below the number of sets, so that [cache_read] never goes
    outside the array of sets. *)
Theorem decode_fields_in_range (num_bytes block_size assoc pol : Z)
    (c : cache_t) (address : Z) :
  cache_new num_bytes block_size assoc pol = Some c →
  0 ≤ num_bytes → 2 ≤ block_size < 2 ^ 31 → 0 < assoc < 2 ^ 31 →
  num_bytes `div` block_size < 2 ^ 31 →
  1 ≤ (num_bytes `div` block_size) `div` assoc →
  0 ≤ address < 2 ^ 64 →
  ∃ offset index t,
    decode c address = Some (offset, index, t) ∧
    offset = address `mod` 2 ^ logbase2 block_size ∧
    index = (address `div` 2 ^ logbase2 block_size)
              `mod` 2 ^ logbase2 (num_sets c) ∧
    t = address `div` 2 ^ tag_shift c ∧
    0 ≤ offset < line_size c ∧ 0 ≤ index < num_sets c ∧
    0 ≤ t < 2 ^ (64 - tag_shift c).
Proof.
  intros Hc Hnb Hbs Hassoc Hnl Hns Haddr.
  pose proof (cache_new_split_at _ _ _ _ _ Hc) as Hsplit.
  destruct (cache_new_run num_bytes block_size assoc pol
              (num_bytes `div` block_size)
              ((num_bytes `div` block_size) `div` assoc)
              (logbase2 block_size)
              (logbase2 ((num_bytes `div` block_size) `div` assoc)))
    as (ls & Hrun & _ & _); [done..|].
  rewrite Hc in Hrun.
  assert (num_sets c = (num_bytes `div` block_size) `div` assoc) as Hnsc
    by (by injection Hrun as ->).
  assert (line_size c = block_size) as Hls by (by injection Hrun as ->).
  clear Hrun.
  rewrite (to_int_small block_size) in Hsplit by lia.
  assert (0 ≤ num_bytes `div` block_size) by (apply Z.div_pos; lia).
  assert ((num_bytes `div` block_size) `div` assoc
          ≤ num_bytes `div` block_size)
    by (apply Z.div_le_upper_bound; nia).
  rewrite (to_int_small (num_sets c)) in Hsplit by lia.
  rewrite (decode_split c _ _ address Hsplit Haddr).
  destruct Hsplit as (Ha & Hb & Hab & _ & _ & _ & _ & Hts).
  remember (logbase2 block_size) as a eqn:Ea.
  remember (logbase2 (num_sets c)) as b eqn:Eb.
  assert (0 < 2 ^ a) by (apply Z.pow_pos_nonneg; lia).
  assert (0 < 2 ^ b) by (apply Z.pow_pos_nonneg; lia).
  assert (0 < 2 ^ (a + b)) by (apply Z.pow_pos_nonneg; lia).
  assert (2 ^ a ≤ block_size) by (subst a; apply logbase2_pow; lia).
  assert (2 ^ b ≤ num_sets c) by (subst b; apply logbase2_pow; lia).
  pose proof (Z.mod_pos_bound address (2 ^ a)).
  pose proof (Z.mod_pos_bound (address `div` 2 ^ a) (2 ^ b)).
  eexists _, _, _. split; [done|]. rewrite Hts, Hls.
  repeat split; try lia.
  - apply Z.div_pos; lia.
  - apply Z.div_lt_upper_bound; [lia|].
    rewrite <- Z.pow_add_r by lia. replace (a + b + (64 - (a + b))) with 64; lia.
Qed.

Lemma decode_fields_in_range_witness :
  ∃ offset index t,
    decode two_way_cache 4660 = Some (offset, index, t) ∧
    offset = 4660 `mod` 2 ^ logbase2 4 ∧
    index = (4660 `div` 2 ^ logbase2 4)
              `mod` 2 ^ logbase2 (num_sets two_way_cache) ∧
    t = 4660 `div` 2 ^ tag_shift two_way_cache ∧
    0 ≤ offset < line_size two_way_cache ∧
    0 ≤ index < num_sets two_way_cache ∧
    0 ≤ t < 2 ^ (64 - tag_shift two_way_cache).
Proof.
  apply (decode_fields_in_range 64 4 2 CACHE_REPLACEMENTPOLICY_MRU);
    [vm_compute; reflexivity | lia | lia | lia | vm_compute; reflexivity
    | vm_compute; discriminate | lia].
Defined.

(** ** Further properties: what a read changes *)

Lemma only_sets_frame w w' :
  only_sets w w' →
  lines (heap w') = lines (heap w) ∧ memory (heap w') = memory (heap w) ∧
  ram w' = ram w ∧ geometry (heap w') = geometry (heap w).
Proof. by intros ->. Qed.

Lemma touch_only_sets w p s j : only_sets w (touch w p s j).
Proof.
  unfold touch. destruct (is_lru_or_mru _); [done|]. apply only_sets_refl.
Qed.

Lemma touch_rand_calls w p s j : rand_calls (touch w p s j) = rand_calls w.
Proof. unfold touch. by destruct (is_lru_or_mru _). Qed.

Lemma with_mru_sets_other w p mru q :
  0 ≤ p → q ≠ p →
  arr_load (sets (heap (with_mru w p mru))) q = arr_load (sets (heap w)) q.
Proof.
  intros Hp Hq. unfold with_mru, arr_load. cbn [heap sets set_sets].
  destruct (decide (0 ≤ q)); [|done]. apply list_lookup_alter_ne. lia.
Qed.

Lemma touch_sets_other w p s j q :
  0 ≤ p → q ≠ p →
  arr_load (sets (heap (touch w p s j))) q = arr_load (sets (heap w)) q.
Proof.
  intros Hp Hq. unfold touch. destruct (is_lru_or_mru _); [|done].
  by apply with_mru_sets_other.
Qed.

Lemma selected_sets_other g w p s q :
  0 ≤ p → q ≠ p →
  arr_load (sets (heap (selected g w p s).2)) q = arr_load (sets (heap w)) q.
Proof.
  intros Hp Hq. unfold selected.
  destruct (list_find _ _) as [[j l]|]; [by apply touch_sets_other|].
  repeat destruct (decide _); cbn [snd]; try by apply with_mru_sets_other.
  done.
Qed.

Lemma touch_sets_length w p s j :
  length (sets (heap (touch w p s j))) = length (sets (heap w)).
Proof.
  unfold touch. destruct (is_lru_or_mru _); [|done].
  unfold with_mru. cbn [heap sets set_sets]. apply length_alter.
Qed.

Lemma selected_sets_length g w p s :
  length (sets (heap (selected g w p s).2)) = length (sets (heap w)).
Proof.
  unfold selected.
  destruct (list_find _ _) as [[j l]|]; [apply touch_sets_length|].
  repeat destruct (decide _); cbn [snd]; try done;
    unfold with_mru; cbn [heap sets set_sets]; apply length_alter.
Qed.

(** The world after a hit, field by field. *)
Lemma hit_world w index address s j w1 :
  w1 = emit (trace_record_hit index address)
         (count_access (touch w index s j)) →
  lines (heap w1) = lines (heap w) ∧ memory (heap w1) = memory (heap w) ∧
  ram w1 = ram w ∧ rand_calls w1 = rand_calls w ∧
  geometry (heap w1) = geometry (heap w) ∧
  sets (heap w1) = sets (heap (touch w index s j)) ∧
  access_count (heap w1) = to_uint (access_count (heap w) + 1) ∧
  miss_count (heap w1) = miss_count (heap w).
Proof.
  intros ->.
  destruct (only_sets_frame _ _ (touch_only_sets w index s j))
    as (Hl & Hm & Hr & Hg).
  destruct (only_sets_counters _ _ (touch_only_sets w index s j))
    as (Ha & Hmc).
  pose proof (touch_rand_calls w index s j) as Hrc.
  rewrite emit_heap. unfold emit.
  destruct (decide _); cbn; rewrite ?Hl, ?Hm, ?Hr, ?Hrc, ?Ha, ?Hmc;
    repeat split; try done; by rewrite <- Hg.
Qed.

(** The world in which [cache_set_add] runs after a miss, field by field. *)
Lemma missed_world w index address :
  sets (heap (missed w index address)) = sets (heap w) ∧
  lines (heap (missed w index address)) = lines (heap w) ∧
  memory (heap (missed w index address)) = memory (heap w) ∧
  ram (missed w index address) = ram w ∧
  rand_calls (missed w index address) = rand_calls w ∧
  access_count (heap (missed w index address))
    = to_uint (access_count (heap w) + 1) ∧
  miss_count (heap (missed w index address))
    = to_uint (miss_count (heap w) + 1).
Proof.
  unfold missed. rewrite emit_heap. unfold emit.
  by destruct (decide _).
Qed.

Lemma filled_world w line t address l :
  arr_load (lines (heap w)) line = Some l →
  lines (heap (filled w line t address))
    = <[Z.to_nat line := Line 1 t (block l)]> (lines (heap w)) ∧
  memory (heap (filled w line t address))
    = blit (Z.to_nat (line_size (heap w))) (Z.to_nat (block l))
        (Z.land address (to_u64 (Z.lnot (block_offset_mask (heap w)))))
        (ram w) (memory (heap w)) ∧
  sets (heap (filled w line t address)) = sets (heap w) ∧
  ram (filled w line t address) = ram w ∧
  rand_calls (filled w line t address) = rand_calls w ∧
  access_count (heap (filled w line t address)) = access_count (heap w) ∧
  miss_count (heap (filled w line t address)) = miss_count (heap w).
Proof. intros Hl. unfold filled. by rewrite Hl. Qed.

Lemma selected_rand_calls g w p s :
  rand_calls (selected g w p s).2
  = if decide (list_find unused (set_slots (heap w) s) = None
               ∧ policies (heap w) ≠ CACHE_REPLACEMENTPOLICY_MRU
               ∧ policies (heap w) ≠ CACHE_REPLACEMENTPOLICY_LRU)
    then S (rand_calls w) else rand_calls w.
Proof.
  unfold selected. destruct (list_find _ _) as [[j l]|].
  - rewrite decide_False by (by intros [? _]). apply touch_rand_calls.
  - destruct (decide (policies _ = CACHE_REPLACEMENTPOLICY_MRU)).
    { by rewrite decide_False by (by intros (_ & ? & _)). }
    destruct (decide (policies _ = CACHE_REPLACEMENTPOLICY_LRU)).
    { by rewrite decide_False by (by intros (_ & _ & ?)). }
    by rewrite decide_True.
Qed.

Lemma cache_line_retrieve_data_range line offset w v w' :
  cache_line_retrieve_data line offset w = Some (v, w') → 0 ≤ v < 2 ^ 32.
Proof.
  unfold cache_line_retrieve_data. intros H.
  inv_bind H. inv_lift H. inv_lift H. inv_lift H. inv_lift H. inv_lift H.
  injection H as <- _.
  pose proof (Byte.to_N_bounded a1). pose proof (Byte.to_N_bounded a2).
  pose proof (Byte.to_N_bounded a3). pose proof (Byte.to_N_bounded a4).
  lia.
Qed.

(** X7. On a well-formed cache every read of a word that lies inside its
    block returns: the value is a 32-bit word, the cache is well-formed
    again, and neither the geometry and the policy flags of the cache, nor
    the sizes of its arrays, nor the backing memory have changed. *)
Theorem cache_read_keeps_the_cache_well_formed (w : world) (address : Z)
    (g : func_t) :
  wf_world w → word_in_block (heap w) address → nonneg_source g →
  ∃ v w',
    cache_read address g w = Some (v, w') ∧ 0 ≤ v < 2 ^ 32 ∧
    wf_world w' ∧ geometry (heap w') = geometry (heap w) ∧
    length (sets (heap w')) = length (sets (heap w)) ∧
    length (lines (heap w')) = length (lines (heap w)) ∧
    length (memory (heap w')) = length (memory (heap w)) ∧
    ram w' = ram w.
Proof.
  intros Hwf Hin Hg.
  destruct (cache_read_total w address g Hwf Hin Hg)
    as (v & w' & Hread & Hwf' & _).
  exists v, w'. split; [done|].
  destruct (cache_read_cases w address g v w' Hwf Hg Hread)
    as (offset & index & t & s & Hd & Hs & Hcases).
  destruct (wf_set_at w index s Hwf Hs) as (Hidx & _).
  destruct Hcases as [(j & l & Hf & Hw1 & Hv)|(Hf & Hw1 & Hv & Hj)].
  - split; [by eapply cache_line_retrieve_data_range|]. split; [done|].
    destruct (hit_world w index address s (Z.of_nat j) w' Hw1)
      as (Hl & Hm & Hr & _ & Hgeo & Hss & _).
    rewrite Hl, Hm, Hss, touch_sets_length. by repeat split.
  - split; [by eapply cache_line_retrieve_data_range|]. split; [done|].
    destruct (missed_world w index address) as (Hss & Hls & Hm & Hr & _).
    pose proof (selected_only_sets g (missed w index address) index s) as Hsel.
    destruct (only_sets_frame _ _ Hsel) as (Hl2 & Hm2 & Hr2 & Hg2).
    assert (wf_world (selected g (missed w index address) index s).2) as Hwf2.
    { apply wf_selected; [by apply wf_missed|by rewrite Hss]. }
    remember (selected g (missed w index address) index s) as sel eqn:Esel.
    destruct (arr_load_lt (lines (heap sel.2)) (first_index s + sel.1))
      as [l Hl].
    { rewrite Hl2, Hls. by apply (wf_slot_line w index s). }
    destruct (filled_world sel.2 _ t address l Hl)
      as (Hfl & Hfm & Hfs & Hfr & _).
    rewrite Hw1, geometry_filled, Hg2, geometry_missed, Hfl, Hfm, Hfs, Hfr, Hr2, Hr.
    rewrite length_insert, length_blit, Hl2, Hm2, Hls, Hm.
    subst sel. rewrite selected_sets_length, Hss. by repeat split.
Qed.

Lemma lru_cache_word_in_block_16 : word_in_block (heap (boot lru_cache zero_ram)) 16.
Proof. unfold word_in_block. vm_compute. discriminate. Qed.

Lemma cache_read_keeps_the_cache_well_formed_witness :
  ∃ v w',
    cache_read 16 zero_rng (boot lru_cache zero_ram) = Some (v, w') ∧
    0 ≤ v < 2 ^ 32 ∧
    wf_world w' ∧
    geometry (heap w') = geometry (heap (boot lru_cache zero_ram)) ∧
    length (sets (heap w')) = length (sets (heap (boot lru_cache zero_ram))) ∧
    length (lines (heap w')) = length (lines (heap (boot lru_cache zero_ram))) ∧
    length (memory (heap w'))
      = length (memory (heap (boot lru_cache zero_ram))) ∧
    ram w' = ram (boot lru_cache zero_ram).
Proof.
  apply (cache_read_keeps_the_cache_well_formed (boot lru_cache zero_ram) 16
           zero_rng).
  - exact lru_cache_wf.
  - exact lru_cache_word_in_block_16.
  - exact zero_rng_nonneg.
Defined.

Lemma matches_iff t l : matches t l ↔ is_valid l ≠ 0 ∧ tag l = t.
Proof.
  unfold matches, cache_line_check_validity_and_tag.
  repeat destruct (decide _); split; try done; tauto.
Qed.

Lemma not_matches_iff t l : ¬ matches t l ↔ is_valid l = 0 ∨ tag l ≠ t.
Proof.
  rewrite matches_iff. destruct (decide (is_valid l = 0)),
    (decide (tag l = t)); tauto.
Qed.

(** X8. A read whose set is empty misses and fills slot 0 of the set,
    whatever the replacement policy and the random source: after it slot 0
    is valid and carries the tag of the address, and the other slots are
    still invalid. *)
Theorem read_of_an_empty_set_fills_slot_0 (w : world) (address : Z)
    (g : func_t) (offset index t : Z) (s : cache_set_t) :
  wf_world w → word_in_block (heap w) address →
  decode (heap w) address = Some (offset, index, t) →
  arr_load (sets (heap w)) index = Some s →
  Forall unused (set_slots (heap w) s) →
  lookup_misses w address ∧
  ∃ v w' l,
    cache_read address g w = Some (v, w') ∧
    miss_count (heap w') = to_uint (miss_count (heap w) + 1) ∧
    slot (heap w') s 0 = Some l ∧ is_valid l = 1 ∧ tag l = t ∧
    ∀ j l', 0 < j < size s → slot (heap w') s j = Some l' → is_valid l' = 0.
Proof.
  intros Hwf Hin Hd Hs Hempty.
  assert (list_find (matches t) (set_slots (heap w) s) = None) as Hf.
  { apply list_find_None. eapply Forall_impl; [exact Hempty|].
    intros l Hl. apply not_matches_iff. by left. }
  split; [by eapply missed_misses|].
  destruct (wf_set_at w index s Hwf Hs) as (Hidx & Hsz & Hfi & _).
  pose proof (wf_associativity _ Hwf) as Hk.
  pose proof (set_slots_length w index s Hwf Hs) as Hlen.
  assert (selected g (missed w index address) index s
          = (0, touch (missed w index address) index s 0)) as Hsel.
  { unfold selected. rewrite missed_set_slots.
    destruct (set_slots (heap w) s) as [|l0 rest] eqn:Hslots.
    { simpl in Hlen. lia. }
    apply Forall_cons in Hempty as [Hl0 _].
    simpl. by rewrite decide_True. }
  destruct (cache_read_miss_slot w address g offset index t s Hwf Hin Hd Hs Hf)
    as (v & Hread & _ & _).
  { rewrite Hsel. simpl. lia. }
  rewrite Hsel in Hread. cbn [fst snd] in Hread.
  destruct (missed_world w index address) as (Hss & Hls & _ & _ & _ & _ & Hmc).
  destruct (only_sets_frame _ _ (touch_only_sets (missed w index address) index s 0))
    as (Hlt & _).
  destruct (only_sets_counters _ _ (touch_only_sets (missed w index address) index s 0))
    as (_ & Hmt).
  pose proof (wf_slot_line w index s 0 Hwf Hs) as Hline.
  destruct (arr_load_lt (lines (heap w)) (first_index s + 0)) as [l Hl];
    [lia|].
  destruct (filled_world (touch (missed w index address) index s 0)
              (first_index s + 0) t address l)
    as (Hfl & _ & _ & _ & _ & _ & Hfmc).
  { by rewrite Hlt, Hls. }
  eexists v, _, (Line 1 t (block l)). split; [exact Hread|].
  split; [by rewrite Hfmc, Hmt|].
  unfold slot. rewrite Hfl, Hlt, Hls.
  split.
  { apply arr_load_Some. split; [lia|]. apply list_lookup_insert_eq.
    apply arr_load_range in Hl. lia. }
  split; [done|]. split; [done|].
  intros j l' Hj Hl'.
  apply arr_load_Some in Hl' as [Hj0 Hl'].
  rewrite list_lookup_insert_ne in Hl' by lia.
  rewrite Forall_lookup in Hempty. apply (Hempty (Z.to_nat j) l').
  rewrite set_slots_lookup by lia. unfold slot. rewrite Z2Nat.id by lia.
  by apply arr_load_Some.
Qed.

Lemma read_of_an_empty_set_fills_slot_0_witness :
  lookup_misses (boot lru_cache zero_ram) 16 ∧
  ∃ v w' l,
    cache_read 16 zero_rng (boot lru_cache zero_ram) = Some (v, w') ∧
    miss_count (heap w')
      = to_uint (miss_count (heap (boot lru_cache zero_ram)) + 1) ∧
    slot (heap w') (CSet 4 0 [0; 1; 2; 3]) 0 = Some l ∧
    is_valid l = 1 ∧ tag l = 4 ∧
    ∀ j l', 0 < j < size (CSet 4 0 [0; 1; 2; 3]) →
      slot (heap w') (CSet 4 0 [0; 1; 2; 3]) j = Some l' → is_valid l' = 0.
Proof.
  apply (read_of_an_empty_set_fills_slot_0 (boot lru_cache zero_ram) 16
           zero_rng 0 0 4 (CSet 4 0 [0; 1; 2; 3])).
  - exact lru_cache_wf.
  - exact lru_cache_word_in_block_16.
  - reflexivity.
  - reflexivity.
  - repeat constructor.
Defined.

(** X9. On a well-formed cache [cache_set_find_matching_line] scans the
    slots of the set in order: it returns the first line that is valid and
    carries the tag, and [NULL] exactly when no line of the set is valid
    with that tag. It changes no line and no byte of the arena. *)
Theorem lookup_returns_the_first_matching_line (w : world) (p t : Z)
    (s : cache_set_t) :
  wf_world w → arr_load (sets (heap w)) p = Some s →
  ∃ r w',
    cache_set_find_matching_line p t w = Some (r, w') ∧
    lines (heap w') = lines (heap w) ∧
    memory (heap w') = memory (heap w) ∧
    match r with
    | Some line =>
      ∃ j l, line = first_index s + j ∧ 0 ≤ j < size s ∧
        arr_load (lines (heap w)) line = Some l ∧
        is_valid l ≠ 0 ∧ tag l = t ∧
        ∀ i l', 0 ≤ i < j → slot (heap w) s i = Some l' →
          is_valid l' = 0 ∨ tag l' ≠ t
    | None =>
      ∀ i l', 0 ≤ i < size s → slot (heap w) s i = Some l' →
        is_valid l' = 0 ∨ tag l' ≠ t
    end.
Proof.
  intros Hwf Hs.
  rewrite (cache_set_find_matching_line_wf w p s t Hwf Hs).
  destruct (wf_set_at w p s Hwf Hs) as (Hidx & Hsz & Hfi & _).
  pose proof (wf_first_index w p s Hwf Hs) as Hfi0.
  pose proof (set_slots_length w p s Hwf Hs) as Hlen.
  pose proof (wf_associativity _ Hwf) as Hk.
  destruct (list_find _ _) as [[j l]|] eqn:Hf.
  - apply list_find_Some in Hf as (Hj & Hm & Hbefore).
    pose proof (lookup_lt_Some _ _ _ Hj) as Hjlt.
    destruct (only_sets_frame _ _ (touch_only_sets w p s (Z.of_nat j)))
      as (Hl & Hmem & _).
    eexists _, _. split; [done|]. split; [done|]. split; [done|].
    exists (Z.of_nat j), l. split; [done|]. split; [lia|].
    rewrite set_slots_lookup in Hj by lia.
    split; [done|]. apply matches_iff in Hm as [? ?].
    split; [done|]. split; [done|].
    intros i l' Hi Hl'. apply not_matches_iff.
    apply (Hbefore (Z.to_nat i)); [|lia].
    rewrite set_slots_lookup by lia. by rewrite Z2Nat.id by lia.
  - eexists _, _. split; [done|]. split; [done|]. split; [done|].
    intros i l' Hi Hl'. apply not_matches_iff.
    apply list_find_None in Hf. rewrite Forall_lookup in Hf.
    apply (Hf (Z.to_nat i)).
    rewrite set_slots_lookup by lia. by rewrite Z2Nat.id by lia.
Qed.

Lemma lookup_returns_the_first_matching_line_witness :
  ∃ r w',
    cache_set_find_matching_line 0 4 (boot lru_cache_after_16 zero_ram)
    = Some (r, w') ∧
    lines (heap w') = lines (heap (boot lru_cache_after_16 zero_ram)) ∧
    memory (heap w') = memory (heap (boot lru_cache_after_16 zero_ram)) ∧
    match r with
    | Some line =>
      ∃ j l, line = first_index (CSet 4 0 [0; 1; 2; 3]) + j ∧
        0 ≤ j < size (CSet 4 0 [0; 1; 2; 3]) ∧
        arr_load (lines (heap (boot lru_cache_after_16 zero_ram))) line
        = Some l ∧
        is_valid l ≠ 0 ∧ tag l = 4 ∧
        ∀ i l', 0 ≤ i < j →
          slot (heap (boot lru_cache_after_16 zero_ram))
            (CSet 4 0 [0; 1; 2; 3]) i = Some l' →
          is_valid l' = 0 ∨ tag l' ≠ 4
    | None =>
      ∀ i l', 0 ≤ i < size (CSet 4 0 [0; 1; 2; 3]) →
        slot (heap (boot lru_cache_after_16 zero_ram))
          (CSet 4 0 [0; 1; 2; 3]) i = Some l' →
        is_valid l' = 0 ∨ tag l' ≠ 4
    end.
Proof.
  apply (lookup_returns_the_first_matching_line
           (boot lru_cache_after_16 zero_ram) 0 4 (CSet 4 0 [0; 1; 2; 3])).
  - exact lru_cache_after_16_wf.
  - reflexivity.
Defined.

(** ** Further properties: the recency list and the choice of a victim *)

Lemma mru_search_absent n (i : nat) (mru : list Z) x :
  (∀ k v, 0 ≤ k < Z.of_nat (i + n) → arr_load mru k = Some v →
     to_u64 v ≠ x) →
  (i + n ≤ length mru)%nat →
  mru_search n (Z.of_nat i) mru x = Some (-1).
Proof.
  revert i. induction n as [|n IH]; intros i Hall Hlen; [done|].
  simpl. destruct (arr_load_lt mru (Z.of_nat i)) as [v Hv]; [lia|].
  rewrite Hv. simpl. rewrite decide_False by (apply (Hall (Z.of_nat i)); [lia|done]).
  replace (Z.of_nat i + 1) with (Z.of_nat (S i)) by lia.
  apply IH; [|lia]. intros k v' Hk. apply Hall. lia.
Qed.

(** X10. [cache_line_make_mru] called with a slot that is not among the
    first [associativity] entries of the recency list finds no position
    ([index_of_line_index] stays -1), shifts nothing and overwrites entry 0
    with the slot: the entry that was first is lost. *)
Theorem make_mru_of_an_unlisted_slot_overwrites_the_head (w : world) (p : Z)
    (s : cache_set_t) (x : Z) :
  arr_load (sets (heap w)) p = Some s →
  0 < associativity (heap w) ≤ Z.of_nat (length (mru_list s)) →
  (∀ i v, 0 ≤ i < associativity (heap w) →
     arr_load (mru_list s) i = Some v → to_u64 v ≠ x) →
  cache_line_make_mru p x w
  = Some (tt, with_mru w p (<[O := to_int x]> (mru_list s))).
Proof.
  intros Hs Hk Hall. apply cache_line_make_mru_Some.
  exists s, (-1), (mru_list s), (<[O := to_int x]> (mru_list s)),
    (<[Z.to_nat p := CSet (size s) (first_index s)
                        (<[O := to_int x]> (mru_list s))]> (sets (heap w))).
  split; [done|]. split; [|split; [done|split; [|split]]].
  - apply (mru_search_absent _ O); [|lia].
    intros k v Hk'. apply Hall. lia.
  - by rewrite arr_store_run by lia.
  - apply arr_store_run. by eapply arr_load_range.
  - unfold with_mru. do 2 f_equal.
    apply arr_load_Some in Hs as [_ Hs].
    by rewrite <- (insert_alter_lookup _ _ _ _ Hs).
Qed.

Lemma make_mru_of_an_unlisted_slot_overwrites_the_head_witness :
  cache_line_make_mru 0 7 (boot lru_cache zero_ram)
  = Some (tt, with_mru (boot lru_cache zero_ram) 0
                (<[O := to_int 7]> (mru_list (CSet 4 0 [0; 1; 2; 3])))).
Proof.
  apply (make_mru_of_an_unlisted_slot_overwrites_the_head
           (boot lru_cache zero_ram) 0 (CSet 4 0 [0; 1; 2; 3]) 7).
  - reflexivity.
  - simpl. lia.
  - intros i v Hi Hv. simpl in Hi.
    assert (i = 0 ∨ i = 1 ∨ i = 2 ∨ i = 3) as [-> | [-> | [-> | ->]]] by lia;
      injection Hv as <-; discriminate.
Defined.

(** X11. [find_available_cache_line] calls the random source exactly when
    every slot of the set is in use and the flag word is neither
    [CACHE_REPLACEMENTPOLICY_MRU] nor [CACHE_REPLACEMENTPOLICY_LRU]; it
    then calls it once, takes slot [r % size] for the number [r] drawn,
    and changes nothing else, the recency list included. The slot lies in
    the set when [r] is not negative. In every other case the source is
    not called. No line is changed in any case. *)
Theorem random_source_is_drawn_once_on_a_full_set (w : world) (p : Z)
    (s : cache_set_t) (g : func_t) :
  wf_world w → arr_load (sets (heap w)) p = Some s →
  ∃ line w',
    find_available_cache_line p g w = Some (line, w') ∧
    lines (heap w') = lines (heap w) ∧
    (Forall (λ l, is_valid l ≠ 0) (set_slots (heap w) s) →
     policies (heap w) ≠ CACHE_REPLACEMENTPOLICY_MRU →
     policies (heap w) ≠ CACHE_REPLACEMENTPOLICY_LRU →
     line = first_index s + g (rand_calls w) `rem` size s ∧
     w' = drawn w ∧
     (0 ≤ g (rand_calls w) →
      first_index s ≤ line < first_index s + size s)) ∧
    (Exists unused (set_slots (heap w) s) ∨
     policies (heap w) = CACHE_REPLACEMENTPOLICY_MRU ∨
     policies (heap w) = CACHE_REPLACEMENTPOLICY_LRU →
     rand_calls w' = rand_calls w).
Proof.
  intros Hwf Hs.
  rewrite (find_available_cache_line_wf w p s g Hwf Hs).
  destruct (wf_set_at w p s Hwf Hs) as (_ & Hsz & _ & _).
  pose proof (wf_associativity _ Hwf) as Hk.
  eexists _, _. split; [done|].
  destruct (only_sets_frame _ _ (selected_only_sets g w p s)) as (Hl & _).
  split; [done|]. split.
  - intros Hfull Hmru Hlru. unfold selected.
    assert (list_find unused (set_slots (heap w) s) = None) as ->.
    { apply list_find_None. eapply Forall_impl; [exact Hfull|]. done. }
    rewrite !decide_False by done. cbn [fst snd].
    split; [done|]. split; [done|].
    intros Hr. pose proof (Z.rem_bound_pos (g (rand_calls w)) (size s)). lia.
  - intros Hcase. rewrite selected_rand_calls.
    apply decide_False. intros (Hnone & Hmru & Hlru).
    destruct Hcase as [Hex|[?|?]]; [|done..].
    apply list_find_None in Hnone. apply Exists_exists in Hex as (l & Hin & Hu).
    rewrite Forall_forall in Hnone. by apply (Hnone l).
Qed.

Lemma read_all_wf addresses g : ∀ w vs w',
  wf_world w → nonneg_source g →
  read_all addresses g w = Some (vs, w') → wf_world w'.
Proof.
  induction addresses as [|a rest IH]; intros w vs w' Hwf Hg Hrun.
  - by injection Hrun as <- <-.
  - simpl in Hrun. inv_bind Hrun. inv_bind Hrun. injection Hrun as <- <-.
    destruct (wf_after_read w a g _ _ Hwf Hg H) as (Hwf1 & _).
    by apply (IH w0 a1 w1).
Qed.

Lemma random_trace_cache_wf : wf_cache random_trace_cache.
Proof.
  destruct (cache_new_wf 16 4 4
              (CACHE_REPLACEMENTPOLICY_RANDOM + CACHE_TRACEPOLICY))
    as (c & Hc & Hwf & _); [lia|lia|lia|done|done|].
  rewrite random_trace_cache_new in Hc. by injection Hc as ->.
Qed.

Lemma random_source_is_drawn_once_on_a_full_set_witness :
  ∃ vs w,
    read_all [0; 16; 32; 48] six_rng (boot random_trace_cache zero_ram)
    = Some (vs, w) ∧
    Forall (λ l, is_valid l ≠ 0)
      (set_slots (heap w) (CSet 4 0 [0; 1; 2; 3])) ∧
    policies (heap w) ≠ CACHE_REPLACEMENTPOLICY_MRU ∧
    policies (heap w) ≠ CACHE_REPLACEMENTPOLICY_LRU ∧
    ∃ line w',
      find_available_cache_line 0 six_rng w = Some (line, w') ∧
      lines (heap w') = lines (heap w) ∧
      line = first_index (CSet 4 0 [0; 1; 2; 3])
             + six_rng (rand_calls w) `rem` size (CSet 4 0 [0; 1; 2; 3]) ∧
      line = 2 ∧
      w' = drawn w ∧ rand_calls w' = S (rand_calls w) ∧
      first_index (CSet 4 0 [0; 1; 2; 3]) ≤ line
      < first_index (CSet 4 0 [0; 1; 2; 3]) + size (CSet 4 0 [0; 1; 2; 3]).
Proof.
  eexists _, _. split; [vm_compute; reflexivity|].
  assert (Forall (λ l, is_valid l ≠ 0)
            [Line 1 0 0; Line 1 4 4; Line 1 8 8; Line 1 12 12]) as Hfull
    by (repeat constructor; discriminate).
  split; [exact Hfull|].
  split; [discriminate|]. split; [discriminate|].
  match goal with
  | |- ∃ line w', find_available_cache_line 0 six_rng ?w = _ ∧ _ =>
    destruct (random_source_is_drawn_once_on_a_full_set w 0
                (CSet 4 0 [0; 1; 2; 3]) six_rng)
      as (line & w' & Hfind & Hlines & Hdrawn & _)
  end.
  - apply (read_all_wf [0; 16; 32; 48] six_rng
             (boot random_trace_cache zero_ram) [0; 0; 0; 0]);
      [exact random_trace_cache_wf | intros n; unfold six_rng; lia
      | vm_compute; reflexivity].
  - reflexivity.
  - destruct (Hdrawn Hfull) as (Hline & Hw' & Hin);
      [discriminate | discriminate |].
    exists line, w'. split; [exact Hfind|]. split; [exact Hlines|].
    split; [exact Hline|]. split; [by rewrite Hline|].
    split; [exact Hw'|]. split; [by rewrite Hw'|].
    apply Hin. unfold six_rng. lia.
Defined.

(** ** Further properties: the footprint of a read *)

Lemma blit_lookup_out n dst src mem (arena : list byte) (m : nat) :
  (m < dst ∨ dst + n ≤ m)%nat →
  blit n dst src mem arena !! m = arena !! m.
Proof.
  revert dst src arena. induction n as [|n IH]; intros dst src arena Hm;
    [done|].
  simpl. rewrite IH by lia. apply list_lookup_insert_ne. lia.
Qed.

Lemma blit_lookup_in n dst src mem (arena : list byte) (i : nat) :
  (i < n)%nat → (dst + n ≤ length arena)%nat →
  blit n dst src mem arena !! (dst + i)%nat = Some (mem (src + Z.of_nat i)).
Proof.
  revert dst src arena i. induction n as [|n IH]; intros dst src arena i Hi Hlen;
    [lia|].
  simpl. destruct i as [|i].
  - rewrite blit_lookup_out by lia. rewrite Nat.add_0_r, Z.add_0_r.
    apply list_lookup_insert_eq. lia.
  - replace (dst + S i)%nat with (S dst + i)%nat by lia.
    rewrite IH by (rewrite ?length_insert; lia). f_equal. f_equal. lia.
Qed.

Lemma lookup_hits_find w address offset index t s :
  wf_world w → lookup_hits w address →
  decode (heap w) address = Some (offset, index, t) →
  arr_load (sets (heap w)) index = Some s →
  ∃ j l, list_find (matches t) (set_slots (heap w) s) = Some (j, l).
Proof.
  intros Hwf (o' & i' & t' & line & w1 & Hd' & Hf) Hd Hs.
  rewrite Hd in Hd'. injection Hd' as <- <- <-.
  rewrite (cache_set_find_matching_line_wf w index s t Hwf Hs) in Hf.
  destruct (list_find _ _) as [[j l]|]; [by eauto|done].
Qed.

Lemma lookup_misses_find w address offset index t s :
  wf_world w → lookup_misses w address →
  decode (heap w) address = Some (offset, index, t) →
  arr_load (sets (heap w)) index = Some s →
  list_find (matches t) (set_slots (heap w) s) = None.
Proof.
  intros Hwf (o' & i' & t' & w1 & Hd' & Hf) Hd Hs.
  rewrite Hd in Hd'. injection Hd' as <- <- <-.
  rewrite (cache_set_find_matching_line_wf w index s t Hwf Hs) in Hf.
  by destruct (list_find _ _) as [[j l]|].
Qed.

(** X12. A read that hits changes no line and no byte of the arena, does
    not call the random source and counts no miss. It changes no set other
    than the one the address selects, and under flag words other than
    [CACHE_REPLACEMENTPOLICY_LRU] and [CACHE_REPLACEMENTPOLICY_MRU] it
    changes no recency list at all. *)
Theorem hit_changes_the_recency_list_only (w : world) (address : Z)
    (g : func_t) :
  wf_world w → word_in_block (heap w) address → lookup_hits w address →
  ∃ v w' offset index t,
    cache_read address g w = Some (v, w') ∧
    decode (heap w) address = Some (offset, index, t) ∧
    lines (heap w') = lines (heap w) ∧
    memory (heap w') = memory (heap w) ∧
    rand_calls w' = rand_calls w ∧
    miss_count (heap w') = miss_count (heap w) ∧
    (∀ q, q ≠ index →
       arr_load (sets (heap w')) q = arr_load (sets (heap w)) q) ∧
    (policies (heap w) ≠ CACHE_REPLACEMENTPOLICY_LRU →
     policies (heap w) ≠ CACHE_REPLACEMENTPOLICY_MRU →
     sets (heap w') = sets (heap w)).
Proof.
  intros Hwf Hin Hhit.
  destruct (decode_wf w address Hwf)
    as (offset & index & t & s & Hd & _ & Hs).
  destruct (lookup_hits_find w address offset index t s Hwf Hhit Hd Hs)
    as (j & l & Hf).
  destruct (cache_read_hit_wf w address g offset index t s j l
              Hwf Hin Hd Hs Hf) as (v & Hread & _).
  destruct (hit_world w index address s (Z.of_nat j) _ eq_refl)
    as (Hl & Hm & _ & Hrc & _ & Hss & _ & Hmc).
  destruct (wf_set_at w index s Hwf Hs) as (Hidx & _).
  eexists v, _, offset, index, t. split; [exact Hread|].
  split; [done|]. split; [done|]. split; [done|]. split; [done|].
  split; [done|]. split.
  - intros q Hq. rewrite Hss. apply touch_sets_other; lia.
  - intros Hlru Hmru. rewrite Hss. unfold touch, is_lru_or_mru.
    by rewrite !bool_decide_eq_false_2.
Qed.

Lemma hit_changes_the_recency_list_only_witness :
  ∃ v w' offset index t,
    cache_read 16 zero_rng (boot lru_cache_after_16 zero_ram) = Some (v, w') ∧
    decode (heap (boot lru_cache_after_16 zero_ram)) 16
    = Some (offset, index, t) ∧
    lines (heap w') = lines (heap (boot lru_cache_after_16 zero_ram)) ∧
    memory (heap w') = memory (heap (boot lru_cache_after_16 zero_ram)) ∧
    rand_calls w' = rand_calls (boot lru_cache_after_16 zero_ram) ∧
    miss_count (heap w')
    = miss_count (heap (boot lru_cache_after_16 zero_ram)) ∧
    (∀ q, q ≠ index →
       arr_load (sets (heap w')) q
       = arr_load (sets (heap (boot lru_cache_after_16 zero_ram))) q) ∧
    (policies (heap (boot lru_cache_after_16 zero_ram))
       ≠ CACHE_REPLACEMENTPOLICY_LRU →
     policies (heap (boot lru_cache_after_16 zero_ram))
       ≠ CACHE_REPLACEMENTPOLICY_MRU →
     sets (heap w') = sets (heap (boot lru_cache_after_16 zero_ram))).
Proof.
  apply (hit_changes_the_recency_list_only (boot lru_cache_after_16 zero_ram)
           16 zero_rng).
  - exact lru_cache_after_16_wf.
  - unfold word_in_block. vm_compute. discriminate.
  - exists 0, 0, 4. eexists _, _. split; reflexivity.
Defined.

(** X13. A read that misses rewrites one line, in the set that the address
    selects: the line becomes valid with the tag of the address and keeps
    its block. Every other line, every byte of the arena outside the block
    of that line, and every other set are as before. *)
Theorem miss_rewrites_one_line_of_one_set (w : world) (address : Z)
    (g : func_t) :
  wf_world w → word_in_block (heap w) address → nonneg_source g →
  lookup_misses w address →
  ∃ v w' offset index t s j l,
    cache_read address g w = Some (v, w') ∧
    decode (heap w) address = Some (offset, index, t) ∧
    arr_load (sets (heap w)) index = Some s ∧ 0 ≤ j < size s ∧
    arr_load (lines (heap w)) (first_index s + j) = Some l ∧
    arr_load (lines (heap w')) (first_index s + j)
    = Some (Line 1 t (block l)) ∧
    (∀ k, k ≠ first_index s + j →
       arr_load (lines (heap w')) k = arr_load (lines (heap w)) k) ∧
    (∀ m, m < block l ∨ block l + line_size (heap w) ≤ m →
       arr_load (memory (heap w')) m = arr_load (memory (heap w)) m) ∧
    (∀ q, q ≠ index →
       arr_load (sets (heap w')) q = arr_load (sets (heap w)) q).
Proof.
  intros Hwf Hin Hg Hmiss.
  destruct (decode_wf w address Hwf)
    as (offset & index & t & s & Hd & _ & Hs).
  pose proof (lookup_misses_find w address offset index t s Hwf Hmiss Hd Hs)
    as Hf.
  destruct (cache_read_miss_wf w address g offset index t s
              Hwf Hin Hg Hd Hs Hf) as (v & Hread & _ & Hj).
  destruct (missed_world w index address) as (Hss & Hls & Hm & _).
  pose proof (selected_only_sets g (missed w index address) index s) as Hsel.
  destruct (only_sets_frame _ _ Hsel) as (Hl2 & Hm2 & _ & Hg2).
  destruct (wf_set_at w index s Hwf Hs) as (Hidx & Hsz & _).
  pose proof (wf_first_index w index s Hwf Hs) as Hfi0.
  pose proof (selected_sets_other g (missed w index address) index s) as Hother.
  remember (selected g (missed w index address) index s) as sel eqn:Esel.
  pose proof (wf_slot_line w index s sel.1 Hwf Hs Hj) as Hline.
  destruct (arr_load_lt (lines (heap w)) (first_index s + sel.1))
    as [l Hl]; [done|].
  destruct (filled_world sel.2 (first_index s + sel.1) t address l)
    as (Hfl & Hfm & Hfs & _); [by rewrite Hl2, Hls|].
  destruct (wf_line_at w _ l Hwf Hl) as [_ Hblk].
  pose proof (wf_line_size _ Hwf) as Hlsz.
  assert (line_size (heap sel.2) = line_size (heap w)) as Hlsz2.
  { assert (geometry (heap sel.2) = geometry (heap w)) as Hgeo
      by (rewrite Hg2; apply geometry_missed).
    unfold geometry in Hgeo. by injection Hgeo. }
  eexists v, _, offset, index, t, s, sel.1, l.
  split; [exact Hread|]. split; [done|]. split; [done|].
  split; [lia|]. split; [done|].
  rewrite Hfl, Hfm, Hfs, Hl2, Hm2, Hls, Hm, Hlsz2.
  split; [|split; [|split]].
  - apply arr_load_Some. split; [lia|].
    apply list_lookup_insert_eq. lia.
  - intros k Hk. unfold arr_load. destruct (decide (0 ≤ k)); [|done].
    apply list_lookup_insert_ne. lia.
  - intros m Hm'. unfold arr_load. destruct (decide (0 ≤ m)); [|done].
    apply blit_lookup_out. nia.
  - intros q Hq. rewrite Hother by lia. by rewrite Hss.
Qed.

Lemma miss_rewrites_one_line_of_one_set_witness :
  ∃ v w' offset index t s j l,
    cache_read 16 zero_rng (boot lru_cache zero_ram) = Some (v, w') ∧
    decode (heap (boot lru_cache zero_ram)) 16 = Some (offset, index, t) ∧
    arr_load (sets (heap (boot lru_cache zero_ram))) index = Some s ∧
    0 ≤ j < size s ∧
    arr_load (lines (heap (boot lru_cache zero_ram))) (first_index s + j)
    = Some l ∧
    arr_load (lines (heap w')) (first_index s + j)
    = Some (Line 1 t (block l)) ∧
    (∀ k, k ≠ first_index s + j →
       arr_load (lines (heap w')) k
       = arr_load (lines (heap (boot lru_cache zero_ram))) k) ∧
    (∀ m, m < block l
          ∨ block l + line_size (heap (boot lru_cache zero_ram)) ≤ m →
       arr_load (memory (heap w')) m
       = arr_load (memory (heap (boot lru_cache zero_ram))) m) ∧
    (∀ q, q ≠ index →
       arr_load (sets (heap w')) q
       = arr_load (sets (heap (boot lru_cache zero_ram))) q).
Proof.
  apply (miss_rewrites_one_line_of_one_set (boot lru_cache zero_ram) 16
           zero_rng).
  - exact lru_cache_wf.
  - exact lru_cache_word_in_block_16.
  - exact zero_rng_nonneg.
  - exists 0, 0, 4. eexists. split; reflexivity.
Defined.

(** ** Further properties: invariants of a trace of reads *)

(** The sets of a cache keep their place through a read. *)
Lemma wf_sets_same_shape w w' p s' :
  wf_world w → wf_world w' →
  associativity (heap w') = associativity (heap w) →
  length (sets (heap w')) = length (sets (heap w)) →
  arr_load (sets (heap w')) p = Some s' →
  ∃ s, arr_load (sets (heap w)) p = Some s ∧
    size s' = size s ∧ first_index s' = first_index s.
Proof.
  intros Hwf Hwf' Hk Hlen Hs'.
  destruct (arr_load_lt (sets (heap w)) p) as [s Hs].
  { rewrite <- Hlen. by eapply arr_load_range. }
  exists s. split; [done|]. exact (wf_set_same w w' p s s' Hwf Hwf' Hk Hs Hs').
Qed.

(** What a read leaves of the lines and sets: either the lines are the
    same, or one line of the set of the address, which matched no line of
    it, has been filled under the tag of the address. *)
Lemma cache_read_lines w address g v w1 :
  wf_world w → nonneg_source g →
  cache_read address g w = Some (v, w1) →
  wf_world w1 ∧
  associativity (heap w1) = associativity (heap w) ∧
  length (sets (heap w1)) = length (sets (heap w)) ∧
  ∃ offset index t s,
    decode (heap w) address = Some (offset, index, t) ∧
    arr_load (sets (heap w)) index = Some s ∧
    (lines (heap w1) = lines (heap w) ∨
     ∃ j l,
       0 ≤ j < associativity (heap w) ∧
       list_find (matches t) (set_slots (heap w) s) = None ∧
       arr_load (lines (heap w)) (first_index s + j) = Some l ∧
       lines (heap w1)
       = <[Z.to_nat (first_index s + j) := Line 1 t (block l)]>
           (lines (heap w))).
Proof.
  intros Hwf Hg Hread.
  destruct (wf_after_read w address g v w1 Hwf Hg Hread)
    as (Hwf1 & _ & _ & Hk).
  split; [done|]. split; [done|].
  destruct (cache_read_cases w address g v w1 Hwf Hg Hread)
    as (offset & index & t & s & Hd & Hs & Hcases).
  destruct Hcases as [(j & l & Hf & Hw1 & Hv)|(Hf & Hw1 & Hv & Hj)].
  - destruct (hit_world w index address s (Z.of_nat j) w1 Hw1)
      as (Hl & _ & _ & _ & _ & Hss & _).
    split; [by rewrite Hss, touch_sets_length|].
    exists offset, index, t, s. split; [done|]. split; [done|]. by left.
  - destruct (missed_world w index address) as (Hss & Hls & _).
    pose proof (selected_only_sets g (missed w index address) index s) as Hsel.
    destruct (only_sets_frame _ _ Hsel) as (Hl2 & _).
    pose proof (selected_sets_length g (missed w index address) index s)
      as Hlen2.
    remember (selected g (missed w index address) index s) as sel eqn:Esel.
    pose proof (wf_slot_line w index s sel.1 Hwf Hs Hj) as Hline.
    destruct (arr_load_lt (lines (heap w)) (first_index s + sel.1))
      as [l Hl]; [done|].
    destruct (filled_world sel.2 (first_index s + sel.1) t address l)
      as (Hfl & _ & Hfs & _); [by rewrite Hl2, Hls|].
    split; [by rewrite Hw1, Hfs, Hlen2, Hss|].
    exists offset, index, t, s. split; [done|]. split; [done|].
    right. exists sel.1, l. split; [done|]. split; [done|]. split; [done|].
    by rewrite Hw1, Hfl, Hl2, Hls.
Qed.

Lemma distinct_tags_read w address g v w1 :
  wf_world w → nonneg_source g → distinct_tags (heap w) →
  cache_read address g w = Some (v, w1) →
  distinct_tags (heap w1).
Proof.
  intros Hwf Hg Hdist Hread.
  destruct (cache_read_lines w address g v w1 Hwf Hg Hread)
    as (Hwf1 & Hk & Hlen & offset & index & t & s & Hd & Hs & Hcases).
  intros p s' i j li lj Hs' Hi Hj Hli Hlj Hvi Hvj Htag.
  destruct (wf_sets_same_shape w w1 p s' Hwf Hwf1 Hk Hlen Hs')
    as (sp & Hsp & Hsz & Hfi).
  unfold slot in Hli, Hlj. rewrite Hfi in Hli, Hlj. rewrite Hsz in Hi, Hj.
  destruct Hcases as [Hsame|(j0 & l0 & Hj0 & Hf & Hl0 & Hlines)].
  { rewrite Hsame in Hli, Hlj. by eapply (Hdist p sp i j li lj). }
  destruct (wf_set_at w p sp Hwf Hsp) as (Hp & Hszp & Hfip & _).
  destruct (wf_set_at w index s Hwf Hs) as (Hidx & Hszs & Hfis & _).
  pose proof (wf_associativity _ Hwf) as Hassoc.
  rewrite Hlines in Hli, Hlj.
  apply arr_load_Some in Hli as [_ Hli]. apply arr_load_Some in Hlj as [_ Hlj].
  apply list_find_None in Hf. rewrite Forall_lookup in Hf.
  assert (∀ (i' : Z) l', 0 ≤ i' < size s →
            lines (heap w) !! Z.to_nat (first_index s + i') = Some l' →
            is_valid l' ≠ 0 → tag l' ≠ t) as Hnot.
  { intros i' l' Hi' Hl' Hv' Ht'.
    apply (Hf (Z.to_nat i') l').
    - rewrite set_slots_lookup by lia. unfold slot.
      rewrite Z2Nat.id by lia. apply arr_load_Some. split; [lia|done].
    - by apply matches_iff. }
  destruct (decide (first_index sp + i = first_index s + j0)) as [Ei|Ni];
    destruct (decide (first_index sp + j = first_index s + j0)) as [Ej|Nj].
  - lia.
  - rewrite Ei in Hli. rewrite list_lookup_insert_eq in Hli
      by (apply arr_load_range in Hl0; lia).
    injection Hli as <-. cbn [tag] in Htag.
    rewrite list_lookup_insert_ne in Hlj by lia.
    assert (p = index) as -> by nia.
    rewrite Hsp in Hs. injection Hs as ->.
    exfalso. by apply (Hnot j lj); [lia|done..].
  - rewrite Ej in Hlj. rewrite list_lookup_insert_eq in Hlj
      by (apply arr_load_range in Hl0; lia).
    injection Hlj as <-. cbn [tag] in Htag.
    rewrite list_lookup_insert_ne in Hli by lia.
    assert (p = index) as -> by nia.
    rewrite Hsp in Hs. injection Hs as ->.
    exfalso. by apply (Hnot i li); [lia|done..].
  - rewrite list_lookup_insert_ne in Hli by lia.
    rewrite list_lookup_insert_ne in Hlj by lia.
    apply (Hdist p sp i j li lj); try done; unfold slot;
      apply arr_load_Some; (split; [lia|done]).
Qed.

(** X14. No trace of reads ever puts the same tag on two valid lines of
    one set: the property holds of a cache whose lines are all invalid, and
    every [cache_read] keeps it (and the shape of the cache). *)
Theorem reads_never_duplicate_a_tag_in_a_set (w : world)
    (addresses : list Z) (g : func_t) (vs : list Z) (w' : world) :
  wf_world w → nonneg_source g →
  Forall unused (lines (heap w)) ∨ distinct_tags (heap w) →
  read_all addresses g w = Some (vs, w') →
  wf_world w' ∧ distinct_tags (heap w').
Proof.
  intros Hwf Hg Hstart.
  assert (distinct_tags (heap w)) as Hdist.
  { destruct Hstart as [Hempty|]; [|done].
    intros p s i j li lj _ _ _ Hli _ Hvi _ _.
    apply arr_load_Some in Hli as [_ Hli].
    rewrite Forall_lookup in Hempty. by pose proof (Hempty _ _ Hli). }
  clear Hstart. revert w vs Hwf Hdist.
  induction addresses as [|a rest IH]; intros w vs Hwf Hdist Hrun.
  - by injection Hrun as <- <-.
  - simpl in Hrun. inv_bind Hrun. inv_bind Hrun. injection Hrun as <- <-.
    destruct (wf_after_read w a g _ _ Hwf Hg H) as (Hwf1 & _).
    pose proof (distinct_tags_read w a g _ _ Hwf Hg Hdist H) as Hdist1.
    by apply (IH w0 a1).
Qed.

Lemma reads_never_duplicate_a_tag_in_a_set_witness :
  ∃ vs w',
    read_all [0; 16; 32; 48; 0; 64] zero_rng (boot lru_cache zero_ram)
    = Some (vs, w') ∧
    wf_world w' ∧ distinct_tags (heap w').
Proof.
  eexists _, _. split; [vm_compute; reflexivity|].
  eapply (reads_never_duplicate_a_tag_in_a_set (boot lru_cache zero_ram)
            [0; 16; 32; 48; 0; 64] zero_rng).
  - exact lru_cache_wf.
  - exact zero_rng_nonneg.
  - left. repeat constructor.
  - vm_compute. reflexivity.
Defined.

(** X15. One fill serves the whole block: after a read of an address,
    the lookup of every address with the same index and the same tag finds
    a line, so that reading it counts no miss. *)
Theorem addresses_of_one_block_hit_after_a_read (w : world)
    (address address' : Z) (g : func_t) (v : Z) (w1 : world)
    (offset offset' index t : Z) :
  wf_world w → nonneg_source g →
  cache_read address g w = Some (v, w1) →
  decode (heap w) address = Some (offset, index, t) →
  decode (heap w) address' = Some (offset', index, t) →
  lookup_hits w1 address' ∧
  (word_in_block (heap w) address' →
   ∃ v' w2, cache_read address' g w1 = Some (v', w2) ∧
     miss_count (heap w2) = miss_count (heap w1)).
Proof.
  intros Hwf Hg Hread Hd Hd'.
  destruct (wf_after_read w address g v w1 Hwf Hg Hread)
    as (Hwf1 & Hdec & _ & _).
  destruct (cached_after_read w address g v w1 Hwf Hg Hread)
    as (o1 & i1 & t1 & s1 & j & l & Hd1 & Hs1 & Hf & _).
  rewrite Hdec, Hd in Hd1. injection Hd1 as <- <- <-.
  assert (lookup_hits w1 address') as Hhit.
  { exists offset', index, t. eexists _, _. split; [by rewrite Hdec|].
    rewrite (cache_set_find_matching_line_wf w1 index s1 t Hwf1 Hs1).
    by rewrite Hf. }
  split; [done|]. intros Hin.
  assert (word_in_block (heap w1) address') as Hin1.
  { unfold word_in_block in *.
    rewrite <- (decode_offset _ _ _ _ _ Hd') in Hin.
    assert (decode (heap w1) address' = Some (offset', index, t)) as Hd1'
      by (by rewrite Hdec).
    rewrite <- (decode_offset _ _ _ _ _ Hd1').
    destruct (cache_read_lines w address g v w1 Hwf Hg Hread) as (_ & _).
    assert (line_size (heap w1) = line_size (heap w)) as ->; [|done].
    destruct (cache_read_cases w address g v w1 Hwf Hg Hread)
      as (o2 & i2 & t2 & s2 & _ & _ & Hcases).
    assert (geometry (heap w1) = geometry (heap w)) as Hgeo.
    { destruct Hcases as [(j' & l' & _ & Hw1 & _)|(_ & Hw1 & _)].
      - by destruct (hit_world w i2 address s2 (Z.of_nat j') w1 Hw1)
          as (_ & _ & _ & _ & Hgeo & _).
      - rewrite Hw1, geometry_filled.
        destruct (only_sets_frame _ _
                    (selected_only_sets g (missed w i2 address) i2 s2))
          as (_ & _ & _ & ->).
        apply geometry_missed. }
    unfold geometry in Hgeo. by injection Hgeo. }
  destruct (cache_read_hit_wf w1 address' g offset' index t s1 j l
              Hwf1 Hin1) as (v' & Hread' & _); [by rewrite Hdec|done..|].
  eexists v', _. split; [exact Hread'|].
  by destruct (hit_world w1 index address' s1 (Z.of_nat j) _ eq_refl)
    as (_ & _ & _ & _ & _ & _ & _ & Hmc).
Qed.

Lemma addresses_of_one_block_hit_after_a_read_witness :
  lookup_hits (boot lru_cache_after_16 zero_ram) 17 ∧
  (word_in_block (heap (boot lru_cache zero_ram)) 17 →
   ∃ v' w2,
     cache_read 17 zero_rng (boot lru_cache_after_16 zero_ram)
     = Some (v', w2) ∧
     miss_count (heap w2)
     = miss_count (heap (boot lru_cache_after_16 zero_ram))).
Proof.
  apply (addresses_of_one_block_hit_after_a_read (boot lru_cache zero_ram)
           16 17 zero_rng 0 (boot lru_cache_after_16 zero_ram) 0 1 0 4).
  - exact lru_cache_wf.
  - exact zero_rng_nonneg.
  - exact lru_cache_read_16.
  - reflexivity.
  - reflexivity.
Defined.

(** X16. In a direct-mapped cache (associativity 1) a read evicts whatever
    its set held: after a read of an address, the lookup of every address
    with the same index and another tag finds no line, under every
    replacement policy. *)
Theorem direct_mapped_read_evicts_the_other_tags (w : world)
    (address address' : Z) (g : func_t) (v : Z) (w1 : world)
    (offset offset' index t t' : Z) :
  wf_world w → nonneg_source g →
  associativity (heap w) = 1 →
  cache_read address g w = Some (v, w1) →
  decode (heap w) address = Some (offset, index, t) →
  decode (heap w) address' = Some (offset', index, t') →
  t' ≠ t →
  lookup_misses w1 address'.
Proof.
  intros Hwf Hg Hone Hread Hd Hd' Hne.
  destruct (wf_after_read w address g v w1 Hwf Hg Hread)
    as (Hwf1 & Hdec & _ & Hk).
  destruct (cached_after_read w address g v w1 Hwf Hg Hread)
    as (o1 & i1 & t1 & s1 & j & l & Hd1 & Hs1 & Hf & _).
  rewrite Hdec, Hd in Hd1. injection Hd1 as <- <- <-.
  apply (missed_misses w1 address' offset' index t' s1 Hwf1);
    [by rewrite Hdec|done|].
  pose proof (set_slots_length w1 index s1 Hwf1 Hs1) as Hlen.
  rewrite Hk, Hone in Hlen.
  apply list_find_Some in Hf as (Hj & Hm & _).
  apply list_find_None. apply Forall_lookup. intros i l' Hl'.
  pose proof (lookup_lt_Some _ _ _ Hj). pose proof (lookup_lt_Some _ _ _ Hl').
  assert (i = j) as -> by lia. rewrite Hj in Hl'. injection Hl' as <-.
  apply matches_iff in Hm as [_ Ht]. apply not_matches_iff. right. lia.
Qed.

Lemma direct_mapped_cache_new :
  cache_new 16 4 1 CACHE_REPLACEMENTPOLICY_LRU = Some direct_mapped_cache.
Proof. vm_compute. reflexivity. Qed.

Lemma direct_mapped_cache_wf : wf_cache direct_mapped_cache.
Proof.
  destruct (cache_new_wf 16 4 1 CACHE_REPLACEMENTPOLICY_LRU)
    as (c & Hc & Hwf & _); [lia|lia|lia|done|done|].
  rewrite direct_mapped_cache_new in Hc. by injection Hc as ->.
Qed.

Lemma direct_mapped_read_evicts_the_other_tags_witness :
  ∃ w1,
    cache_read 16 zero_rng (boot direct_mapped_cache zero_ram) = Some (0, w1) ∧
    lookup_misses w1 32.
Proof.
  eexists. split; [vm_compute; reflexivity|].
  apply (direct_mapped_read_evicts_the_other_tags
           (boot direct_mapped_cache zero_ram) 16 32 zero_rng 0 _ 0 0 0 1 2).
  - exact direct_mapped_cache_wf.
  - exact zero_rng_nonneg.
  - reflexivity.
  - vm_compute. reflexivity.
  - reflexivity.
  - reflexivity.
  - discriminate.
Defined.

(** ** Further properties: the counters *)

Lemma cache_read_counts w address g v w1 :
  wf_world w → nonneg_source g →
  cache_read address g w = Some (v, w1) →
  access_count (heap w1) = to_uint (access_count (heap w) + 1) ∧
  (miss_count (heap w1) = miss_count (heap w) ∨
   miss_count (heap w1) = to_uint (miss_count (heap w) + 1)).
Proof.
  intros Hwf Hg Hread.
  destruct (cache_read_cases w address g v w1 Hwf Hg Hread)
    as (offset & index & t & s & Hd & Hs & Hcases).
  destruct Hcases as [(j & l & Hf & Hw1 & Hv)|(Hf & Hw1 & Hv & Hj)].
  - destruct (hit_world w index address s (Z.of_nat j) w1 Hw1)
      as (_ & _ & _ & _ & _ & _ & Ha & Hm).
    split; [done|by left].
  - destruct (missed_world w index address)
      as (Hss & Hls & _ & _ & _ & Ha & Hm).
    pose proof (selected_only_sets g (missed w index address) index s) as Hsel.
    destruct (only_sets_frame _ _ Hsel) as (Hl2 & _).
    destruct (only_sets_counters _ _ Hsel) as (Ha2 & Hm2).
    remember (selected g (missed w index address) index s) as sel eqn:Esel.
    pose proof (wf_slot_line w index s sel.1 Hwf Hs Hj) as Hline.
    destruct (arr_load_lt (lines (heap w)) (first_index s + sel.1))
      as [l Hl]; [done|].
    destruct (filled_world sel.2 (first_index s + sel.1) t address l)
      as (_ & _ & _ & _ & _ & Hfa & Hfm); [by rewrite Hl2, Hls|].
    rewrite Hw1, Hfa, Hfm, Ha2, Hm2, Ha, Hm. split; [done|by right].
Qed.

Lemma read_all_counts addresses g : ∀ w vs w',
  wf_world w → nonneg_source g →
  0 ≤ miss_count (heap w) ≤ access_count (heap w) →
  access_count (heap w) + Z.of_nat (length addresses) < 2 ^ 31 →
  read_all addresses g w = Some (vs, w') →
  length vs = length addresses ∧
  access_count (heap w')
  = access_count (heap w) + Z.of_nat (length addresses) ∧
  miss_count (heap w) ≤ miss_count (heap w')
  ≤ miss_count (heap w) + Z.of_nat (length addresses).
Proof.
  induction addresses as [|a rest IH]; intros w vs w' Hwf Hg Hm Ha Hrun.
  - injection Hrun as <- <-. simpl. lia.
  - simpl in Hrun. inv_bind Hrun. inv_bind Hrun. injection Hrun as <- <-.
    destruct (wf_after_read w a g _ _ Hwf Hg H) as (Hwf1 & _).
    destruct (cache_read_counts w a g _ _ Hwf Hg H) as (Ha1 & Hm1).
    simpl length in Ha. simpl length.
    rewrite to_uint_small in Ha1 by lia.
    assert (miss_count (heap w0) = miss_count (heap w)
            ∨ miss_count (heap w0) = miss_count (heap w) + 1) as Hm1'.
    { destruct Hm1 as [?|Hm1]; [by left|right].
      by rewrite to_uint_small in Hm1 by lia. }
    destruct (IH w0 a1 w1 Hwf1 Hg) as (Hlen & Ha' & Hm'); [lia|lia|done|].
    simpl. split; [by rewrite Hlen|]. lia.
Qed.

(** X17. Through a trace of reads that does not take the access counter
    beyond [INT_MAX], the counters count: [cache_access_count] returns the
    former count plus the number of reads, [cache_miss_count] returns a
    number that has grown by at most the number of reads and that does not
    exceed the number of accesses, and neither accessor changes the
    cache. *)
Theorem counters_count_the_reads (w : world) (addresses : list Z)
    (g : func_t) (vs : list Z) (w' : world) :
  wf_world w → nonneg_source g →
  0 ≤ miss_count (heap w) ≤ access_count (heap w) →
  access_count (heap w) + Z.of_nat (length addresses) < 2 ^ 31 →
  read_all addresses g w = Some (vs, w') →
  length vs = length addresses ∧
  cache_access_count w'
  = Some (access_count (heap w) + Z.of_nat (length addresses), w') ∧
  ∃ m, cache_miss_count w' = Some (m, w') ∧
    miss_count (heap w) ≤ m ≤ miss_count (heap w) + Z.of_nat (length addresses) ∧
    m ≤ access_count (heap w) + Z.of_nat (length addresses).
Proof.
  intros Hwf Hg Hm Ha Hrun.
  destruct (read_all_counts addresses g w vs w' Hwf Hg Hm Ha Hrun)
    as (Hlen & Ha' & Hm').
  split; [done|]. unfold cache_access_count, cache_miss_count.
  rewrite !(bind_run _ _ w' (heap w') w') by done.
  rewrite Ha'. rewrite !to_int_small by lia.
  split; [done|]. eexists. split; [done|]. lia.
Qed.

Lemma counters_count_the_reads_witness :
  ∃ vs w',
    read_all [0; 16; 32; 48; 0; 64] zero_rng (boot lru_cache zero_ram)
    = Some (vs, w') ∧
    length vs = length [0; 16; 32; 48; 0; 64] ∧
    cache_access_count w'
    = Some (access_count (heap (boot lru_cache zero_ram))
            + Z.of_nat (length [0; 16; 32; 48; 0; 64]), w') ∧
    ∃ m, cache_miss_count w' = Some (m, w') ∧
      miss_count (heap (boot lru_cache zero_ram)) ≤ m
      ≤ miss_count (heap (boot lru_cache zero_ram))
        + Z.of_nat (length [0; 16; 32; 48; 0; 64]) ∧
      m ≤ access_count (heap (boot lru_cache zero_ram))
          + Z.of_nat (length [0; 16; 32; 48; 0; 64]).
Proof.
  eexists _, _. split; [vm_compute; reflexivity|].
  apply (counters_count_the_reads (boot lru_cache zero_ram)
           [0; 16; 32; 48; 0; 64] zero_rng).
  - exact lru_cache_wf.
  - exact zero_rng_nonneg.
  - simpl. lia.
  - simpl. lia.
  - vm_compute. reflexivity.
Defined.

(** ** Further properties: the order of the recency list *)

Lemma filter_not_in x (l : list Z) :
  x ∉ l → filter (λ y, y ≠ x) l = l.
Proof.
  induction l as [|y l IH]; [done|]. intros Hx.
  apply not_elem_of_cons in Hx as [Hne Hx].
  rewrite filter_cons, decide_True by done. by rewrite IH.
Qed.

Lemma remove_first_filter x (l : list Z) :
  NoDup l → remove_first x l = filter (λ y, y ≠ x) l.
Proof.
  induction 1 as [|y l Hy Hnd IH]; [done|].
  simpl. rewrite filter_cons. destruct (decide (y = x)) as [->|Hne].
  - rewrite decide_False by (by intros ?).
    by rewrite filter_not_in.
  - rewrite decide_True by done. by rewrite IH.
Qed.

Lemma with_mru_twice w p mru mru' :
  with_mru (with_mru w p mru) p mru' = with_mru w p mru'.
Proof.
  unfold with_mru. cbn [heap sets set_sets ram stderr rand_calls].
  f_equal. unfold set_sets. cbn. f_equal.
  rewrite list_alter_alter_eq. by apply list_alter_ext.
Qed.

(** X19. On a well-formed cache [cache_line_make_mru] moves the slot to the
    head of the recency list and keeps the others in the order they had;
    doing it again changes nothing. *)
Theorem make_mru_keeps_the_order_of_the_others (w : world) (p : Z)
    (s : cache_set_t) (x : Z) :
  wf_world w → arr_load (sets (heap w)) p = Some s →
  0 ≤ x < associativity (heap w) →
  ∃ w1 s1,
    cache_line_make_mru p x w = Some (tt, w1) ∧
    arr_load (sets (heap w1)) p = Some s1 ∧
    mru_list s1 = x :: filter (λ y, y ≠ x) (mru_list s) ∧
    wf_world w1 ∧
    cache_line_make_mru p x w1 = Some (tt, w1).
Proof.
  intros Hwf Hs Hx.
  destruct (wf_set_at w p s Hwf Hs) as (_ & _ & _ & Hperm).
  assert (x ∈ mru_list s) as Hin by (by apply (perm_seqZ_elem _ _ _ Hperm)).
  assert (NoDup (mru_list s)) as Hnd by (rewrite Hperm; apply NoDup_seqZ).
  assert (wf_world (with_mru w p (promote x (mru_list s)))) as Hwf1.
  { apply wf_with_mru; [done|]. by rewrite promote_perm. }
  pose proof (with_mru_lookup w p s (promote x (mru_list s)) Hs) as Hs1.
  eexists _, _. split; [by apply cache_line_make_mru_wf|].
  split; [exact Hs1|]. split.
  { cbn [mru_list]. unfold promote. by rewrite remove_first_filter. }
  split; [done|].
  rewrite (cache_line_make_mru_wf _ p _ x Hwf1 Hs1) by done.
  cbn [mru_list].
  assert (promote x (promote x (mru_list s)) = promote x (mru_list s)) as ->
    by exact (promote_head x (remove_first x (mru_list s))).
  by rewrite with_mru_twice.
Qed.

Lemma make_mru_keeps_the_order_of_the_others_witness :
  ∃ w1 s1,
    cache_line_make_mru 0 2 (boot lru_cache zero_ram) = Some (tt, w1) ∧
    arr_load (sets (heap w1)) 0 = Some s1 ∧
    mru_list s1 = 2 :: filter (λ y, y ≠ 2) (mru_list (CSet 4 0 [0; 1; 2; 3])) ∧
    wf_world w1 ∧
    cache_line_make_mru 0 2 w1 = Some (tt, w1).
Proof.
  apply (make_mru_keeps_the_order_of_the_others (boot lru_cache zero_ram) 0
           (CSet 4 0 [0; 1; 2; 3]) 2).
  - exact lru_cache_wf.
  - reflexivity.
  - simpl. lia.
Defined.

(** ** Further properties: the trace *)

(** X20. A read that returns prints exactly one record when bit
    [CACHE_TRACEPOLICY] of the flag word is set, whatever the other bits,
    and prints nothing when it is clear; the record names the set and the
    address of the read, and what was printed before stays. *)
Theorem read_prints_one_record_when_tracing (w : world) (address : Z)
    (g : func_t) (v : Z) (w' : world) :
  cache_read address g w = Some (v, w') →
  ∃ offset index t,
    decode (heap w) address = Some (offset, index, t) ∧
    if decide (Z.land (policies (heap w)) CACHE_TRACE_MASK = CACHE_TRACEPOLICY)
    then
      ∃ record, stderr w' = stderr w ++ [record] ∧
        (record = trace_record_miss index address
         ∨ record = trace_record_hit index address)
    else stderr w' = stderr w.
Proof.
  intros Hread.
  destruct (cache_read_trace w address g v w' Hread)
    as (offset & index & t & Hd & Hmiss & Hhit).
  exists offset, index, t. split; [done|].
  rewrite cache_read_unfold, Hd in Hread.
  destruct (cache_set_find_matching_line index t w) as [[[line|] w1]|] eqn:Hf;
    [| |done].
  - assert (lookup_hits w address) as H by (by eexists _, _, _, _, _).
    specialize (Hhit H). destruct (decide _); [|done]. eauto.
  - assert (lookup_misses w address) as H by (by eexists _, _, _, _).
    specialize (Hmiss H). destruct (decide _); [|done]. eauto.
Qed.

Lemma read_prints_one_record_when_tracing_witness :
  ∃ v w',
    cache_read 16 zero_rng (boot random_trace_cache zero_ram) = Some (v, w') ∧
    ∃ offset index t,
      decode (heap (boot random_trace_cache zero_ram)) 16
      = Some (offset, index, t) ∧
      if decide (Z.land (policies (heap (boot random_trace_cache zero_ram)))
                   CACHE_TRACE_MASK = CACHE_TRACEPOLICY)
      then
        ∃ record,
          stderr w' = stderr (boot random_trace_cache zero_ram) ++ [record] ∧
          (record = trace_record_miss index 16
           ∨ record = trace_record_hit index 16)
      else stderr w' = stderr (boot random_trace_cache zero_ram).
Proof.
  eexists _, _. split; [vm_compute; reflexivity|].
  apply (read_prints_one_record_when_tracing
           (boot random_trace_cache zero_ram) 16 zero_rng 0 _).
  vm_compute. reflexivity.
Defined.

(** ** Further properties: the words that a read returns *)

Lemma testbit_above_64 address i :
  0 ≤ address < 2 ^ 64 → 64 ≤ i → Z.testbit address i = false.
Proof.
  intros Haddr Hi. destruct (decide (address = 0)) as [->|];
    [apply Z.bits_0|].
  apply Z.bits_above_log2; [lia|]. apply Z.log2_lt_pow2; [lia|].
  assert (2 ^ 64 ≤ 2 ^ i) by (apply Z.pow_le_mono_r; lia). lia.
Qed.

(** The source of the [memcpy] in [cache_set_add]: the address with its
    offset bits cleared. *)
Lemma land_lnot_ones address a :
  0 ≤ a < 64 → 0 ≤ address < 2 ^ 64 →
  Z.land address (to_u64 (Z.lnot (Z.ones a))) = address `div` 2 ^ a * 2 ^ a.
Proof.
  intros Ha Haddr. rewrite <- Z.shiftr_div_pow2, <- Z.shiftl_mul_pow2 by lia.
  apply Z.bits_inj'. intros i Hi.
  rewrite Z.land_spec. unfold to_u64.
  destruct (decide (i < 64)).
  - rewrite Z.mod_pow2_bits_low by lia.
    rewrite Z.lnot_spec by lia. rewrite testbit_ones_decide by lia.
    destruct (decide (i < a)).
    + rewrite bool_decide_eq_true_2 by done. simpl. rewrite andb_false_r.
      symmetry. rewrite Z.shiftl_spec by lia. apply Z.testbit_neg_r. lia.
    + rewrite bool_decide_eq_false_2 by done. simpl. rewrite andb_true_r.
      rewrite Z.shiftl_spec, Z.shiftr_spec by lia. f_equal. lia.
  - rewrite Z.mod_pow2_bits_high by lia. rewrite andb_false_r.
    rewrite Z.shiftl_spec, Z.shiftr_spec by lia.
    replace (i - a + a) with i by lia.
    symmetry. apply testbit_above_64; [done|lia].
Qed.

(** Tag and index of an address name the block the address lies in. *)
Lemma block_base address a b :
  0 ≤ a → 0 ≤ b →
  (address `div` 2 ^ (a + b) * 2 ^ b + (address `div` 2 ^ a) `mod` 2 ^ b)
  * 2 ^ a
  = address `div` 2 ^ a * 2 ^ a.
Proof.
  intros Ha Hb. f_equal.
  assert (0 < 2 ^ a) by (apply Z.pow_pos_nonneg; lia).
  assert (0 < 2 ^ b) by (apply Z.pow_pos_nonneg; lia).
  rewrite Z.pow_add_r by lia. rewrite <- Zdiv_Zdiv by lia.
  pose proof (Z.div_mod (address `div` 2 ^ a) (2 ^ b)). lia.
Qed.

(** A cache all of whose lines are invalid is coherent. *)
Lemma coherent_empty w a b : Forall unused (lines (heap w)) → coherent w a b.
Proof.
  intros Hempty p s j l i _ _ Hl Hv _.
  apply arr_load_Some in Hl as [_ Hl].
  rewrite Forall_lookup in Hempty. by pose proof (Hempty _ _ Hl).
Qed.

(** What a read leaves of the lines, the arena and the backing memory. *)
Lemma cache_read_effect w address g v w1 :
  wf_world w → nonneg_source g →
  cache_read address g w = Some (v, w1) →
  wf_world w1 ∧
  geometry (heap w1) = geometry (heap w) ∧
  length (sets (heap w1)) = length (sets (heap w)) ∧
  ram w1 = ram w ∧
  ∃ offset index t s,
    decode (heap w) address = Some (offset, index, t) ∧
    arr_load (sets (heap w)) index = Some s ∧
    ((lines (heap w1) = lines (heap w) ∧ memory (heap w1) = memory (heap w)) ∨
     ∃ j l,
       0 ≤ j < associativity (heap w) ∧
       arr_load (lines (heap w)) (first_index s + j) = Some l ∧
       lines (heap w1)
       = <[Z.to_nat (first_index s + j) := Line 1 t (block l)]>
           (lines (heap w)) ∧
       memory (heap w1)
       = blit (Z.to_nat (line_size (heap w))) (Z.to_nat (block l))
           (Z.land address (to_u64 (Z.lnot (block_offset_mask (heap w)))))
           (ram w) (memory (heap w))).
Proof.
  intros Hwf Hg Hread.
  destruct (wf_after_read w address g v w1 Hwf Hg Hread)
    as (Hwf1 & _ & _ & Hk).
  split; [done|].
  destruct (cache_read_cases w address g v w1 Hwf Hg Hread)
    as (offset & index & t & s & Hd & Hs & Hcases).
  destruct Hcases as [(j & l & Hf & Hw1 & Hv)|(Hf & Hw1 & Hv & Hj)].
  - destruct (hit_world w index address s (Z.of_nat j) w1 Hw1)
      as (Hl & Hm & Hr & _ & Hgeo & Hss & _).
    split; [done|]. split; [by rewrite Hss, touch_sets_length|].
    split; [done|].
    exists offset, index, t, s. split; [done|]. split; [done|]. by left.
  - destruct (missed_world w index address) as (Hss & Hls & Hm & Hr & _).
    pose proof (selected_only_sets g (missed w index address) index s) as Hsel.
    destruct (only_sets_frame _ _ Hsel) as (Hl2 & Hm2 & Hr2 & Hg2).
    pose proof (selected_sets_length g (missed w index address) index s)
      as Hlen2.
    pose proof (geometry_missed w index address) as Hgm.
    remember (selected g (missed w index address) index s) as sel eqn:Esel.
    pose proof (wf_slot_line w index s sel.1 Hwf Hs Hj) as Hline.
    destruct (arr_load_lt (lines (heap w)) (first_index s + sel.1))
      as [l Hl]; [done|].
    destruct (filled_world sel.2 (first_index s + sel.1) t address l)
      as (Hfl & Hfm & Hfs & Hfr & _); [by rewrite Hl2, Hls|].
    assert (geometry (heap sel.2) = geometry (heap w)) as Hgeo
      by (by rewrite Hg2).
    split; [by rewrite Hw1, geometry_filled|].
    split; [by rewrite Hw1, Hfs, Hlen2, Hss|].
    split; [by rewrite Hw1, Hfr, Hr2|].
    exists offset, index, t, s. split; [done|]. split; [done|].
    right. exists sel.1, l. split; [done|]. split; [done|].
    rewrite Hw1, Hfl, Hfm, Hl2, Hm2, Hls, Hm, Hr2, Hr.
    split; [done|]. unfold geometry in Hgeo.
    by injection Hgeo as _ _ -> _ -> _ _ _ _ _.
Qed.

Lemma geometry_fields c c' :
  geometry c' = geometry c →
  line_size c' = line_size c ∧ associativity c' = associativity c ∧
  block_offset_mask c' = block_offset_mask c.
Proof. unfold geometry. by intros [= _ _ -> -> -> _ _ _ _ _]. Qed.

Lemma geometry_split_at c c' a b :
  geometry c' = geometry c → split_at c a b → split_at c' a b.
Proof.
  unfold geometry, split_at. by intros [= _ _ _ _ -> -> -> -> -> _].
Qed.

(** Every read keeps the cache coherent with the backing memory. *)
Lemma coherent_read w address g v w1 a b :
  wf_world w → nonneg_source g → split_at (heap w) a b →
  0 ≤ address < 2 ^ 64 → coherent w a b →
  cache_read address g w = Some (v, w1) →
  coherent w1 a b.
Proof.
  intros Hwf Hg Hsplit Haddr Hcoh Hread.
  destruct (cache_read_effect w address g v w1 Hwf Hg Hread)
    as (Hwf1 & Hgeo & Hlen & Hram & offset & index & t & s & Hd & Hs & Hcases).
  destruct (geometry_fields _ _ Hgeo) as (Hls & Hk & Hmask).
  intros p s' j l i Hs' Hj Hl Hv Hi.
  destruct (wf_sets_same_shape w w1 p s' Hwf Hwf1 Hk Hlen Hs')
    as (sp & Hsp & Hsz & Hfi).
  unfold slot in Hl. rewrite Hfi in Hl. rewrite Hsz in Hj.
  rewrite Hls in Hi. rewrite Hram.
  destruct Hcases as [[Hsame Hmem]|(j0 & l0 & Hj0 & Hl0 & Hlines & Hmem)].
  { rewrite Hsame in Hl. rewrite Hmem. by apply (Hcoh p sp j l i). }
  destruct (wf_set_at w p sp Hwf Hsp) as (Hp & Hszp & Hfip & _).
  destruct (wf_set_at w index s Hwf Hs) as (Hidx & Hszs & Hfis & _).
  pose proof (wf_associativity _ Hwf) as Hassoc.
  pose proof (wf_memory _ Hwf) as Hwm.
  destruct (wf_line_at w _ l0 Hwf Hl0) as [Hline0 Hblk0].
  rewrite Hlines in Hl. rewrite Hmem.
  apply arr_load_Some in Hl as [Hge Hl].
  destruct (decide (first_index sp + j = first_index s + j0)) as [E|N].
  - rewrite E in Hl. rewrite list_lookup_insert_eq in Hl by lia.
    injection Hl as <-. cbn [tag block].
    assert (p = index) as -> by nia.
    apply arr_load_Some. split; [nia|].
    replace (Z.to_nat (block l0 + i))
      with (Z.to_nat (block l0) + Z.to_nat i)%nat by nia.
    rewrite blit_lookup_in by (rewrite ?length_blit; nia).
    rewrite Z2Nat.id by lia. f_equal. f_equal. f_equal.
    rewrite (decode_split _ a b address Hsplit Haddr) in Hd.
    injection Hd as _ <- <-.
    destruct Hsplit as (Ha & Hb & _ & -> & _).
    rewrite land_lnot_ones by lia. symmetry. apply block_base; lia.
  - rewrite list_lookup_insert_ne in Hl by lia.
    assert (arr_load (lines (heap w)) (first_index sp + j) = Some l) as Hl'
      by (apply arr_load_Some; split; [lia|done]).
    destruct (wf_line_at w _ l Hwf Hl') as [Hline Hblk].
    pose proof (Hcoh p sp j l i Hsp Hj Hl' Hv Hi) as Hold.
    apply arr_load_Some in Hold as [Hge' Hold].
    apply arr_load_Some. split; [done|].
    rewrite blit_lookup_out; [done|]. nia.
Qed.

(** In a coherent cache, a cached address reads as the word that the
    backing memory holds at it. *)
Lemma cached_ram_word w address v a b :
  wf_world w → split_at (heap w) a b → coherent w a b →
  0 ≤ address < 2 ^ 64 → word_in_block (heap w) address →
  cached w address v → v = ram_word (ram w) address.
Proof.
  intros Hwf Hsplit Hcoh Haddr Hin
    (offset & index & t & s & j & l & Hd & Hs & Hf & Hret).
  pose proof (decode_offset _ _ _ _ _ Hd) as Hoff.
  unfold word_in_block in Hin. rewrite <- Hoff in Hin.
  rewrite (decode_split _ a b address Hsplit Haddr) in Hd.
  injection Hd as Eo Ei Et.
  destruct Hsplit as (Ha & Hb & _).
  assert (0 < 2 ^ a) by (apply Z.pow_pos_nonneg; lia).
  pose proof (Z.mod_pos_bound address (2 ^ a)) as Hob.
  apply list_find_Some in Hf as (Hj & Hm & _).
  apply matches_iff in Hm as [Hv Ht].
  pose proof (lookup_lt_Some _ _ _ Hj) as Hjlt.
  rewrite (set_slots_length w index s Hwf Hs) in Hjlt.
  destruct (wf_set_at w index s Hwf Hs) as (_ & Hsz & _ & _).
  pose proof (wf_first_index w index s Hwf Hs) as Hfi0.
  rewrite set_slots_lookup in Hj by lia.
  assert ((tag l * 2 ^ b + index) * 2 ^ a + offset = address) as Hbase.
  { rewrite Ht, <- Et, <- Ei, <- Eo, block_base by lia.
    pose proof (Z.div_mod address (2 ^ a)). lia. }
  assert (∀ i, 0 ≤ i < 4 →
            arr_load (memory (heap w)) (block l + offset + i)
            = Some (ram w (address + i))) as Hbyte.
  { intros i Hi. rewrite <- Hbase, <- !Z.add_assoc.
    apply (Hcoh index s (Z.of_nat j) l (offset + i)); try done; lia. }
  unfold cache_line_retrieve_data in Hret.
  inv_bind Hret. apply get_cache_Some in H0 as [-> ->].
  inv_lift Hret. unfold slot in Hj. rewrite Hj in H0. injection H0 as <-.
  inv_lift Hret. inv_lift Hret. inv_lift Hret. inv_lift Hret.
  pose proof (Hbyte 0) as Hb0. rewrite !Z.add_0_r in Hb0.
  rewrite Hb0 in H0 by lia. rewrite (Hbyte 1) in H1 by lia.
  rewrite (Hbyte 2) in H2 by lia. rewrite (Hbyte 3) in H3 by lia.
  injection H0 as <-. injection H1 as <-. injection H2 as <-.
  injection H3 as <-. by injection Hret as <-.
Qed.

Lemma coherent_read_word w address g a b :
  wf_world w → split_at (heap w) a b → coherent w a b →
  nonneg_source g → 0 ≤ address < 2 ^ 64 →
  word_in_block (heap w) address →
  ∃ w',
    cache_read address g w = Some (ram_word (ram w) address, w') ∧
    wf_world w' ∧ geometry (heap w') = geometry (heap w) ∧
    split_at (heap w') a b ∧ coherent w' a b ∧ ram w' = ram w.
Proof.
  intros Hwf Hsplit Hcoh Hg Haddr Hin.
  destruct (cache_read_total w address g Hwf Hin Hg)
    as (v & w' & Hread & Hwf' & _ & Hin' & _).
  destruct (cache_read_effect w address g v w' Hwf Hg Hread)
    as (_ & Hgeo & _ & Hram & _).
  pose proof (geometry_split_at _ _ a b Hgeo Hsplit) as Hsplit'.
  pose proof (coherent_read w address g v w' a b Hwf Hg Hsplit Haddr Hcoh Hread)
    as Hcoh'.
  pose proof (cached_after_read w address g v w' Hwf Hg Hread) as Hc.
  apply (cached_ram_word w' address v a b Hwf' Hsplit' Hcoh' Haddr) in Hc;
    [|by apply Hin'].
  rewrite Hram in Hc. subst v. by exists w'.
Qed.

(** X18. The cache is transparent for one read: in a cache whose valid
    lines hold the bytes of the blocks of backing memory that they stand
    for, [cache_read] of a 64-bit address whose word lies inside its block
    returns the 32-bit little-endian word that the backing memory holds at
    the address, on a hit and on a miss alike, and the lines are again
    copies of their blocks afterwards. *)
Theorem cache_read_returns_the_word_of_backing_memory (w : world)
    (address : Z) (g : func_t) (a b : Z) :
  wf_world w → split_at (heap w) a b → coherent w a b →
  nonneg_source g → 0 ≤ address < 2 ^ 64 →
  word_in_block (heap w) address →
  ∃ w',
    cache_read address g w = Some (ram_word (ram w) address, w') ∧
    wf_world w' ∧ split_at (heap w') a b ∧ coherent w' a b ∧
    ram w' = ram w.
Proof.
  intros Hwf Hsplit Hcoh Hg Haddr Hin.
  destruct (coherent_read_word w address g a b Hwf Hsplit Hcoh Hg Haddr Hin)
    as (w' & ? & ? & ? & ? & ? & ?).
  by exists w'.
Qed.

Lemma lru_cache_split_at : split_at lru_cache 2 0.
Proof. unfold split_at. repeat split; try lia; reflexivity. Qed.

Lemma cache_read_returns_the_word_of_backing_memory_witness :
  ∃ w',
    cache_read 16 zero_rng (boot lru_cache zero_ram)
    = Some (ram_word (ram (boot lru_cache zero_ram)) 16, w') ∧
    wf_world w' ∧ split_at (heap w') 2 0 ∧ coherent w' 2 0 ∧
    ram w' = ram (boot lru_cache zero_ram).
Proof.
  apply (cache_read_returns_the_word_of_backing_memory
           (boot lru_cache zero_ram) 16 zero_rng 2 0).
  - exact lru_cache_wf.
  - exact lru_cache_split_at.
  - apply coherent_empty. repeat constructor.
  - exact zero_rng_nonneg.
  - lia.
  - exact lru_cache_word_in_block_16.
Defined.

Lemma coherent_read_all g a b addresses : ∀ w,
  wf_world w → split_at (heap w) a b → coherent w a b →
  nonneg_source g →
  Forall (λ address, 0 ≤ address < 2 ^ 64 ∧ word_in_block (heap w) address)
    addresses →
  ∃ w',
    read_all addresses g w = Some (ram_word (ram w) <$> addresses, w').
Proof.
  induction addresses as [|address rest IH];
    intros w Hwf Hsplit Hcoh Hg Hall.
  - by exists w.
  - apply Forall_cons in Hall as [[Haddr Hin] Hrest].
    destruct (coherent_read_word w address g a b Hwf Hsplit Hcoh Hg Haddr Hin)
      as (w1 & Hread & Hwf1 & Hgeo & Hsplit1 & Hcoh1 & Hram).
    destruct (IH w1 Hwf1 Hsplit1 Hcoh1 Hg) as (w' & Hrun).
    { eapply Forall_impl; [exact Hrest|]. intros x [? ?]. split; [done|].
      by apply (geometry_word_in_block (heap w) (heap w1)). }
    exists w'. simpl. rewrite (bind_run _ _ w _ w1 Hread).
    rewrite (bind_run _ _ w1 _ w' Hrun). by rewrite Hram.
Qed.

(** X21. The cache is transparent: every trace of reads on a cache just
    built by [cache_new] (for sizes that fit the types) returns, for each
    64-bit address whose word lies inside its block, the 32-bit
    little-endian word that the backing memory holds at that address,
    whatever the associativity and the replacement policy, for every
    generator that returns no negative number (as [rand] does). *)
Theorem reads_of_a_new_cache_return_the_backing_memory
    (num_bytes block_size assoc pol : Z) (c : cache_t) (mem : Z → byte)
    (addresses : list Z) (g : func_t) :
  cache_new num_bytes block_size assoc pol = Some c →
  0 ≤ num_bytes → 2 ≤ block_size < 2 ^ 31 → 0 < assoc < 2 ^ 31 →
  num_bytes `div` block_size < 2 ^ 31 →
  1 ≤ (num_bytes `div` block_size) `div` assoc →
  nonneg_source g →
  Forall (λ address, 0 ≤ address < 2 ^ 64 ∧ word_in_block c address)
    addresses →
  ∃ w',
    read_all addresses g (boot c mem) = Some (ram_word mem <$> addresses, w').
Proof.
  intros Hc Hnb Hbs Hassoc Hnl Hns Hg Hall.
  destruct (cache_new_wf num_bytes block_size assoc pol)
    as (c' & Hc' & Hwf & Hempty & _); [done..|].
  rewrite Hc in Hc'. injection Hc' as <-.
  pose proof (cache_new_split_at _ _ _ _ _ Hc) as Hsplit.
  apply (coherent_read_all g _ _ addresses (boot c mem) Hwf Hsplit);
    [|done..].
  by apply coherent_empty.
Qed.

Lemma reads_of_a_new_cache_return_the_backing_memory_witness :
  ∃ w',
    read_all [0; 4; 100; 0] zero_rng (boot two_way_cache zero_ram)
    = Some (ram_word zero_ram <$> [0; 4; 100; 0], w').
Proof.
  apply (reads_of_a_new_cache_return_the_backing_memory 64 4 2
           CACHE_REPLACEMENTPOLICY_MRU two_way_cache zero_ram [0; 4; 100; 0]
           zero_rng).
  - exact two_way_cache_new.
  - lia.
  - lia.
  - lia.
  - vm_compute. reflexivity.
  - vm_compute. discriminate.
  - exact zero_rng_nonneg.
  - repeat constructor; try lia; unfold word_in_block; vm_compute;
      discriminate.
Defined.

(** ** Further properties: the initialisation of a set *)

Lemma cache_set_init_loop_outside n : ∀ (i : nat) fi (ls : list cache_line_t)
    (mru : list Z),
  0 ≤ fi → (0 < n)%nat →
  Z.of_nat (length ls) < fi + Z.of_nat i + Z.of_nat n →
  cache_set_init_loop n (Z.of_nat i) fi ls mru = None.
Proof.
  induction n as [|n IH]; intros i fi ls mru Hfi Hn Hlen; [lia|].
  simpl. destruct (arr_load ls (fi + Z.of_nat i)) as [l|] eqn:Hl; [|done].
  simpl. pose proof (arr_load_range _ _ _ Hl) as Hr.
  rewrite (arr_store_run ls (fi + Z.of_nat i)) by done. simpl.
  destruct (arr_store mru (Z.of_nat i) (Z.of_nat i)) as [mru'|]; [|done].
  simpl. replace (Z.of_nat i + 1) with (Z.of_nat (S i)) by lia.
  apply IH; [done|lia|]. rewrite length_insert. lia.
Qed.

(** X22. [cache_set_init] invalidates the [associativity] lines of its set,
    from [first_index] on, and changes nothing else: the other lines, and
    the tag and the block of every line, are as before; the set it builds
    has the recency list [0, 1, ..., associativity - 1]. When the line
    array is too short for the set, the loop leaves the array. *)
Theorem cache_set_init_invalidates_the_lines_of_its_set (assoc : Z)
    (ls : list cache_line_t) (fi : Z) :
  0 < assoc < 2 ^ 31 → 0 ≤ fi →
  (fi + assoc ≤ Z.of_nat (length ls) →
   ∃ ls',
     cache_set_init assoc ls fi = Some (CSet assoc fi (seqZ 0 assoc), ls') ∧
     length ls' = length ls ∧
     ∀ j l, arr_load ls j = Some l →
       arr_load ls' j
       = Some (if decide (fi ≤ j < fi + assoc)
               then Line 0 (tag l) (block l) else l)) ∧
  (Z.of_nat (length ls) < fi + assoc → cache_set_init assoc ls fi = None).
Proof.
  intros Hassoc Hfi. split.
  - intros Hlen.
    destruct (cache_set_init_run assoc ls fi) as (ls' & Hrun & Hls');
      [lia|done|done|].
    rewrite to_int_small in Hrun by lia.
    exists ls'. split; [done|].
    assert (length ls' = length ls) as Hlen'.
    { destruct (decide (length ls' ≤ length ls)%nat) as [Hle|Hgt].
      - destruct (decide (length ls' = length ls)) as [|Hne]; [done|].
        destruct (lookup_lt_is_Some_2 ls (length ls')) as [l Hl]; [lia|].
        pose proof (Hls' (length ls')) as H. rewrite Hl in H. simpl in H.
        apply lookup_lt_Some in H. lia.
      - destruct (lookup_lt_is_Some_2 ls' (length ls)) as [l Hl]; [lia|].
        pose proof (Hls' (length ls)) as H. rewrite Hl in H.
        rewrite (lookup_ge_None_2 ls (length ls)) in H by lia. done. }
    split; [done|].
    intros j l [Hj Hl]%arr_load_Some. apply arr_load_Some. split; [done|].
    rewrite Hls', Hl. simpl. rewrite Z2Nat.id by lia. done.
  - intros Hlen. unfold cache_set_init.
    rewrite (cache_set_init_loop_outside (Z.to_nat assoc) O fi ls);
      [done|done|lia|lia].
Qed.

Lemma cache_set_init_invalidates_the_lines_of_its_set_witness :
  (0 + 4 ≤ Z.of_nat (length (lines lru_cache_after_16)) →
   ∃ ls',
     cache_set_init 4 (lines lru_cache_after_16) 0
     = Some (CSet 4 0 (seqZ 0 4), ls') ∧
     length ls' = length (lines lru_cache_after_16) ∧
     ∀ j l, arr_load (lines lru_cache_after_16) j = Some l →
       arr_load ls' j
       = Some (if decide (0 ≤ j < 0 + 4)
               then Line 0 (tag l) (block l) else l)) ∧
  (Z.of_nat (length (lines lru_cache_after_16)) < 0 + 4 →
   cache_set_init 4 (lines lru_cache_after_16) 0 = None).
Proof.
  apply (cache_set_init_invalidates_the_lines_of_its_set 4
           (lines lru_cache_after_16) 0); lia.
Defined.

(** ** Further properties: recency under LRU and MRU *)

Lemma selected_promotes g w p s :
  is_lru_or_mru (heap w) = true →
  (selected g w p s).2
  = with_mru w p (promote (selected g w p s).1 (mru_list s)).
Proof.
  intros Hpol. unfold selected.
  destruct (list_find _ _) as [[j l]|].
  { cbn [fst snd]. unfold touch. by rewrite Hpol. }
  destruct (decide (policies _ = CACHE_REPLACEMENTPOLICY_MRU)); [done|].
  destruct (decide (policies _ = CACHE_REPLACEMENTPOLICY_LRU)); [done|].
  unfold is_lru_or_mru in Hpol.
  by rewrite !bool_decide_eq_false_2 in Hpol.
Qed.

(** X23. Under the flag words [CACHE_REPLACEMENTPOLICY_LRU] and
    [CACHE_REPLACEMENTPOLICY_MRU] the line just read heads the recency list
    of its set: after every read, on a hit and on a miss alike, the first
    entry of the list is the slot of a valid line that carries the tag of
    the address. *)
Theorem line_just_read_heads_the_recency_list (w : world) (address : Z)
    (g : func_t) (v : Z) (w1 : world) (offset index t : Z) :
  wf_world w → nonneg_source g →
  policies (heap w) = CACHE_REPLACEMENTPOLICY_LRU
  ∨ policies (heap w) = CACHE_REPLACEMENTPOLICY_MRU →
  cache_read address g w = Some (v, w1) →
  decode (heap w) address = Some (offset, index, t) →
  ∃ s1 j l,
    arr_load (sets (heap w1)) index = Some s1 ∧
    head (mru_list s1) = Some j ∧ 0 ≤ j < size s1 ∧
    slot (heap w1) s1 j = Some l ∧ is_valid l ≠ 0 ∧ tag l = t.
Proof.
  intros Hwf Hg Hpol Hread Hd.
  assert (is_lru_or_mru (heap w) = true) as Hlm.
  { unfold is_lru_or_mru. destruct Hpol as [-> | ->]; reflexivity. }
  destruct (cache_read_cases w address g v w1 Hwf Hg Hread)
    as (offset' & index' & t' & s & Hd' & Hs & Hcases).
  rewrite Hd in Hd'. injection Hd' as <- <- <-.
  destruct (wf_set_at w index s Hwf Hs) as (Hidx & Hsz & _ & _).
  pose proof (wf_first_index w index s Hwf Hs) as Hfi0.
  destruct Hcases as [(j & l & Hf & Hw1 & Hv)|(Hf & Hw1 & Hv & Hj)].
  - destruct (hit_world w index address s (Z.of_nat j) w1 Hw1)
      as (Hl & _ & _ & _ & _ & Hss & _).
    apply list_find_Some in Hf as (Hjl & Hm & _).
    pose proof (lookup_lt_Some _ _ _ Hjl) as Hjlt.
    rewrite (set_slots_length w index s Hwf Hs) in Hjlt.
    rewrite set_slots_lookup in Hjl by lia.
    apply matches_iff in Hm as [? ?].
    eexists _, (Z.of_nat j), l. rewrite Hss. unfold touch. rewrite Hlm.
    split; [by apply with_mru_lookup|]. split; [done|].
    cbn [size first_index]. split; [lia|].
    unfold slot. rewrite Hl. by cbn [first_index].
  - destruct (missed_world w index address) as (Hss & Hls & _).
    assert (arr_load (sets (heap (missed w index address))) index = Some s)
      as Hsm by (by rewrite Hss).
    pose proof (selected_promotes g (missed w index address) index s) as Hsel.
    rewrite missed_is_lru_or_mru in Hsel. specialize (Hsel Hlm).
    remember (selected g (missed w index address) index s) as sel eqn:Esel.
    pose proof (wf_slot_line w index s sel.1 Hwf Hs Hj) as Hline.
    destruct (arr_load_lt (lines (heap w)) (first_index s + sel.1))
      as [l Hl]; [done|].
    destruct (filled_world sel.2 (first_index s + sel.1) t address l)
      as (Hfl & _ & Hfs & _); [by rewrite Hsel; cbn; rewrite Hls|].
    eexists _, sel.1, (Line 1 t (block l)).
    rewrite Hw1, Hfs, Hsel.
    split; [by apply with_mru_lookup|]. split; [done|].
    cbn [size first_index]. split; [lia|].
    unfold slot. cbn [first_index]. rewrite <- Hsel, Hfl.
    split; [|done]. apply arr_load_Some. split; [lia|].
    apply list_lookup_insert_eq. rewrite Hsel. cbn. rewrite Hls. lia.
Qed.

Lemma line_just_read_heads_the_recency_list_witness :
  mru_list <$> sets (heap (boot lru_cache_after_16 zero_ram))
  = [[0; 1; 2; 3]] ∧
  ∃ w1 s1 j l,
    cache_read 32 zero_rng (boot lru_cache_after_16 zero_ram) = Some (0, w1) ∧
    lookup_misses (boot lru_cache_after_16 zero_ram) 32 ∧
    mru_list <$> sets (heap w1) = [[1; 0; 2; 3]] ∧
    arr_load (sets (heap w1)) 0 = Some s1 ∧
    head (mru_list s1) = Some j ∧ 0 ≤ j < size s1 ∧
    slot (heap w1) s1 j = Some l ∧ is_valid l ≠ 0 ∧ tag l = 8.
Proof.
  split; [reflexivity|]. eexists.
  assert (cache_read 32 zero_rng (boot lru_cache_after_16 zero_ram)
          = Some (0, _)) as Hread by (vm_compute; reflexivity).
  destruct (line_just_read_heads_the_recency_list
              (boot lru_cache_after_16 zero_ram) 32 zero_rng 0 _ 0 0 8
              lru_cache_after_16_wf zero_rng_nonneg (or_introl eq_refl)
              Hread eq_refl) as (s1 & j & l & H).
  exists s1, j, l. split; [exact Hread|].
  split; [exists 0, 0, 8; eexists; split; vm_compute; reflexivity|].
  split; [reflexivity|exact H].
Defined.

Lemma remove_first_last x (l : list Z) :
  NoDup l → last l = Some x → remove_first x l = removelast l.
Proof.
  induction 1 as [|y l Hy Hnd IH]; [done|]. intros Hlast.
  destruct l as [|z l'].
  - simpl in Hlast. injection Hlast as ->. simpl. by rewrite decide_True.
  - change (last (y :: z :: l')) with (last (z :: l')) in Hlast.
    assert (x ∈ z :: l') as Hin.
    { rewrite last_lookup in Hlast. by apply list_elem_of_lookup_2 in Hlast. }
    cbn [remove_first]. rewrite decide_False by (intros ->; done).
    change (removelast (y :: z :: l')) with (y :: removelast (z :: l')).
    f_equal. by apply IH.
Qed.

(** X24. When every slot of the set is in use, [find_available_cache_line]
    takes, under the flag word [CACHE_REPLACEMENTPOLICY_MRU], the slot at
    the head of the recency list and leaves the list as it is, and, under
    [CACHE_REPLACEMENTPOLICY_LRU], the slot at the end of the list, which
    it moves to the head with the others shifted back by one. In both
    cases it does not call the random source and changes no line. *)
Theorem full_set_victim_under_lru_and_mru (w : world) (p : Z)
    (s : cache_set_t) (g : func_t) :
  wf_world w → arr_load (sets (heap w)) p = Some s →
  Forall (λ l, is_valid l ≠ 0) (set_slots (heap w) s) →
  policies (heap w) = CACHE_REPLACEMENTPOLICY_LRU
  ∨ policies (heap w) = CACHE_REPLACEMENTPOLICY_MRU →
  ∃ line w' m0 ml,
    find_available_cache_line p g w = Some (line, w') ∧
    head (mru_list s) = Some m0 ∧ last (mru_list s) = Some ml ∧
    lines (heap w') = lines (heap w) ∧ rand_calls w' = rand_calls w ∧
    (policies (heap w) = CACHE_REPLACEMENTPOLICY_MRU →
     line = first_index s + m0 ∧ arr_load (sets (heap w')) p = Some s) ∧
    (policies (heap w) = CACHE_REPLACEMENTPOLICY_LRU →
     line = first_index s + ml ∧
     arr_load (sets (heap w')) p
     = Some (CSet (size s) (first_index s) (ml :: removelast (mru_list s)))).
Proof.
  intros Hwf Hs Hfull Hpol.
  rewrite (find_available_cache_line_wf w p s g Hwf Hs).
  destruct (mru_head_last w p s Hwf Hs)
    as (m0 & ml & _ & Hhead & _ & Hlast & _ & _).
  destruct (wf_set_at w p s Hwf Hs) as (_ & _ & _ & Hperm).
  assert (NoDup (mru_list s)) as Hnd by (rewrite Hperm; apply NoDup_seqZ).
  destruct (only_sets_frame _ _ (selected_only_sets g w p s)) as (Hl & _).
  pose proof (selected_rand_calls g w p s) as Hrc.
  rewrite decide_False in Hrc
    by (intros (_ & ? & ?); destruct Hpol; done).
  eexists _, _, m0, ml. split; [done|]. split; [done|]. split; [done|].
  split; [done|]. split; [done|].
  assert (list_find unused (set_slots (heap w) s) = None) as Hnone.
  { apply list_find_None. eapply Forall_impl; [exact Hfull|]. done. }
  unfold selected. rewrite Hnone. split.
  - intros Hmru. rewrite decide_True by done. cbn [fst snd].
    rewrite Hhead. cbn [default]. split; [done|].
    rewrite (with_mru_lookup w p s _ Hs). f_equal.
    destruct (mru_list s) as [|y rest] eqn:Hmrul; [done|].
    injection Hhead as ->. rewrite promote_head, <- Hmrul. by destruct s.
  - intros Hlru. rewrite decide_False by (rewrite Hlru; done).
    rewrite decide_True by done. cbn [fst snd].
    rewrite Hlast. cbn [default]. split; [done|].
    rewrite (with_mru_lookup w p s _ Hs). do 2 f_equal.
    unfold promote. by rewrite remove_first_last.
Qed.

Lemma full_set_victim_under_lru_and_mru_witness :
  ∃ vs w,
    read_all [0; 16; 32; 48] zero_rng (boot lru_cache zero_ram)
    = Some (vs, w) ∧
    ∃ line w' m0 ml,
      find_available_cache_line 0 zero_rng w = Some (line, w') ∧
      head (mru_list (CSet 4 0 [3; 2; 1; 0])) = Some m0 ∧
      last (mru_list (CSet 4 0 [3; 2; 1; 0])) = Some ml ∧
      lines (heap w') = lines (heap w) ∧ rand_calls w' = rand_calls w ∧
      (policies (heap w) = CACHE_REPLACEMENTPOLICY_MRU →
       line = first_index (CSet 4 0 [3; 2; 1; 0]) + m0 ∧
       arr_load (sets (heap w')) 0 = Some (CSet 4 0 [3; 2; 1; 0])) ∧
      (policies (heap w) = CACHE_REPLACEMENTPOLICY_LRU →
       line = first_index (CSet 4 0 [3; 2; 1; 0]) + ml ∧
       arr_load (sets (heap w')) 0
       = Some (CSet (size (CSet 4 0 [3; 2; 1; 0]))
                 (first_index (CSet 4 0 [3; 2; 1; 0]))
                 (ml :: removelast (mru_list (CSet 4 0 [3; 2; 1; 0]))))).
Proof.
  eexists _, _. split; [vm_compute; reflexivity|].
  apply (full_set_victim_under_lru_and_mru _ 0 (CSet 4 0 [3; 2; 1; 0])
           zero_rng).
  - apply (read_all_wf [0; 16; 32; 48] zero_rng (boot lru_cache zero_ram)
             [0; 0; 0; 0]);
      [exact lru_cache_wf | exact zero_rng_nonneg | vm_compute; reflexivity].
  - reflexivity.
  - repeat constructor; discriminate.
  - left. reflexivity.
Defined.

(** ** Further properties: what the cache holds *)

Lemma holds_only_read c0 w address g v w1 addresses :
  wf_world w → nonneg_source g → geometry (heap w) = geometry c0 →
  holds_only c0 w addresses →
  cache_read address g w = Some (v, w1) →
  holds_only c0 w1 (addresses ++ [address]).
Proof.
  intros Hwf Hg Hgeo0 Hinv Hread.
  destruct (cache_read_lines w address g v w1 Hwf Hg Hread)
    as (Hwf1 & Hk & Hlen & offset & index & t & s & Hd & Hs & Hcases).
  intros p s' j l Hs' Hj Hl Hv.
  destruct (wf_sets_same_shape w w1 p s' Hwf Hwf1 Hk Hlen Hs')
    as (sp & Hsp & Hsz & Hfi).
  unfold slot in Hl. rewrite Hfi in Hl. rewrite Hsz in Hj.
  assert (∀ l', arr_load (lines (heap w)) (first_index sp + j) = Some l' →
            is_valid l' ≠ 0 →
            ∃ a o, a ∈ addresses ++ [address]
                   ∧ decode c0 a = Some (o, p, tag l')) as Hold.
  { intros l' Hl' Hv'. destruct (Hinv p sp j l' Hsp Hj Hl' Hv')
      as (a & o & Ha & Hda).
    exists a, o. split; [|done]. apply elem_of_app. by left. }
  destruct Hcases as [Hsame|(j0 & l0 & Hj0 & Hf & Hl0 & Hlines)].
  { rewrite Hsame in Hl. by apply Hold. }
  destruct (wf_set_at w p sp Hwf Hsp) as (Hp & Hszp & Hfip & _).
  destruct (wf_set_at w index s Hwf Hs) as (Hidx & Hszs & Hfis & _).
  pose proof (wf_associativity _ Hwf) as Hassoc.
  rewrite Hlines in Hl. apply arr_load_Some in Hl as [Hge Hl].
  destruct (decide (first_index sp + j = first_index s + j0)) as [E|N].
  - rewrite E in Hl. rewrite list_lookup_insert_eq in Hl
      by (apply arr_load_range in Hl0; lia).
    injection Hl as <-. cbn [tag].
    assert (p = index) as -> by nia.
    exists address, offset. split; [apply elem_of_app; right; by left|].
    by rewrite <- (geometry_decode c0 (heap w) address Hgeo0).
  - rewrite list_lookup_insert_ne in Hl by lia.
    apply Hold; [|done]. apply arr_load_Some. split; [lia|done].
Qed.

Lemma holds_only_read_all c0 g addresses : ∀ w vs w' before,
  wf_world w → nonneg_source g → geometry (heap w) = geometry c0 →
  holds_only c0 w before →
  read_all addresses g w = Some (vs, w') →
  wf_world w' ∧ geometry (heap w') = geometry c0 ∧
  holds_only c0 w' (before ++ addresses).
Proof.
  induction addresses as [|a rest IH];
    intros w vs w' before Hwf Hg Hgeo Hinv Hrun.
  - injection Hrun as <- <-. by rewrite app_nil_r.
  - simpl in Hrun. inv_bind Hrun. inv_bind Hrun. injection Hrun as <- <-.
    destruct (cache_read_effect w a g _ _ Hwf Hg H) as (Hwf1 & Hgeo1 & _).
    pose proof (holds_only_read c0 w a g _ _ before Hwf Hg Hgeo Hinv H)
      as Hinv1.
    destruct (IH w0 a1 w1 (before ++ [a]) Hwf1 Hg) as (? & ? & Hfin);
      [by rewrite Hgeo1|done|done|].
    by rewrite <- app_assoc in Hfin.
Qed.

(** X25. The first read of a block always misses: after any trace of reads
    on a cache that started with every line invalid, the lookup of an
    address finds no line unless an address with the same index and the
    same tag is in the trace. The cache never holds a block that was not
    read. *)
Theorem first_read_of_a_block_misses (w : world) (addresses : list Z)
    (g : func_t) (vs : list Z) (w' : world) (address' : Z)
    (offset' index' t' : Z) :
  wf_world w → nonneg_source g → Forall unused (lines (heap w)) →
  read_all addresses g w = Some (vs, w') →
  decode (heap w) address' = Some (offset', index', t') →
  (∀ a o, a ∈ addresses → decode (heap w) a ≠ Some (o, index', t')) →
  lookup_misses w' address'.
Proof.
  intros Hwf Hg Hempty Hrun Hd Hnew.
  destruct (holds_only_read_all (heap w) g addresses w vs w' [] Hwf Hg eq_refl)
    as (Hwf' & Hgeo & Hinv); [|done|].
  { intros p s j l _ _ Hl Hv. apply arr_load_Some in Hl as [_ Hl].
    rewrite Forall_lookup in Hempty. by pose proof (Hempty _ _ Hl). }
  simpl in Hinv.
  destruct (decode_wf w' address' Hwf')
    as (o1 & i1 & t1 & s1 & Hd1 & _ & Hs1).
  rewrite (geometry_decode _ _ _ Hgeo), Hd in Hd1. injection Hd1 as <- <- <-.
  apply (missed_misses w' address' offset' index' t' s1 Hwf');
    [by rewrite (geometry_decode _ _ _ Hgeo)|done|].
  apply list_find_None. apply Forall_lookup. intros j l Hl Hm.
  apply matches_iff in Hm as [Hv Ht].
  pose proof (lookup_lt_Some _ _ _ Hl) as Hjlt.
  rewrite (set_slots_length w' index' s1 Hwf' Hs1) in Hjlt.
  destruct (wf_set_at w' index' s1 Hwf' Hs1) as (_ & Hsz & _ & _).
  pose proof (wf_first_index w' index' s1 Hwf' Hs1) as Hfi0.
  rewrite set_slots_lookup in Hl by lia.
  destruct (Hinv index' s1 (Z.of_nat j) l Hs1) as (a & o & Ha & Hda);
    [lia|done|done|].
  rewrite Ht in Hda. by apply (Hnew a o).
Qed.

Lemma first_read_of_a_block_misses_witness :
  ∃ vs w',
    read_all [0; 16; 32] zero_rng (boot lru_cache zero_ram) = Some (vs, w') ∧
    lookup_misses w' 48.
Proof.
  eexists _, _. split; [vm_compute; reflexivity|].
  apply (first_read_of_a_block_misses (boot lru_cache zero_ram) [0; 16; 32]
           zero_rng [0; 0; 0] _ 48 0 0 12).
  - exact lru_cache_wf.
  - exact zero_rng_nonneg.
  - repeat constructor.
  - vm_compute. reflexivity.
  - reflexivity.
  - intros a o Ha.
    apply elem_of_cons in Ha as [-> | Ha]; [vm_compute; discriminate|].
    apply elem_of_cons in Ha as [-> | Ha]; [vm_compute; discriminate|].
    apply elem_of_cons in Ha as [-> | Ha]; [vm_compute; discriminate|].
    by apply elem_of_nil in Ha.
Defined.

(** The word read from a line depends on the block of the line and on the
    four bytes read only. *)
Lemma cache_line_retrieve_data_same w w' line offset v l l' :
  arr_load (lines (heap w)) line = Some l →
  arr_load (lines (heap w')) line = Some l' → block l' = block l →
  (∀ i, 0 ≤ i < 4 →
     arr_load (memory (heap w')) (block l + offset + i)
     = arr_load (memory (heap w)) (block l + offset + i)) →
  cache_line_retrieve_data line offset w = Some (v, w) →
  cache_line_retrieve_data line offset w' = Some (v, w').
Proof.
  unfold cache_line_retrieve_data. intros Hl Hl' Hblk Hmem H.
  inv_bind H. apply get_cache_Some in H0 as [-> ->].
  inv_lift H. rewrite Hl in H0. injection H0 as <-.
  do 4 inv_lift H. injection H as <-.
  pose proof (Hmem 0) as Hm0. rewrite !Z.add_0_r in Hm0.
  rewrite (bind_run _ _ w' (heap w') w') by done.
  rewrite (bind_run _ _ w' l' w') by by apply lift_run.
  rewrite Hblk.
  rewrite Hm0 by lia. rewrite (Hmem 1), (Hmem 2), (Hmem 3) by lia.
  rewrite H0, H1, H2, H3. done.
Qed.

(** X26. A read evicts nothing from the other sets, and a read that hits
    evicts nothing at all: an address that is cached (and whose word lies
    inside its block) is still cached, with the same word, after a read
    that hits or that goes to another set. *)
Theorem reads_elsewhere_evict_nothing (w : world) (address v : Z)
    (address2 : Z) (g : func_t) (v2 : Z) (w' : world)
    (offset index t offset2 index2 t2 : Z) :
  wf_world w → nonneg_source g →
  word_in_block (heap w) address → cached w address v →
  decode (heap w) address = Some (offset, index, t) →
  decode (heap w) address2 = Some (offset2, index2, t2) →
  lookup_hits w address2 ∨ index2 ≠ index →
  cache_read address2 g w = Some (v2, w') →
  cached w' address v.
Proof.
  intros Hwf Hg Hin (o & i & t' & s & j & l & Hd' & Hs & Hf & Hret) Hd Hd2
    Hcase Hread.
  rewrite Hd in Hd'. injection Hd' as <- <- <-.
  destruct (cache_read_effect w address2 g v2 w' Hwf Hg Hread)
    as (Hwf' & Hgeo & Hlen & _ & o2 & i2 & t2' & s2 & Hd2' & Hs2 & Heffect).
  rewrite Hd2 in Hd2'. injection Hd2' as <- <- <-.
  destruct (geometry_fields _ _ Hgeo) as (Hls & Hk & _).
  destruct (arr_load_lt (sets (heap w')) index) as [s' Hs'].
  { rewrite Hlen. by eapply arr_load_range. }
  destruct (wf_set_same w w' index s s' Hwf Hwf' Hk Hs Hs') as [Hsz Hfi].
  destruct (wf_set_at w index s Hwf Hs) as (Hidx & Hszs & Hfis & _).
  destruct (wf_set_at w index2 s2 Hwf Hs2) as (Hidx2 & Hszs2 & Hfis2 & _).
  pose proof (wf_associativity _ Hwf) as Hassoc.
  pose proof (wf_line_size _ Hwf) as Hlsz.
  pose proof (decode_offset _ _ _ _ _ Hd) as Hoff.
  unfold word_in_block in Hin. rewrite <- Hoff in Hin.
  pose proof (to_uint_nonneg (Z.land address (block_offset_mask (heap w))))
    as Hoff0. rewrite <- Hoff in Hoff0.
  pose proof Hf as Hf0.
  apply list_find_Some in Hf0 as (Hjl & _ & _).
  pose proof (lookup_lt_Some _ _ _ Hjl) as Hjlt.
  rewrite (set_slots_length w index s Hwf Hs) in Hjlt.
  rewrite set_slots_lookup in Hjl by lia. unfold slot in Hjl.
  destruct (wf_line_at w _ l Hwf Hjl) as [Hline Hblk].
  assert (lines (heap w') = lines (heap w) ∧ memory (heap w') = memory (heap w)
          ∨ index2 ≠ index) as Hcase'.
  { destruct Hcase as [Hhit|?]; [left|by right].
    destruct (lookup_hits_find w address2 offset2 index2 t2 s2 Hwf Hhit Hd2 Hs2)
      as (j2 & l2 & Hf2).
    destruct (cache_read_cases w address2 g v2 w' Hwf Hg Hread)
      as (o3 & i3 & t3 & s3 & Hd3 & Hs3 & Hcases).
    rewrite Hd2 in Hd3. injection Hd3 as <- <- <-.
    rewrite Hs2 in Hs3. injection Hs3 as <-.
    destruct Hcases as [(j3 & l3 & _ & Hw1 & _)|(Hnone & _)];
      [|by rewrite Hf2 in Hnone].
    by destruct (hit_world w index2 address2 s2 (Z.of_nat j3) w' Hw1)
      as (? & ? & _). }
  exists offset, index, t, s', j, l.
  split; [by rewrite (geometry_decode _ _ _ Hgeo)|]. split; [done|].
  destruct Heffect as [[Hsame Hmem]|(j0 & l0 & Hj0 & Hl0 & Hlines & Hmem)].
  { split.
    - by rewrite (set_slots_same (heap w) (heap w') s s').
    - rewrite Hfi. apply (cache_line_retrieve_data_frame w w'); done. }
  destruct Hcase' as [[Hsame Hmem']|Hne].
  { split.
    - by rewrite (set_slots_same (heap w) (heap w') s s').
    - rewrite Hfi. apply (cache_line_retrieve_data_frame w w'); done. }
  destruct (wf_line_at w _ l0 Hwf Hl0) as [Hline0 Hblk0].
  split.
  - rewrite <- Hf. f_equal. unfold set_slots. rewrite Hlines, Hsz, Hfi.
    destruct (decide (first_index s2 + j0 < first_index s)) as [Hlt|Hge].
    + by rewrite drop_insert_lt by lia.
    + rewrite drop_insert_ge by lia. apply take_insert_ge. nia.
  - rewrite Hfi.
    apply (cache_line_retrieve_data_same w w' _ offset v l l); try done.
    + rewrite Hlines. apply arr_load_Some. split; [lia|].
      rewrite list_lookup_insert_ne by nia.
      by apply arr_load_Some in Hjl as [_ ?].
    + intros k Hk4. rewrite Hmem. unfold arr_load.
      destruct (decide _); [|done]. apply blit_lookup_out.
      assert (first_index s + Z.of_nat j ≠ first_index s2 + j0) as Hother
        by nia.
      assert (block l + offset + k < block l0
              ∨ block l0 + line_size (heap w) ≤ block l + offset + k)
        as Hout.
      { rewrite Hblk, Hblk0.
        destruct (decide (first_index s + Z.of_nat j < first_index s2 + j0)).
        - left.
          assert ((first_index s + Z.of_nat j + 1) * line_size (heap w)
                  ≤ (first_index s2 + j0) * line_size (heap w))
            by (apply Z.mul_le_mono_nonneg_r; lia).
          lia.
        - right.
          assert ((first_index s2 + j0 + 1) * line_size (heap w)
                  ≤ (first_index s + Z.of_nat j) * line_size (heap w))
            by (apply Z.mul_le_mono_nonneg_r; lia).
          lia. }
      assert (0 ≤ block l0) by (rewrite Hblk0; apply Z.mul_nonneg_nonneg; lia).
      lia.
Qed.

Lemma reads_elsewhere_evict_nothing_witness :
  ∃ w1 w2,
    cache_read 0 zero_rng (boot two_way_cache zero_ram) = Some (0, w1) ∧
    cache_read 4 zero_rng w1 = Some (0, w2) ∧
    cached w2 0 0.
Proof.
  eexists _, _. split; [vm_compute; reflexivity|].
  split; [vm_compute; reflexivity|].
  assert (wf_world (boot two_way_cache zero_ram)) as Hwf.
  { destruct (cache_new_wf 64 4 2 CACHE_REPLACEMENTPOLICY_MRU)
      as (c & Hc & Hwf & _); [lia|lia|lia|done|done|].
    rewrite two_way_cache_new in Hc. by injection Hc as ->. }
  assert (cache_read 0 zero_rng (boot two_way_cache zero_ram) = Some (0, _))
    as Hread by (vm_compute; reflexivity).
  destruct (wf_after_read _ _ _ _ _ Hwf zero_rng_nonneg Hread) as (Hwf1 & _).
  pose proof (cached_after_read _ _ _ _ _ Hwf zero_rng_nonneg Hread) as Hc.
  apply (reads_elsewhere_evict_nothing _ 0 0 4 zero_rng 0 _ 0 0 0 0 1 0
           Hwf1 zero_rng_nonneg); [|exact Hc| | | |].
  - unfold word_in_block. vm_compute. discriminate.
  - reflexivity.
  - reflexivity.
  - right. discriminate.
  - vm_compute. reflexivity.
Defined.

(** ** Further properties: the rules of LRU and MRU *)

(** X27. The rule of a hit under the flag words
    [CACHE_REPLACEMENTPOLICY_LRU] and [CACHE_REPLACEMENTPOLICY_MRU]: when
    the set holds pairwise distinct tags in its first slots and slot [i]
    holds the tag of the address, the read hits, leaves the tags of the set
    as they are, and moves slot [i] to the head of the recency list. *)
Theorem hit_moves_its_slot_to_the_head (w : world) (g : func_t)
    (index : Z) (ts : list Z) (mru : list Z) (i : nat) (address t : Z) :
  wf_world w →
  policies (heap w) = CACHE_REPLACEMENTPOLICY_LRU
  ∨ policies (heap w) = CACHE_REPLACEMENTPOLICY_MRU →
  set_holds w index ts mru → NoDup ts →
  Z.of_nat (length ts) ≤ associativity (heap w) →
  ts !! i = Some t → maps_to (heap w) index address t →
  ∃ v w',
    cache_read address g w = Some (v, w') ∧ wf_world w' ∧
    geometry (heap w') = geometry (heap w) ∧
    lookup_hits w address ∧
    miss_count (heap w') = miss_count (heap w) ∧
    set_holds w' index ts (promote (Z.of_nat i) mru).
Proof.
  intros Hwf Hpol Hholds Hnd Hlen Hi (offset & Hd & Hin).
  assert (is_lru_or_mru (heap w) = true) as Hlm.
  { unfold is_lru_or_mru. destruct Hpol as [-> | ->]; reflexivity. }
  pose proof Hholds as (s & Hs & Hmru & Hslots).
  destruct (wf_set_at w index s Hwf Hs) as (Hidx & Hsz & _ & _).
  pose proof (lookup_lt_Some _ _ _ Hi) as Hilt.
  assert (is_Some (set_slots (heap w) s !! i)) as [l Hl].
  { apply lookup_lt_is_Some. rewrite (set_slots_length w index s) by done.
    lia. }
  pose proof (Hslots i l Hl) as Hil. rewrite Hi in Hil.
  destruct Hil as [Hv Htag].
  assert (list_find (matches t) (set_slots (heap w) s) = Some (i, l)) as Hf.
  { apply list_find_Some. split; [done|]. split; [by apply matches_iff|].
    intros i' l' Hl' Hlt Hm. apply matches_iff in Hm as [Hv' Ht'].
    pose proof (Hslots i' l' Hl') as Hil'.
    destruct (ts !! i') as [t''|] eqn:Hi'; [|done].
    destruct Hil' as [_ Htag'].
    assert (i' = i); [|lia].
    apply (NoDup_lookup ts i' i t); [done| |done]. rewrite Hi'. congruence. }
  destruct (cache_read_hit_wf w address g offset index t s i l
              Hwf Hin Hd Hs Hf) as (v & Hread & _).
  destruct (hit_world w index address s (Z.of_nat i) _ eq_refl)
    as (Hls & _ & _ & _ & Hgeo & Hss & _ & Hmc).
  eexists v, _. split; [exact Hread|].
  split; [apply wf_after_hit; [done|done|lia]|].
  split; [done|].
  split; [apply (set_holds_hits w index ts mru i address t);
            [done|done|done|done|by exists offset]|].
  split; [done|].
  exists (CSet (size s) (first_index s) (promote (Z.of_nat i) mru)).
  rewrite Hss. unfold touch. rewrite Hlm, Hmru.
  split; [by apply with_mru_lookup|]. split; [done|].
  intros k l' Hl'. apply Hslots.
  unfold set_slots in Hl' |- *. rewrite emit_heap in Hl'. exact Hl'.
Qed.

(** X28. The rule of a replacement: when every slot of the set holds a
    tag and the address has another tag, the read misses and puts the tag
    of the address in the slot at the end of the recency list under
    [CACHE_REPLACEMENTPOLICY_LRU], and in the slot at its head under
    [CACHE_REPLACEMENTPOLICY_MRU]; the other tags stay, and the slot is
    moved to the head of the list (where, under MRU, it already was). *)
Theorem replacement_takes_the_end_or_the_head_of_the_list (w : world)
    (g : func_t) (index : Z) (ts : list Z) (mru : list Z) (address t : Z)
    (j : Z) :
  wf_world w → set_holds w index ts mru →
  Z.of_nat (length ts) = associativity (heap w) →
  maps_to (heap w) index address t → t ∉ ts →
  (policies (heap w) = CACHE_REPLACEMENTPOLICY_LRU ∧ last mru = Some j)
  ∨ (policies (heap w) = CACHE_REPLACEMENTPOLICY_MRU ∧ head mru = Some j) →
  ∃ v w',
    cache_read address g w = Some (v, w') ∧ wf_world w' ∧
    geometry (heap w') = geometry (heap w) ∧
    lookup_misses w address ∧
    set_holds w' index (<[Z.to_nat j := t]> ts) (promote j mru) ∧
    (policies (heap w) = CACHE_REPLACEMENTPOLICY_MRU → promote j mru = mru).
Proof.
  intros Hwf Hholds Hlen (offset & Hd & Hin) Ht Hpol.
  pose proof Hholds as (s & Hs & Hmru & Hslots).
  destruct (wf_set_at w index s Hwf Hs) as (Hidx & Hsz & _ & Hperm).
  pose proof (set_holds_no_match w index s ts _ t Hs Hholds Ht) as Hnm.
  pose proof (set_holds_all_used w index s ts _ Hwf Hs Hholds Hlen) as Hall.
  assert (0 ≤ j < associativity (heap w)) as Hj.
  { apply (perm_seqZ_elem (mru_list s) _ j Hperm). rewrite Hmru.
    destruct Hpol as [[_ Hlast]|[_ Hhead]].
    - rewrite last_lookup in Hlast. by eapply list_elem_of_lookup_2.
    - rewrite head_lookup in Hhead. by eapply list_elem_of_lookup_2. }
  assert (selected g (missed w index address) index s
          = (j, with_mru (missed w index address) index (promote j mru)))
    as Hsel.
  { unfold selected. rewrite missed_set_slots, Hall, missed_policies, Hmru.
    destruct Hpol as [[Hp Hlast]|[Hp Hhead]]; rewrite Hp.
    - rewrite decide_False by done. rewrite decide_True by done.
      by rewrite Hlast.
    - rewrite decide_True by done. by rewrite Hhead. }
  destruct (cache_read_miss_slot w address g offset index t s)
    as (v & Hread & Hwf' & _); [done..|rewrite Hsel; simpl; lia|].
  rewrite Hsel in Hread, Hwf'. simpl in Hread, Hwf'.
  eexists _, _. split; [exact Hread|]. split; [done|].
  split; [rewrite geometry_filled; apply geometry_missed|].
  split; [by eapply missed_misses|]. split.
  - pose proof (wf_missed w index address Hwf) as Hwfm.
    destruct (missed_heap w index address) as (Hss & _ & _ & _ & Hkm & _).
    replace (first_index s + j)
      with (first_index s + Z.of_nat (Z.to_nat j)) by lia.
    apply (set_holds_after_fill (missed w index address) index s ts
             (<[Z.to_nat j := t]> ts) mru (promote j mru) (Z.to_nat j)).
    + done.
    + by rewrite Hss.
    + exists s. split; [by rewrite Hss|]. split; [done|].
      intros i l'. rewrite missed_set_slots. apply Hslots.
    + rewrite Hkm. lia.
    + apply list_lookup_insert_eq. lia.
    + intros i Hi. by apply list_lookup_insert_ne.
  - intros Hp. destruct Hpol as [[Hp' _]|[_ Hhead]];
      [by rewrite Hp in Hp'|].
    destruct mru as [|y rest]; [done|]. injection Hhead as ->.
    apply promote_head.
Qed.

Lemma hit_moves_its_slot_to_the_head_witness :
  ∃ vs w,
    read_all [0; 16] zero_rng (boot lru_cache zero_ram) = Some (vs, w) ∧
    mru_list <$> sets (heap w) = [[1; 0; 2; 3]] ∧
    promote (Z.of_nat 0) [1; 0; 2; 3] = [0; 1; 2; 3] ∧
    ∃ v w',
      cache_read 0 zero_rng w = Some (v, w') ∧ wf_world w' ∧
      geometry (heap w') = geometry (heap w) ∧
      lookup_hits w 0 ∧
      miss_count (heap w') = miss_count (heap w) ∧
      set_holds w' 0 [0; 4] (promote (Z.of_nat 0) [1; 0; 2; 3]).
Proof.
  eexists _, _. split; [vm_compute; reflexivity|].
  split; [reflexivity|]. split; [reflexivity|].
  apply (hit_moves_its_slot_to_the_head _ zero_rng 0 [0; 4] [1; 0; 2; 3] 0 0 0).
  - apply (read_all_wf [0; 16] zero_rng (boot lru_cache zero_ram) [0; 0]);
      [exact lru_cache_wf | exact zero_rng_nonneg | vm_compute; reflexivity].
  - left. reflexivity.
  - exists (CSet 4 0 [1; 0; 2; 3]). split; [reflexivity|].
    split; [reflexivity|]. intros i l Hl.
    destruct i as [|[|[|[|i]]]]; simpl in Hl; try discriminate;
      injection Hl as <-; simpl; done.
  - apply (bool_decide_unpack (NoDup [0; 4])). vm_compute. exact I.
  - simpl. lia.
  - reflexivity.
  - exists 0. split; [reflexivity|]. unfold word_in_block. vm_compute.
    discriminate.
Defined.

Lemma replacement_takes_the_end_or_the_head_of_the_list_witness :
  ∃ vs w,
    read_all [0; 16; 32; 48] zero_rng (boot lru_cache zero_ram)
    = Some (vs, w) ∧
    ∃ v w',
      cache_read 64 zero_rng w = Some (v, w') ∧ wf_world w' ∧
      geometry (heap w') = geometry (heap w) ∧
      lookup_misses w 64 ∧
      set_holds w' 0 (<[Z.to_nat 0 := 16]> [0; 4; 8; 12])
        (promote 0 [3; 2; 1; 0]) ∧
      (policies (heap w) = CACHE_REPLACEMENTPOLICY_MRU →
       promote 0 [3; 2; 1; 0] = [3; 2; 1; 0]).
Proof.
  eexists _, _. split; [vm_compute; reflexivity|].
  apply (replacement_takes_the_end_or_the_head_of_the_list _ zero_rng 0
           [0; 4; 8; 12] [3; 2; 1; 0] 64 16 0).
  - apply (read_all_wf [0; 16; 32; 48] zero_rng (boot lru_cache zero_ram)
             [0; 0; 0; 0]);
      [exact lru_cache_wf | exact zero_rng_nonneg | vm_compute; reflexivity].
  - exists (CSet 4 0 [3; 2; 1; 0]). split; [reflexivity|].
    split; [reflexivity|]. intros i l Hl.
    destruct i as [|[|[|[|i]]]]; simpl in Hl; try discriminate;
      injection Hl as <-; simpl; done.
  - reflexivity.
  - exists 0. split; [reflexivity|]. unfold word_in_block. vm_compute.
    discriminate.
  - intros H. repeat (apply elem_of_cons in H as [H|H]; [discriminate|]).
    by apply elem_of_nil in H.
  - left. split; reflexivity.
Defined.
